(** * pytypedecl: the type declaration parser (parse/parser.py) and its AST (pytd.py)

    The development embeds, as Rocq functions,
    - the AST node kinds of [pytd.py],
    - the lexer [PyLexer] of [parse/parser.py] with its indentation stack,
      bracket counter and queue of pending dedents,
    - the grammar actions [p_*] of [TypeDeclParser], [MergeSignatures] and
      [Mutator], driven by a recursive descent over the productions written
      in the docstrings (ply's table driven LALR(1) automaton is a library
      and is not part of the repository),
    and then states and proves the properties of the specification. *)

From Stdlib Require Import String Ascii List ZArith Lia Bool Arith.
Import ListNotations.
Set Warnings "-register-all".
Local Open Scope string_scope.
Local Open Scope list_scope.
Local Open Scope nat_scope.

(** ** pytd.py: the AST *)

Module pytd.

(** The value of a [Scalar]: an [int], a [float] (kept as the decimal text
    handed to Python's [float]) or a [str]. *)
Inductive ScalarValue : Type :=
| IntValue (z : Z)
| FloatValue (lexeme : string)
| StrValue (s : string).

(** The classes that mix in [Type].  [NativeType] wraps a Python type object
    and is never built by the parser; it is left out. *)
Inductive Type_ : Type :=
| NamedType (name : string)
| ClassType (name : string)
| UnknownType
| NothingType
| Scalar (value : ScalarValue)
| UnionType (type_list : list Type_)
| IntersectionType (type_list : list Type_)
| HomogeneousContainerType (base_type element_type : Type_)
| GenericType (base_type : Type_) (parameters : list Type_).

(** [Parameter] (spelled [Parameter_] here) and [MutableParameter] are two
    node kinds; a signature's [params] tuple holds either. *)
Inductive Param : Type :=
| Parameter_ (name : string) (type : Type_)
| MutableParameter (name : string) (type new_type : Type_).

Definition param_name (p : Param) : string :=
  match p with
  | Parameter_ n _ => n
  | MutableParameter n _ _ => n
  end.

Record TemplateItem : Type := mkTemplateItem
  { ti_name : string; ti_within_type : Type_; ti_level : nat }.

Record Signature : Type := mkSignature
  { params : list Param;
    return_type : Type_;
    exceptions : list Type_;
    template : list TemplateItem;
    has_optional : bool }.

Record Function : Type := mkFunction
  { f_name : string; signatures : list Signature }.

Record Constant : Type := mkConstant
  { c_name : string; c_type : Type_ }.

Record Class : Type := mkClass
  { cls_name : string;
    cls_parents : list Type_;
    cls_methods : list Function;
    cls_constants : list Constant;
    cls_template : list TemplateItem }.

(** [modules] is always the empty dict in the parser and is not kept. *)
Record TypeDeclUnit : Type := mkTypeDeclUnit
  { u_constants : list Constant;
    u_classes : list Class;
    u_functions : list Function }.

End pytd.
Import pytd.

(** ** Characters and strings *)

Definition LF : ascii := "010"%char.
Definition CR : ascii := "013"%char.
Definition TAB : ascii := "009"%char.
Definition SPACE : ascii := " "%char.
Definition BACKTICK : ascii := "`"%char.
Definition SQUOTE : ascii := "'"%char.
Definition DQUOTE : ascii := "034"%char.

Definition in_range (lo hi c : ascii) : bool :=
  (nat_of_ascii lo <=? nat_of_ascii c) && (nat_of_ascii c <=? nat_of_ascii hi).

Definition is_digit (c : ascii) : bool := in_range "0" "9" c.

(** [[a-zA-Z_]] *)
Definition is_name_start (c : ascii) : bool :=
  in_range "a" "z" c || in_range "A" "Z" c || Ascii.eqb c "_".

(** [[a-zA-Z0-9_\.]] *)
Definition is_name_char (c : ascii) : bool :=
  is_name_start c || is_digit c || Ascii.eqb c ".".

(** [[\n\r ]] *)
Definition is_whitespace (c : ascii) : bool :=
  Ascii.eqb c LF || Ascii.eqb c CR || Ascii.eqb c SPACE.

(** The longest prefix whose characters satisfy [p], and what follows. *)
Fixpoint span (p : ascii -> bool) (l : list ascii) : list ascii * list ascii :=
  match l with
  | [] => ([], [])
  | c :: r =>
      if p c then let (a, b) := span p r in (c :: a, b) else ([], l)
  end.

(** The text before the first [q] and the text after it, when [q] occurs. *)
Fixpoint break_at (q : ascii) (l : list ascii) : option (list ascii * list ascii) :=
  match l with
  | [] => None
  | c :: r =>
      if Ascii.eqb c q then Some ([], r)
      else match break_at q r with
           | Some (a, b) => Some (c :: a, b)
           | None => None
           end
  end.

Definition str (l : list ascii) : string := string_of_list_ascii l.

(** [int(text)] on an optionally signed run of decimal digits. *)
Definition digit_value (c : ascii) : Z := Z.of_nat (nat_of_ascii c - 48).

Definition int_of_digits (ds : list ascii) : Z :=
  fold_left (fun acc c => 10 * acc + digit_value c)%Z ds 0%Z.

Definition py_int (lexeme : list ascii) : Z :=
  match lexeme with
  | c :: ds =>
      if Ascii.eqb c "-" then (- int_of_digits ds)%Z
      else if Ascii.eqb c "+" then int_of_digits ds
      else int_of_digits lexeme
  | [] => 0%Z
  end.

(** ** Exceptions *)

(** What escapes from [TypeDeclParser.Parse].  [SyntaxError] carries
    [(msg, (filename, lineno, offset, line))], [SystemError] carries
    [(msg, (lexpos, lineno))].  [EvalError] stands for whatever Python's
    [eval] raises on a quoted literal it rejects. *)
Inductive Exception : Type :=
| SyntaxError (msg filename : string) (lineno : nat) (offset : Z) (line : string)
| SystemError (msg : string) (lexpos lineno : nat)
| AttributeError (msg : string)
| TypeError (msg : string)
| IndexError (msg : string)
| EvalError (literal : string).

(** ** The lexer *)

Inductive TokenType : Type :=
| ARROW | AT | COLON | COLONEQUALS | COMMA | DEDENT | DOT | INDENT
| LBRACKET | LPAREN | NAME | NUMBER | QUESTIONMARK | RBRACKET | RPAREN
| STRING
| CLASS | DEF | PASS | AND | OR | NOTHING | RAISES | EXTENDS.

Definition TokenType_eqb (a b : TokenType) : bool :=
  match a, b with
  | ARROW, ARROW | AT, AT | COLON, COLON | COLONEQUALS, COLONEQUALS
  | COMMA, COMMA | DEDENT, DEDENT | DOT, DOT | INDENT, INDENT
  | LBRACKET, LBRACKET | LPAREN, LPAREN | NAME, NAME | NUMBER, NUMBER
  | QUESTIONMARK, QUESTIONMARK | RBRACKET, RBRACKET | RPAREN, RPAREN
  | STRING, STRING | CLASS, CLASS | DEF, DEF | PASS, PASS | AND, AND
  | OR, OR | NOTHING, NOTHING | RAISES, RAISES | EXTENDS, EXTENDS => true
  | _, _ => false
  end.

(** [t.value]: the matched text, or what [t_STRING] and [t_NUMBER] put in
    its place. *)
Inductive TokenValue : Type :=
| Text (s : string)
| IntNumber (z : Z)
| FloatNumber (lexeme : string).

Record LexToken : Type := mkLexToken
  { tok_type : TokenType;
    tok_value : TokenValue;
    tok_lineno : nat;
    tok_lexpos : nat }.

(** The third argument of [make_syntax_error]: a [yacc.YaccProduction]
    (known by [p.lexpos(1)] and [p.lineno(1)]), a [LexToken] (of which
    [p.lineno] and [p.lexpos] are read), or the [None] that ply hands to
    [p_error] at the end of the input. *)
Inductive ErrorSite : Type :=
| AtProduction (lexpos1 lineno1 : nat)
| AtToken (p_lineno p_lexpos : nat)
| AtNone.

(** [data.rfind('\n', 0, lexpos) + 1], scanning [data[0:lexpos]] from index
    [i] with the best offset so far in [acc]. *)
Fixpoint rfind_newline_plus1 (prefix : list ascii) (i acc : nat) : nat :=
  match prefix with
  | [] => acc
  | c :: r => rfind_newline_plus1 r (S i) (if Ascii.eqb c LF then S i else acc)
  end.

Definition last_line_offset (data : list ascii) (lexpos : nat) : nat :=
  rfind_newline_plus1 (firstn lexpos data) 0 0.

(** [data[last_line_offset:].partition('\n')[0]] *)
Definition line_from (data : list ascii) (offset : nat) : list ascii :=
  fst (span (fun c => negb (Ascii.eqb c LF)) (skipn offset data)).

Definition make_syntax_error (data : list ascii) (filename msg : string)
    (p : ErrorSite) : Exception :=
  match p with
  | AtProduction lexpos1 lineno1 => SystemError msg lexpos1 lineno1
  | AtNone => AttributeError "'NoneType' object has no attribute 'lexpos'"
  | AtToken p_lineno p_lexpos =>
      let llo := last_line_offset data p_lexpos in
      SyntaxError msg filename p_lineno
        (Z.of_nat p_lexpos - Z.of_nat llo + 1)
        (str (line_from data llo))
  end.

(** The lexer object's mutable attributes.  [indent_stack] is kept with its
    last element ([indent_stack[-1]]) at the head of the list; [lineno] and
    [lexpos] are ply's own counters. *)
Record PyLexer : Type := mkPyLexer
  { indent_stack : list nat;
    open_brackets : Z;
    queued_dedents : nat;
    lineno : nat;
    lexpos : nat }.

(** [set_parse_info] on a fresh ply lexer (line 1, offset 0). *)
Definition set_parse_info : PyLexer :=
  {| indent_stack := [0]; open_brackets := 0; queued_dedents := 0;
     lineno := 1; lexpos := 0 |}.

Definition reserved : list string :=
  ["class"; "def"; "pass"; "and"; "or"; "nothing"; "raises"; "extends"].

Definition keyword_type (s : string) : option TokenType :=
  if String.eqb s "class" then Some CLASS
  else if String.eqb s "def" then Some DEF
  else if String.eqb s "pass" then Some PASS
  else if String.eqb s "and" then Some AND
  else if String.eqb s "or" then Some OR
  else if String.eqb s "nothing" then Some NOTHING
  else if String.eqb s "raises" then Some RAISES
  else if String.eqb s "extends" then Some EXTENDS
  else None.

(** One call of ply's matching loop: a token is returned, the match is
    discarded (the rule function returned [None]), an exception is raised,
    or the input is exhausted. *)
Inductive Step : Type :=
| Emit (t : LexToken) (lexer : PyLexer) (rest : list ascii)
| Discard (lexer : PyLexer) (rest : list ascii)
| Raise (e : Exception)
| Eof.

(** [value.count('\n')] *)
Definition count_newlines (value : list ascii) : nat :=
  length (filter (fun c => Ascii.eqb c LF) value).

(** [len(s) - s.rfind('\n') - 1] for [s = value.replace('\r', '')], or
    [None] when [s] holds no newline. *)
Definition indent_after_last_newline (value : list ascii) : option nat :=
  fold_left
    (fun acc c =>
       if Ascii.eqb c LF then Some 0
       else if Ascii.eqb c CR then acc
       else option_map S acc)
    value None.

(** [while indent < self.indent_stack[-1]: self.indent_stack.pop();
    self.queued_dedents += 1].  [None] is the [IndexError] of an empty
    stack. *)
Fixpoint pop_queued (indent : nat) (stack : list nat) (queued : nat)
  : option (list nat * nat) :=
  match stack with
  | [] => None
  | top :: below =>
      if indent <? top then pop_queued indent below (S queued)
      else Some (stack, queued)
  end.

Section Lexer.

(** Python's [eval] on the text of a quoted literal: the [str] it denotes,
    or [None] when [eval] raises. *)
Variable py_eval : string -> option string.

Variable data : list ascii.
Variable filename : string.

Definition token_at (lx : PyLexer) (ty : TokenType) (v : TokenValue) : LexToken :=
  mkLexToken ty v (lineno lx) (lexpos lx).

(** The lexer after a match of [n] characters: ply sets [lexpos] to the end
    of the match before it calls the rule function. *)
Definition advance (lx : PyLexer) (n : nat) : PyLexer :=
  {| indent_stack := indent_stack lx; open_brackets := open_brackets lx;
     queued_dedents := queued_dedents lx; lineno := lineno lx;
     lexpos := lexpos lx + n |}.

Definition bracket (lx : PyLexer) (delta : Z) : PyLexer :=
  {| indent_stack := indent_stack lx;
     open_brackets := (open_brackets lx + delta)%Z;
     queued_dedents := queued_dedents lx; lineno := lineno lx;
     lexpos := lexpos lx + 1 |}.

(** [t_WHITESPACE] on the match [value], followed in the input by [rest].
    [lx] is the lexer when the match starts. *)
Definition t_WHITESPACE (lx : PyLexer) (value rest : list ascii) : Step :=
  let t := fun ty => token_at lx ty (Text (str value)) in
  let end_pos := lexpos lx + length value in
  match queued_dedents lx with
  | S q =>
      Emit (t DEDENT)
        {| indent_stack := indent_stack lx; open_brackets := open_brackets lx;
           queued_dedents := q; lineno := lineno lx; lexpos := end_pos |}
        rest
  | O =>
      let lineno' := lineno lx + count_newlines value in
      let same :=
        {| indent_stack := indent_stack lx; open_brackets := open_brackets lx;
           queued_dedents := 0; lineno := lineno'; lexpos := end_pos |} in
      if negb (open_brackets lx =? 0)%Z then Discard same rest
      else
        match indent_after_last_newline value with
        | None => Discard same rest
        | Some indent =>
            match indent_stack lx with
            | [] => Raise (IndexError "list index out of range")
            | top :: below =>
                if indent <? top then
                  match pop_queued indent below 0 with
                  | None => Raise (IndexError "list index out of range")
                  | Some ([], _) => Raise (IndexError "list index out of range")
                  | Some (top' :: below', queued) =>
                      if negb (indent =? top') then
                        Raise (make_syntax_error data filename "invalid dedent"
                                 (AtToken (lineno lx) (lexpos lx)))
                      else
                        match queued with
                        | O =>
                            Emit (t DEDENT)
                              {| indent_stack := top' :: below';
                                 open_brackets := open_brackets lx;
                                 queued_dedents := 0; lineno := lineno';
                                 lexpos := end_pos |}
                              rest
                        | S _ =>
                            (* t.lexer.skip(-1): the last character of the
                               match is read again *)
                            Emit (t DEDENT)
                              {| indent_stack := top' :: below';
                                 open_brackets := open_brackets lx;
                                 queued_dedents := queued; lineno := lineno';
                                 lexpos := end_pos - 1 |}
                              (last value SPACE :: rest)
                        end
                  end
                else if top <? indent then
                  Emit (t INDENT)
                    {| indent_stack := indent :: top :: below;
                       open_brackets := open_brackets lx;
                       queued_dedents := 0; lineno := lineno';
                       lexpos := end_pos |}
                    rest
                else Discard same rest
            end
        end
  end.

(** [t_NAME]'s pattern: an identifier, or a span between backticks. *)
Definition match_NAME (input : list ascii) : option (list ascii * list ascii) :=
  match input with
  | [] => None
  | c :: r =>
      if is_name_start c then
        let (body, rest) := span is_name_char r in Some (c :: body, rest)
      else if Ascii.eqb c BACKTICK then
        match break_at BACKTICK r with
        | Some (inner, rest) => Some (c :: inner ++ [BACKTICK], rest)
        | None => None
        end
      else None
  end.

(** [t_STRING]'s pattern.  [[^']] also matches a backslash, so the greedy
    star stops at the first later quote of the opening kind, and the pattern
    fails when there is none. *)
Definition match_STRING (input : list ascii) : option (list ascii * list ascii) :=
  match input with
  | [] => None
  | c :: r =>
      if Ascii.eqb c SQUOTE || Ascii.eqb c DQUOTE then
        match break_at c r with
        | Some (inner, rest) => Some (c :: inner ++ [c], rest)
        | None => None
        end
      else None
  end.

(** [t_NUMBER]'s pattern: an optional sign, one or more digits, and
    optionally a dot followed by any number of digits. *)
Definition match_NUMBER (input : list ascii) : option (list ascii * list ascii) :=
  let (sign, r1) :=
    match input with
    | c :: r => if Ascii.eqb c "-" || Ascii.eqb c "+" then ([c], r) else ([], input)
    | [] => ([], input)
    end in
  let (digits, r2) := span is_digit r1 in
  match digits with
  | [] => None
  | _ :: _ =>
      match r2 with
      | c :: r3 =>
          if Ascii.eqb c "." then
            let (frac, r4) := span is_digit r3 in
            Some (sign ++ digits ++ c :: frac, r4)
          else Some (sign ++ digits, r2)
      | [] => Some (sign ++ digits, r2)
      end
  end.

Definition t_NAME (lx : PyLexer) (value rest : list ascii) : Step :=
  let lx' := advance lx (length value) in
  match value with
  | c :: inner_and_tick =>
      if Ascii.eqb c BACKTICK then
        Emit (token_at lx NAME (Text (str (removelast inner_and_tick)))) lx' rest
      else
        match keyword_type (str value) with
        | Some kw => Emit (token_at lx kw (Text (str value))) lx' rest
        | None => Emit (token_at lx NAME (Text (str value))) lx' rest
        end
  | [] => Emit (token_at lx NAME (Text (str value))) lx' rest
  end.

Definition t_STRING (lx : PyLexer) (value rest : list ascii) : Step :=
  match py_eval (str value) with
  | Some s => Emit (token_at lx STRING (Text s)) (advance lx (length value)) rest
  | None => Raise (EvalError (str value))
  end.

Definition t_NUMBER (lx : PyLexer) (value rest : list ascii) : Step :=
  let v :=
    if existsb (fun c => Ascii.eqb c ".") value
    then FloatNumber (str value) else IntNumber (py_int value) in
  Emit (token_at lx NUMBER v) (advance lx (length value)) rest.

(** The rules given as strings, longest pattern first. *)
Definition string_rules (lx : PyLexer) (input : list ascii) : Step :=
  let one := fun ty c r => Emit (token_at lx ty (Text (str [c]))) (advance lx 1) r in
  match input with
  | [] => Eof
  | c :: r =>
      if Ascii.eqb c "?" then one QUESTIONMARK c r
      else if Ascii.eqb c "." then one DOT c r
      else
        match r with
        | d :: r' =>
            if Ascii.eqb c "-" && Ascii.eqb d ">" then
              Emit (token_at lx ARROW (Text "->")) (advance lx 2) r'
            else if Ascii.eqb c ":" && Ascii.eqb d "=" then
              Emit (token_at lx COLONEQUALS (Text ":=")) (advance lx 2) r'
            else if Ascii.eqb c "@" then one AT c r
            else if Ascii.eqb c ":" then one COLON c r
            else if Ascii.eqb c "," then one COMMA c r
            else
              Raise (make_syntax_error data filename
                       ("Illegal character '" ++ String c "'")%string
                       (AtToken (lineno lx) (lexpos lx)))
        | [] =>
            if Ascii.eqb c "@" then one AT c r
            else if Ascii.eqb c ":" then one COLON c r
            else if Ascii.eqb c "," then one COMMA c r
            else
              Raise (make_syntax_error data filename
                       ("Illegal character '" ++ String c "'")%string
                       (AtToken (lineno lx) (lexpos lx)))
        end
  end.

(** One step of [lexer.token()] on the unread input: the function rules in
    the order of their definition, then the string rules, then [t_error]. *)
Definition token_step (lx : PyLexer) (input : list ascii) : Step :=
  match input with
  | [] => Eof
  | c :: r =>
      if Ascii.eqb c "<" then
        Emit (token_at lx LBRACKET (Text "<")) (bracket lx 1) r
      else if Ascii.eqb c ">" then
        Emit (token_at lx RBRACKET (Text ">")) (bracket lx (-1)) r
      else if Ascii.eqb c "(" then
        Emit (token_at lx LPAREN (Text "(")) (bracket lx 1) r
      else if Ascii.eqb c ")" then
        Emit (token_at lx RPAREN (Text ")")) (bracket lx (-1)) r
      else if Ascii.eqb c TAB then
        Raise (make_syntax_error data filename "Use spaces, not tabs"
                 (AtToken (lineno lx) (lexpos lx)))
      else if is_whitespace c then
        let (value, rest) := span is_whitespace input in
        t_WHITESPACE lx value rest
      else
        match match_NAME input with
        | Some (value, rest) => t_NAME lx value rest
        | None =>
            match match_STRING input with
            | Some (value, rest) => t_STRING lx value rest
            | None =>
                match match_NUMBER input with
                | Some (value, rest) => t_NUMBER lx value rest
                | None =>
                    if Ascii.eqb c "#" then
                      let (value, rest) :=
                        span (fun x => negb (Ascii.eqb x LF)) r in
                      Discard (advance lx (S (length value))) rest
                    else string_rules lx input
                end
            end
        end
  end.

(** How a run of the lexer over the whole input ends. *)
Inductive LexEnd : Type :=
| AtEof (lexer : PyLexer)
| Raised (e : Exception)
| LexFuel.

(** All the tokens the parser can ask for, in order, and how the stream
    ends.  [fuel] bounds the number of matches.  At the end of the input
    ply's [token()] sets [lexpos] one past the end before it returns
    [None]. *)
Fixpoint tokens_of (fuel : nat) (lx : PyLexer) (input : list ascii)
  : list LexToken * LexEnd :=
  match fuel with
  | O => ([], LexFuel)
  | S fuel' =>
      match token_step lx input with
      | Eof => ([], AtEof (advance lx 1))
      | Raise e => ([], Raised e)
      | Discard lx' rest => tokens_of fuel' lx' rest
      | Emit t lx' rest =>
          let (ts, e) := tokens_of fuel' lx' rest in (t :: ts, e)
      end
  end.

End Lexer.

(** ** The grammar actions *)

Record Params : Type := mkParams
  { required : list Param; params_has_optional : bool }.

Record NameAndSig : Type := mkNameAndSig
  { name : string; signature : Signature }.

(** [Mutator(name, new_type)] *)
Record Mutator : Type := mkMutator
  { mutator_name : string; mutator_new_type : Type_ }.

(** [Mutator.VisitParameter], on the [Parameter] node [p] given by its two
    fields. *)
Definition VisitParameter (self : Mutator) (p_name : string) (p_type : Type_)
  : Param :=
  if String.eqb p_name (mutator_name self)
  then MutableParameter p_name p_type (mutator_new_type self)
  else Parameter_ p_name p_type.

(** Modelled from the spec: [Signature.Visit], the generic traversal of
    [parse/node.py], which is not among the sources.  The spec gives its
    contract: given a tree and a visitor with rewrite methods per node kind,
    it produces a new tree where each matching node is replaced by the
    visitor's return value, and non-matching nodes and their subtrees are
    unchanged.  [Mutator] has one rewrite method, for the kind [Parameter];
    in a signature only the members of [params] can be of that kind. *)
Definition Visit_Param (visitor : Mutator) (p : Param) : Param :=
  match p with
  | Parameter_ n t => VisitParameter visitor n t
  | MutableParameter _ _ _ => p
  end.

Definition Visit (sig : Signature) (visitor : Mutator) : Signature :=
  {| params := map (Visit_Param visitor) (params sig);
     return_type := return_type sig;
     exceptions := exceptions sig;
     template := template sig;
     has_optional := has_optional sig |}.

(** *** MergeSignatures *)

(** The [collections.OrderedDict] from names to lists of signatures: its
    items in insertion order. *)
Definition OrderedDict : Type := list (string * list Signature).

(** [name in d] *)
Definition od_contains (d : OrderedDict) (key : string) : bool :=
  existsb (fun kv => String.eqb (fst kv) key) d.

(** [d[name] = value] *)
Fixpoint od_setitem (d : OrderedDict) (key : string) (value : list Signature)
  : OrderedDict :=
  match d with
  | [] => [(key, value)]
  | (k, v) :: r =>
      if String.eqb k key then (k, value) :: r
      else (k, v) :: od_setitem r key value
  end.

(** [d[name].append(signature)], for a [name] in [d] *)
Fixpoint od_append (d : OrderedDict) (key : string) (sig : Signature)
  : OrderedDict :=
  match d with
  | [] => []
  | (k, v) :: r =>
      if String.eqb k key then (k, v ++ [sig]) :: r
      else (k, v) :: od_append r key sig
  end.

Definition merge_step (d : OrderedDict) (ns : NameAndSig) : OrderedDict :=
  let d' := if od_contains d (name ns) then d else od_setitem d (name ns) [] in
  od_append d' (name ns) (signature ns).

Definition MergeSignatures (signatures : list NameAndSig) : list Function :=
  map (fun kv => mkFunction (fst kv) (snd kv))
      (fold_left merge_step signatures []).

(** *** Declarations *)

(** What [alldefs] and [funcdefs] collect: [NameAndSig], [pytd.Constant]
    and (at module scope) [pytd.Class] instances. *)
Inductive Def : Type :=
| FuncDef (f : NameAndSig)
| ConstantDef (c : Constant)
| ClassDef (c : Class).

Definition def_name (d : Def) : string :=
  match d with
  | FuncDef f => name f
  | ConstantDef c => c_name c
  | ClassDef c => cls_name c
  end.

Definition funcdefs_of (l : list Def) : list NameAndSig :=
  flat_map (fun d => match d with FuncDef f => [f] | _ => [] end) l.

Definition constants_of (l : list Def) : list Constant :=
  flat_map (fun d => match d with ConstantDef c => [c] | _ => [] end) l.

Definition classes_of (l : list Def) : list Class :=
  flat_map (fun d => match d with ClassDef c => [c] | _ => [] end) l.

(** Python sets of names, as lists: [a & b] is non-empty, and [a != b]. *)
Definition mem (x : string) (s : list string) : bool :=
  existsb (String.eqb x) s.

Definition intersects (a b : list string) : bool :=
  existsb (fun x => mem x b) a.

Definition subset (a b : list string) : bool :=
  forallb (fun x => mem x b) a.

Definition set_neq (a b : list string) : bool :=
  negb (subset a b && subset b a).

Section Actions.

Variable data : list ascii.
Variable filename : string.

(** [p.lexpos(1)] and [p.lineno(1)] of a production whose first symbol is a
    nonterminal: ply returns 0 for both when positions are not tracked. *)
Definition p_unit (p1 : list Def) : Exception + TypeDeclUnit :=
  let funcdefs := funcdefs_of p1 in
  let constants := constants_of p1 in
  let classes := classes_of p1 in
  if intersects (map name funcdefs) (map c_name constants)
     || intersects (map c_name constants) (map cls_name classes)
     || intersects (map cls_name classes) (map name funcdefs)
  then inl (make_syntax_error data filename "Duplicate identifier(s)"
              (AtProduction 0 0))
  else inr {| u_constants := constants;
              u_functions := MergeSignatures funcdefs;
              u_classes := classes |}.

(** [p_classdef]; [class_token] is [p[1]], the [CLASS] token. *)
Definition p_classdef (class_token : LexToken) (p2 : list TemplateItem)
    (p3 : string) (p4 : list Type_) (p7 : list Def) : Exception + Class :=
  let funcdefs := funcdefs_of p7 in
  let constants := constants_of p7 in
  if set_neq (map name funcdefs ++ map c_name constants) (map def_name p7)
  then inl (make_syntax_error data filename "Duplicate identifier(s)"
              (AtProduction (tok_lexpos class_token) (tok_lineno class_token)))
  else inr {| cls_name := p3; cls_parents := p4;
              cls_methods := MergeSignatures funcdefs;
              cls_constants := constants; cls_template := p2 |}.

End Actions.

Definition p_template_item (p1 : string) : TemplateItem :=
  mkTemplateItem p1 (NamedType "object") 0.

Definition p_template_item_subclss (p1 : string) (p3 : Type_) : TemplateItem :=
  mkTemplateItem p1 p3 0.

Definition p_constantdef (p1 : string) (p3 : Type_) : Constant :=
  mkConstant p1 p3.

Definition p_funcdef (p2 : list TemplateItem) (p3 : string) (p5 : Params)
    (p7 : Type_) (p8 : list Type_) (p10 : list Mutator) : NameAndSig :=
  let signature :=
    {| params := required p5; return_type := p7; exceptions := p8;
       template := p2; has_optional := params_has_optional p5 |} in
  {| name := p3; signature := fold_left Visit p10 signature |}.

Definition p_body_1 (p1 : Mutator) : list Mutator := [p1].

(** [p[0] = p[1] + [p[2]]] with [p[1]] a [Mutator] and [p[2]] the list of
    the rest of the body: [Mutator] has no [__add__] and [list] has no
    [__radd__], so the addition raises. *)
Definition p_body_multiple (p1 : Mutator) (p2 : list Mutator)
  : Exception + list Mutator :=
  inl (TypeError "unsupported operand type(s) for +: 'Mutator' and 'list'").

Definition p_mutator (p1 : string) (p3 : Type_) : Mutator := mkMutator p1 p3.

Definition p_params_multi (p1 : Params) (p3 : Param) : Params :=
  mkParams (required p1 ++ [p3]) false.

Definition p_params_ellipsis (p1 : Params) : Params :=
  mkParams (required p1) true.

Definition p_params_1 (p1 : Param) : Params := mkParams [p1] false.

Definition p_params_only_ellipsis : Params := mkParams [] true.

Definition p_params_null : Params := mkParams [] false.

Definition p_param (p1 : string) : Param := Parameter_ p1 (NamedType "object").

Definition p_param_and_type (p1 : string) (p3 : Type_) : Param := Parameter_ p1 p3.

(** *** Type expressions *)

Definition p_type_and (p1 p3 : Type_) : Type_ :=
  match p1, p3 with
  | IntersectionType type_list, NamedType _ => IntersectionType (type_list ++ [p3])
  | NamedType _, IntersectionType type_list => IntersectionType (p1 :: type_list)
  | _, _ => IntersectionType [p1; p3]
  end.

Definition p_type_or (p1 p3 : Type_) : Type_ :=
  match p1, p3 with
  | UnionType type_list, NamedType _ => UnionType (type_list ++ [p3])
  | NamedType _, UnionType type_list => UnionType (p1 :: type_list)
  | _, _ => UnionType [p1; p3]
  end.

Definition p_type_homogeneous (p1 : string) (p3 : list Type_) : Type_ :=
  match p3 with
  | [element_type] => HomogeneousContainerType (NamedType p1) element_type
  | _ => GenericType (NamedType p1) p3
  end.

Definition p_type_generic_1 (p1 : string) (p3 : list Type_) : Type_ :=
  GenericType (NamedType p1) p3.

Definition p_scalar (v : TokenValue) : Type_ :=
  match v with
  | Text s => Scalar (StrValue s)
  | IntNumber z => Scalar (IntValue z)
  | FloatNumber x => Scalar (FloatValue x)
  end.

(** ** The parser *)

(** Why a run over the token list stops without a value: [p_error(t)] on a
    token no production accepts, the end of the list where a token is
    needed, an exception raised by an action, or no fuel left. *)
Inductive ParseStop : Type :=
| ErrorToken (t : LexToken)
| ErrorEnd
| ActionRaised (e : Exception)
| ParseFuel.

Definition Parsed (A : Type) : Type := ParseStop + (A * list LexToken).

Notation "' p <- e ;; k" :=
  (match e with
   | inr p => k
   | inl stop => inl stop
   end)
  (at level 10, p pattern, e at level 100, k at level 200).

Definition text_of (t : LexToken) : string :=
  match tok_value t with
  | Text s => s
  | _ => ""
  end.

Definition expect (ty : TokenType) (ts : list LexToken) : Parsed LexToken :=
  match ts with
  | [] => inl ErrorEnd
  | t :: r =>
      if TokenType_eqb (tok_type t) ty then inr (t, r) else inl (ErrorToken t)
  end.

(** The lookahead token is of type [ty]. *)
Definition next_is (ty : TokenType) (ts : list LexToken) : bool :=
  match ts with
  | t :: _ => TokenType_eqb (tok_type t) ty
  | [] => false
  end.

(** [X : X op operand], left associative: the operands after the first. *)
Fixpoint binary_rest (op : TokenType) (action : Type_ -> Type_ -> Type_)
    (operand : list LexToken -> Parsed Type_)
    (fuel : nat) (lhs : Type_) (ts : list LexToken) : Parsed Type_ :=
  match fuel with
  | O => inl ParseFuel
  | S fuel' =>
      if next_is op ts then
        '(rhs, ts1) <- operand (tl ts) ;;
        binary_rest op action operand fuel' (action lhs rhs) ts1
      else inr (lhs, ts)
  end.

(** [('left', 'OR'), ('left', 'AND')]: [and] binds tighter than [or]. *)
Definition and_level (atom : list LexToken -> Parsed Type_) (fuel : nat)
    (ts : list LexToken) : Parsed Type_ :=
  '(lhs, ts1) <- atom ts ;;
  binary_rest AND p_type_and atom fuel lhs ts1.

Definition or_level (atom : list LexToken -> Parsed Type_) (fuel : nat)
    (ts : list LexToken) : Parsed Type_ :=
  '(lhs, ts1) <- and_level atom fuel ts ;;
  binary_rest OR p_type_or (and_level atom fuel) fuel lhs ts1.

(** [X : X COMMA item], after the first item: [p[1] + [p[3]]]. *)
Fixpoint comma_list {A : Type} (item : list LexToken -> Parsed A)
    (fuel : nat) (acc : list A) (ts : list LexToken) : Parsed (list A) :=
  match fuel with
  | O => inl ParseFuel
  | S fuel' =>
      if next_is COMMA ts then
        '(x, ts1) <- item (tl ts) ;;
        comma_list item fuel' (acc ++ [x]) ts1
      else inr (acc, ts)
  end.

(** [parameters] after its first member, up to and including the closing
    bracket: the tuple, and whether a comma came right before the bracket
    ([p_type_generic_1]). *)
Fixpoint parameters_rest (item : list LexToken -> Parsed Type_)
    (fuel : nat) (acc : list Type_) (ts : list LexToken)
  : Parsed (list Type_ * bool) :=
  match fuel with
  | O => inl ParseFuel
  | S fuel' =>
      match ts with
      | [] => inl ErrorEnd
      | t :: r =>
          match tok_type t with
          | RBRACKET => inr ((acc, false), r)
          | COMMA =>
              if next_is RBRACKET r then inr ((acc, true), tl r)
              else
                '(x, ts1) <- item r ;;
                parameters_rest item fuel' (acc ++ [x]) ts1
          | _ => inl (ErrorToken t)
          end
      end
  end.

(** The productions of [type] that do not start with a [type]. *)
Fixpoint parse_atom (fuel : nat) (ts : list LexToken) : Parsed Type_ :=
  match fuel with
  | O => inl ParseFuel
  | S fuel' =>
      let type_ := or_level (parse_atom fuel') fuel' in
      match ts with
      | [] => inl ErrorEnd
      | t :: r =>
          match tok_type t with
          | NAME =>
              if next_is LBRACKET r then
                '(first, ts1) <- type_ (tl r) ;;
                '(ps, ts2) <- parameters_rest type_ fuel' [first] ts1 ;;
                if snd ps
                then inr (p_type_generic_1 (text_of t) (fst ps), ts2)
                else inr (p_type_homogeneous (text_of t) (fst ps), ts2)
              else inr (NamedType (text_of t), r)
          | LPAREN =>
              '(inner, ts1) <- type_ r ;;
              '(_, ts2) <- expect RPAREN ts1 ;;
              inr (inner, ts2)
          | QUESTIONMARK => inr (UnknownType, r)
          | NOTHING => inr (NothingType, r)
          | STRING => inr (p_scalar (tok_value t), r)
          | NUMBER => inr (p_scalar (tok_value t), r)
          | _ => inl (ErrorToken t)
          end
      end
  end.

Definition parse_type (fuel : nat) (ts : list LexToken) : Parsed Type_ :=
  or_level (parse_atom fuel) fuel ts.

Definition parse_param (fuel : nat) (ts : list LexToken) : Parsed Param :=
  '(n, ts1) <- expect NAME ts ;;
  if next_is COLON ts1 then
    '(t, ts2) <- parse_type fuel (tl ts1) ;;
    inr (p_param_and_type (text_of n) t, ts2)
  else inr (p_param (text_of n), ts1).

Definition three_dots (ts : list LexToken) : Parsed unit :=
  '(_, ts1) <- expect DOT ts ;;
  '(_, ts2) <- expect DOT ts1 ;;
  '(_, ts3) <- expect DOT ts2 ;;
  inr (tt, ts3).

Fixpoint params_rest (fuel : nat) (acc : Params) (ts : list LexToken)
  : Parsed Params :=
  match fuel with
  | O => inl ParseFuel
  | S fuel' =>
      if next_is COMMA ts then
        if next_is DOT (tl ts) then
          '(_, ts1) <- three_dots (tl ts) ;;
          params_rest fuel' (p_params_ellipsis acc) ts1
        else
          '(p, ts1) <- parse_param fuel' (tl ts) ;;
          params_rest fuel' (p_params_multi acc p) ts1
      else inr (acc, ts)
  end.

Definition parse_params (fuel : nat) (ts : list LexToken) : Parsed Params :=
  if next_is NAME ts then
    '(p, ts1) <- parse_param fuel ts ;;
    params_rest fuel (p_params_1 p) ts1
  else if next_is DOT ts then
    '(_, ts1) <- three_dots ts ;;
    params_rest fuel p_params_only_ellipsis ts1
  else params_rest fuel p_params_null ts.

Definition parse_template_item (fuel : nat) (ts : list LexToken)
  : Parsed TemplateItem :=
  '(n, ts1) <- expect NAME ts ;;
  if next_is EXTENDS ts1 then
    '(t, ts2) <- parse_type fuel (tl ts1) ;;
    inr (p_template_item_subclss (text_of n) t, ts2)
  else inr (p_template_item (text_of n), ts1).

Definition parse_template (fuel : nat) (ts : list LexToken)
  : Parsed (list TemplateItem) :=
  if next_is LBRACKET ts then
    '(first, ts1) <- parse_template_item fuel (tl ts) ;;
    '(items, ts2) <- comma_list (parse_template_item fuel) fuel [first] ts1 ;;
    '(_, ts3) <- expect RBRACKET ts2 ;;
    inr (items, ts3)
  else inr ([], ts).

Definition parse_parents (fuel : nat) (ts : list LexToken)
  : Parsed (list Type_) :=
  if next_is LPAREN ts then
    '(first, ts1) <- parse_type fuel (tl ts) ;;
    '(parent_list, ts2) <- comma_list (parse_type fuel) fuel [first] ts1 ;;
    '(_, ts3) <- expect RPAREN ts2 ;;
    inr (parent_list, ts3)
  else inr ([], ts).

Definition parse_return (fuel : nat) (ts : list LexToken) : Parsed Type_ :=
  if next_is ARROW ts then parse_type fuel (tl ts) else inr (UnknownType, ts).

Definition parse_raises (fuel : nat) (ts : list LexToken)
  : Parsed (list Type_) :=
  if next_is RAISES ts then
    '(first, ts1) <- parse_type fuel (tl ts) ;;
    comma_list (parse_type fuel) fuel [first] ts1
  else inr ([], ts).

Definition parse_signature (ts : list LexToken) : Parsed (option string) :=
  if next_is AT ts then
    '(s, ts1) <- expect STRING (tl ts) ;;
    inr (Some (text_of s), ts1)
  else inr (None, ts).

Definition parse_mutator (fuel : nat) (ts : list LexToken) : Parsed Mutator :=
  '(n, ts1) <- expect NAME ts ;;
  '(_, ts2) <- expect COLONEQUALS ts1 ;;
  '(t, ts3) <- parse_type fuel ts2 ;;
  inr (p_mutator (text_of n) t, ts3).

(** [body : mutator | mutator body].  The automaton reduces only once it
    has seen the [DEDENT] that ends the body; the actions then run from the
    last mutator back to the first. *)
Fixpoint parse_body (fuel : nat) (ts : list LexToken) : Parsed (list Mutator) :=
  match fuel with
  | O => inl ParseFuel
  | S fuel' =>
      '(m, ts1) <- parse_mutator fuel' ts ;;
      match ts1 with
      | [] => inl ErrorEnd
      | t :: _ =>
          match tok_type t with
          | DEDENT => inr (p_body_1 m, ts1)
          | NAME =>
              '(rest, ts2) <- parse_body fuel' ts1 ;;
              match p_body_multiple m rest with
              | inl e => inl (ActionRaised e)
              | inr body => inr (body, ts2)
              end
          | _ => inl (ErrorToken t)
          end
      end
  end.

Definition parse_maybe_body (fuel : nat) (ts : list LexToken)
  : Parsed (list Mutator) :=
  if next_is COLON ts then
    '(_, ts1) <- expect INDENT (tl ts) ;;
    '(body, ts2) <- parse_body fuel ts1 ;;
    '(_, ts3) <- expect DEDENT ts2 ;;
    inr (body, ts3)
  else inr ([], ts).

Definition parse_funcdef (fuel : nat) (ts : list LexToken) : Parsed NameAndSig :=
  '(_, ts1) <- expect DEF ts ;;
  '(p2, ts2) <- parse_template fuel ts1 ;;
  '(p3, ts3) <- expect NAME ts2 ;;
  '(_, ts4) <- expect LPAREN ts3 ;;
  '(p5, ts5) <- parse_params fuel ts4 ;;
  '(_, ts6) <- expect RPAREN ts5 ;;
  '(p7, ts7) <- parse_return fuel ts6 ;;
  '(p8, ts8) <- parse_raises fuel ts7 ;;
  '(_, ts9) <- parse_signature ts8 ;;
  '(p10, ts10) <- parse_maybe_body fuel ts9 ;;
  inr (p_funcdef p2 (text_of p3) p5 p7 p8 p10, ts10).

Definition parse_constantdef (fuel : nat) (ts : list LexToken) : Parsed Constant :=
  '(n, ts1) <- expect NAME ts ;;
  '(_, ts2) <- expect COLON ts1 ;;
  '(t, ts3) <- parse_type fuel ts2 ;;
  inr (p_constantdef (text_of n) t, ts3).

(** [funcdefs : funcdefs funcdef | funcdefs constantdef | (empty)] *)
Fixpoint parse_funcdefs (fuel : nat) (acc : list Def) (ts : list LexToken)
  : Parsed (list Def) :=
  match fuel with
  | O => inl ParseFuel
  | S fuel' =>
      if next_is DEF ts then
        '(f, ts1) <- parse_funcdef fuel' ts ;;
        parse_funcdefs fuel' (acc ++ [FuncDef f]) ts1
      else if next_is NAME ts then
        '(c, ts1) <- parse_constantdef fuel' ts ;;
        parse_funcdefs fuel' (acc ++ [ConstantDef c]) ts1
      else inr (acc, ts)
  end.

Definition parse_class_funcs (fuel : nat) (ts : list LexToken)
  : Parsed (list Def) :=
  if next_is PASS ts then inr ([], tl ts) else parse_funcdefs fuel [] ts.

Section Module_.

Variable data : list ascii.
Variable filename : string.

Definition parse_classdef (fuel : nat) (ts : list LexToken) : Parsed Class :=
  '(p1, ts1) <- expect CLASS ts ;;
  '(p2, ts2) <- parse_template fuel ts1 ;;
  '(p3, ts3) <- expect NAME ts2 ;;
  '(p4, ts4) <- parse_parents fuel ts3 ;;
  '(_, ts5) <- expect COLON ts4 ;;
  '(_, ts6) <- expect INDENT ts5 ;;
  '(p7, ts7) <- parse_class_funcs fuel ts6 ;;
  '(_, ts8) <- expect DEDENT ts7 ;;
  match p_classdef data filename p1 p2 (text_of p3) p4 p7 with
  | inl e => inl (ActionRaised e)
  | inr c => inr (c, ts8)
  end.

(** [alldefs : alldefs constantdef | alldefs classdef | alldefs funcdef
    | (empty)], up to the end of the input. *)
Fixpoint parse_alldefs (fuel : nat) (acc : list Def) (ts : list LexToken)
  : Parsed (list Def) :=
  match fuel with
  | O => inl ParseFuel
  | S fuel' =>
      match ts with
      | [] => inr (acc, [])
      | t :: _ =>
          match tok_type t with
          | NAME =>
              '(c, ts1) <- parse_constantdef fuel' ts ;;
              parse_alldefs fuel' (acc ++ [ConstantDef c]) ts1
          | CLASS =>
              '(c, ts1) <- parse_classdef fuel' ts ;;
              parse_alldefs fuel' (acc ++ [ClassDef c]) ts1
          | DEF =>
              '(f, ts1) <- parse_funcdef fuel' ts ;;
              parse_alldefs fuel' (acc ++ [FuncDef f]) ts1
          | _ => inl (ErrorToken t)
          end
      end
  end.

End Module_.

(** ** TypeDeclParser.Parse *)

(** How [Parse] ends: it returns the unit, or an exception escapes; the
    third case is the embedding's own, a run cut short by its fuel. *)
Inductive Outcome : Type :=
| Returns (unit_ : TypeDeclUnit)
| Fails (e : Exception)
| OutOfFuel.

Section Parse.

Variable py_eval : string -> option string.

(** [filename if filename else '<string>'] *)
Definition filename_or_placeholder (filename : option string) : string :=
  match filename with
  | None => "<string>"
  | Some f => if String.eqb f "" then "<string>" else f
  end.

(** [Parse(data, filename)].  ply asks the lexer for one token at a time,
    so an exception of the lexer escapes only when the parser has accepted
    every token before it. *)
Definition Parse_fuel (fuel : nat) (text : string) (filename : option string)
  : Outcome :=
  let data := list_ascii_of_string text in
  let fname := filename_or_placeholder filename in
  let (tokens, lex_end) := tokens_of py_eval data fname fuel set_parse_info data in
  let at_end (k : Outcome) : Outcome :=
    match lex_end with
    | AtEof _ => k
    | Raised e => Fails e
    | LexFuel => OutOfFuel
    end in
  match parse_alldefs data fname fuel [] tokens with
  | inl (ErrorToken t) =>
      (* p_error(t) *)
      Fails (make_syntax_error data fname "Parse error"
               (AtToken (tok_lineno t) (tok_lexpos t)))
  | inl (ActionRaised e) => Fails e
  | inl ParseFuel => OutOfFuel
  | inl ErrorEnd =>
      (* p_error(None) *)
      at_end (Fails (make_syntax_error data fname "Parse error" AtNone))
  | inr (alldefs, _) =>
      at_end (match p_unit data fname alldefs with
              | inl e => Fails e
              | inr u => Returns u
              end)
  end.

(** [Parse] with a fuel that grows with the text. *)
Definition Parse (text : string) (filename : option string) : Outcome :=
  Parse_fuel (4 * String.length text + 8) text filename.

End Parse.

(** The nonterminal [type] run on a text of its own: the text's tokens must
    make up exactly one type expression. *)
Definition parse_type_text (py_eval : string -> option string) (text : string)
  : option Type_ :=
  let data := list_ascii_of_string text in
  let fuel := 4 * length data + 8 in
  match tokens_of py_eval data "<string>" fuel set_parse_info data with
  | (tokens, AtEof _) =>
      match parse_type fuel tokens with
      | inr (t, []) => Some t
      | _ => None
      end
  | _ => None
  end.

(** An instance of [py_eval] for texts whose quoted literals hold no
    backslash: such a literal denotes the characters between its quotes.
    Other literals are not decoded. *)
Definition eval_no_escapes (literal : string) : option string :=
  match list_ascii_of_string literal with
  | q :: body =>
      if existsb (fun c => Ascii.eqb c "\" || Ascii.eqb c LF) body then None
      else Some (str (removelast body))
  | [] => None
  end.

(** ** Node comparison *)

(** [==] on the values a [Scalar] holds.  A [float] is kept as its text, and
    only the same text is known to denote the same [float]; statements about
    comparison are made for nodes without [float] scalars. *)
Definition scalar_eqb (x y : ScalarValue) : bool :=
  match x, y with
  | IntValue a, IntValue b => Z.eqb a b
  | FloatValue a, FloatValue b => String.eqb a b
  | StrValue a, StrValue b => String.eqb a b
  | _, _ => false
  end.

(** Modelled from the spec: [__eq__] of the node base class of
    [parse/node.py], which is not among the sources.  The spec says that
    nodes are compared structurally: two nodes of one kind are equal when
    their fields are pairwise equal (and nodes of different kinds are not).
    [UnionType.__eq__] is in [pytd.py] and overrides it:
    [set(self.type_list) == set(other.type_list)], here as inclusion of each
    tuple's members in the other. *)
Fixpoint node_eq (a b : Type_) {struct a} : bool :=
  let tuple_eq :=
    fix tuple_eq (l1 l2 : list Type_) {struct l1} : bool :=
      match l1, l2 with
      | [], [] => true
      | x :: r1, y :: r2 => node_eq x y && tuple_eq r1 r2
      | _, _ => false
      end in
  match a, b with
  | NamedType x, NamedType y => String.eqb x y
  | ClassType x, ClassType y => String.eqb x y
  | UnknownType, UnknownType => true
  | NothingType, NothingType => true
  | Scalar x, Scalar y => scalar_eqb x y
  | UnionType l1, UnionType l2 =>
      forallb (fun x => existsb (fun y => node_eq x y) l2) l1
      && forallb (fun y => existsb (fun x => node_eq x y) l1) l2
  | IntersectionType l1, IntersectionType l2 => tuple_eq l1 l2
  | HomogeneousContainerType b1 e1, HomogeneousContainerType b2 e2 =>
      node_eq b1 b2 && node_eq e1 e2
  | GenericType b1 p1, GenericType b2 p2 => node_eq b1 b2 && tuple_eq p1 p2
  | _, _ => false
  end.

(** Nodes with no [UnionType] and no [float] scalar inside. *)
Fixpoint plain (t : Type_) : bool :=
  match t with
  | NamedType _ | ClassType _ | UnknownType | NothingType => true
  | Scalar (FloatValue _) => false
  | Scalar _ => true
  | UnionType _ => false
  | IntersectionType l => forallb plain l
  | HomogeneousContainerType b e => plain b && plain e
  | GenericType b ps => plain b && forallb plain ps
  end.

(** Modelled from the spec: the comparison of two tuples of nodes, member
    by member and in order, as the base [__eq__] compares a field that
    holds a tuple. *)
Fixpoint tuple_eqb {A : Type} (eqb : A -> A -> bool) (l1 l2 : list A) : bool :=
  match l1, l2 with
  | [], [] => true
  | x :: r1, y :: r2 => eqb x y && tuple_eqb eqb r1 r2
  | _, _ => false
  end.

(** Modelled from the spec: the base [__eq__] on the node kinds that are
    not types, field by field in the order of their declaration in
    [pytd.py]; [Parameter] and [MutableParameter] are two kinds. *)
Definition param_eq (p q : Param) : bool :=
  match p, q with
  | Parameter_ n t, Parameter_ m u => String.eqb n m && node_eq t u
  | MutableParameter n t v, MutableParameter m u w =>
      String.eqb n m && node_eq t u && node_eq v w
  | _, _ => false
  end.

Definition template_item_eq (a b : TemplateItem) : bool :=
  String.eqb (ti_name a) (ti_name b)
  && node_eq (ti_within_type a) (ti_within_type b)
  && Nat.eqb (ti_level a) (ti_level b).

Definition signature_eq (a b : Signature) : bool :=
  tuple_eqb param_eq (params a) (params b)
  && node_eq (return_type a) (return_type b)
  && tuple_eqb node_eq (exceptions a) (exceptions b)
  && tuple_eqb template_item_eq (template a) (template b)
  && Bool.eqb (has_optional a) (has_optional b).

Definition function_eq (a b : Function) : bool :=
  String.eqb (f_name a) (f_name b)
  && tuple_eqb signature_eq (signatures a) (signatures b).

Definition constant_eq (a b : Constant) : bool :=
  String.eqb (c_name a) (c_name b) && node_eq (c_type a) (c_type b).

Definition class_eq (a b : Class) : bool :=
  String.eqb (cls_name a) (cls_name b)
  && tuple_eqb node_eq (cls_parents a) (cls_parents b)
  && tuple_eqb function_eq (cls_methods a) (cls_methods b)
  && tuple_eqb constant_eq (cls_constants a) (cls_constants b)
  && tuple_eqb template_item_eq (cls_template a) (cls_template b).

Definition unit_eq (a b : TypeDeclUnit) : bool :=
  tuple_eqb constant_eq (u_constants a) (u_constants b)
  && tuple_eqb class_eq (u_classes a) (u_classes b)
  && tuple_eqb function_eq (u_functions a) (u_functions b).

(** A node of the AST, of any kind. *)
Inductive Node : Type :=
| TypeNode (t : Type_)
| ParameterNode (p : Param)
| TemplateItemNode (i : TemplateItem)
| SignatureNode (s : Signature)
| FunctionNode (f : Function)
| ConstantNode (c : Constant)
| ClassNode (c : Class)
| TypeDeclUnitNode (u : TypeDeclUnit).

(** Modelled from the spec: [==] on two nodes.  Nodes of different kinds
    are not equal. *)
Definition ast_eq (a b : Node) : bool :=
  match a, b with
  | TypeNode x, TypeNode y => node_eq x y
  | ParameterNode x, ParameterNode y => param_eq x y
  | TemplateItemNode x, TemplateItemNode y => template_item_eq x y
  | SignatureNode x, SignatureNode y => signature_eq x y
  | FunctionNode x, FunctionNode y => function_eq x y
  | ConstantNode x, ConstantNode y => constant_eq x y
  | ClassNode x, ClassNode y => class_eq x y
  | TypeDeclUnitNode x, TypeDeclUnitNode y => unit_eq x y
  | _, _ => false
  end.

(** Nodes of the other kinds with no [UnionType] and no [float] scalar
    inside. *)
Definition param_plain (p : Param) : bool :=
  match p with
  | Parameter_ _ t => plain t
  | MutableParameter _ t v => plain t && plain v
  end.

Definition template_item_plain (i : TemplateItem) : bool :=
  plain (ti_within_type i).

Definition signature_plain (s : Signature) : bool :=
  forallb param_plain (params s) && plain (return_type s)
  && forallb plain (exceptions s) && forallb template_item_plain (template s).

Definition function_plain (f : Function) : bool :=
  forallb signature_plain (signatures f).

Definition constant_plain (c : Constant) : bool := plain (c_type c).

Definition class_plain (c : Class) : bool :=
  forallb plain (cls_parents c) && forallb function_plain (cls_methods c)
  && forallb constant_plain (cls_constants c)
  && forallb template_item_plain (cls_template c).

Definition unit_plain (u : TypeDeclUnit) : bool :=
  forallb constant_plain (u_constants u) && forallb class_plain (u_classes u)
  && forallb function_plain (u_functions u).

Definition ast_plain (a : Node) : bool :=
  match a with
  | TypeNode t => plain t
  | ParameterNode p => param_plain p
  | TemplateItemNode i => template_item_plain i
  | SignatureNode s => signature_plain s
  | FunctionNode f => function_plain f
  | ConstantNode c => constant_plain c
  | ClassNode c => class_plain c
  | TypeDeclUnitNode u => unit_plain u
  end.

(** [UnionType] and [IntersectionType] are the aggregates of the type
    grammar. *)
Definition is_aggregate (t : Type_) : bool :=
  match t with
  | UnionType _ | IntersectionType _ => true
  | _ => false
  end.

(** ** Vocabulary of the statements *)

(** The names of a list in the order of their first occurrence: a name
    stays where it first stands, and its later occurrences are dropped. *)
Fixpoint first_seen (names : list string) : list string :=
  match names with
  | [] => []
  | n :: r => n :: filter (fun m => negb (String.eqb m n)) (first_seen r)
  end.

(** The signatures recorded under [n], in the order of the list. *)
Definition signatures_under (n : string) (l : list NameAndSig) : list Signature :=
  map signature (filter (fun ns => String.eqb (name ns) n) l).

Definition keys (d : OrderedDict) : list string := map fst d.

(** The dict [d] after the pairs of [l] have been merged into it: the old
    keys keep their place and gain the signatures recorded under them, the
    new names follow in the order of their first occurrence. *)
Definition extended (d : OrderedDict) (l : list NameAndSig) : OrderedDict :=
  map (fun kv => (fst kv, snd kv ++ signatures_under (fst kv) l)) d
  ++ map (fun n => (n, signatures_under n l))
       (filter (fun n => negb (od_contains d n)) (first_seen (map name l))).

(** What a mutator list makes of one parameter: a plain parameter takes the
    new type of the first mutator that names it. *)
Definition mutated (ms : list Mutator) (p : Param) : Param :=
  match p with
  | Parameter_ n t =>
      match find (fun m => String.eqb n (mutator_name m)) ms with
      | Some m => MutableParameter n t (mutator_new_type m)
      | None => p
      end
  | MutableParameter _ _ _ => p
  end.

(** [INDENT] opens a block and [DEDENT] closes one. *)
Definition indent_delta (ty : TokenType) : Z :=
  match ty with
  | INDENT => 1
  | DEDENT => -1
  | _ => 0
  end.

(** Blocks opened and not closed by a token list. *)
Fixpoint open_blocks (ts : list LexToken) : Z :=
  match ts with
  | [] => 0
  | t :: r => indent_delta (tok_type t) + open_blocks r
  end.

(** The exceptions that the actions of the grammar raise. *)
Definition action_failure (e : Exception) : Prop :=
  e = TypeError "unsupported operand type(s) for +: 'Mutator' and 'list'"
  \/ exists lexpos1 lineno1,
       e = SystemError "Duplicate identifier(s)" lexpos1 lineno1.

(** What a run of a parser on a token list leaves: on success, the tokens
    not yet read still satisfy [Q] and open as many blocks as [z]; the token
    handed to [p_error] satisfies [Q]; an exception of an action is one of
    [action_failure]. *)
Definition outcome_ok (Q : LexToken -> Prop) (z : Z) {A : Type} (r : Parsed A)
  : Prop :=
  match r with
  | inr (_, rest) => Forall Q rest /\ z = open_blocks rest
  | inl (ErrorToken t) => Q t
  | inl (ActionRaised e) => action_failure e
  | inl _ => True
  end.

(** A parser that reads whole blocks only: what it leaves opens as many
    blocks as what it was given. *)
Definition keeps (Q : LexToken -> Prop) {A : Type}
    (p : list LexToken -> Parsed A) : Prop :=
  forall ts, Forall Q ts -> outcome_ok Q (open_blocks ts) (p ts).

(** Blocks the lexer has opened and not yet closed by a token: the levels
    on the stack above the first, and the dedents still queued. *)
Definition depth (lx : PyLexer) : Z :=
  Z.of_nat (length (indent_stack lx)) - 1 + Z.of_nat (queued_dedents lx).

(** The stack is never empty, its first level is 0, and lines are counted
    from 1. *)
Definition lexer_ok (lx : PyLexer) : Prop :=
  last (indent_stack lx) 1 = 0 /\ 1 <= lineno lx.

Definition is_SyntaxError (e : Exception) : bool :=
  match e with
  | SyntaxError _ _ _ _ _ => true
  | _ => false
  end.

(** The messages of the lexer and of [p_error]. *)
Definition diagnostic_message (msg : string) : Prop :=
  msg = "Parse error" \/ msg = "Use spaces, not tabs" \/ msg = "invalid dedent"
  \/ exists c, msg = ("Illegal character '" ++ String c "'")%string.

(** The exceptions that escape from [Parse].  A [SyntaxError] carries the
    file name, a line number counted from 1, a column counted from 1 from
    the start of the line that holds the offending position, and the text
    of that line up to its end. *)
Definition failure_ok (data : list ascii) (fname : string) (e : Exception)
  : Prop :=
  match e with
  | SyntaxError msg fn lineno offset line =>
      diagnostic_message msg /\ fn = fname /\ 1 <= lineno /\ (1 <= offset)%Z /\
      exists lexpos start,
        start <= lexpos /\
        offset = (Z.of_nat lexpos - Z.of_nat start + 1)%Z /\
        (start = 0 \/ nth_error data (start - 1) = Some LF) /\
        (forall j, start <= j < lexpos -> nth_error data j <> Some LF) /\
        line = str (line_from data start) /\
        ~ In LF (line_from data start)
  | SystemError msg _ _ => msg = "Duplicate identifier(s)"
  | AttributeError _ | TypeError _ | EvalError _ => True
  | IndexError _ => False
  end.

(** An exception of the lexer is the diagnostic, unless [eval] raised it. *)
Definition lexer_failure (data : list ascii) (fname : string) (e : Exception)
  : Prop :=
  failure_ok data fname e /\
  (is_SyntaxError e = true \/ exists literal, e = EvalError literal).

(** What one step of the lexer does to the depth. *)
Definition step_ok (data : list ascii) (fname : string) (lx : PyLexer)
    (s : Step) : Prop :=
  match s with
  | Emit t lx' _ =>
      lexer_ok lx' /\ 1 <= tok_lineno t /\
      depth lx' = (depth lx + indent_delta (tok_type t))%Z
  | Discard lx' _ => lexer_ok lx' /\ depth lx' = depth lx
  | Raise e => lexer_failure data fname e
  | Eof => True
  end.

Definition count_type (ty : TokenType) (ts : list LexToken) : nat :=
  length (filter (fun t => TokenType_eqb (tok_type t) ty) ts).





(** ** Sample texts *)

Definition NL : string := String LF EmptyString.

Definition one_line_mutator : string := "def f(x: int): x := str".

Definition indented_mutator : string :=
  ("def f(x: int):" ++ NL ++ "  x := str" ++ NL)%string.

Definition two_mutators : string :=
  ("def f(x: int, y: int):" ++ NL ++ "  x := str" ++ NL ++ "  y := str" ++ NL)%string.

Definition class_method_and_constant : string :=
  ("class A:" ++ NL ++ "  x: int" ++ NL ++ "  def x()" ++ NL)%string.


Definition two_constants : string := ("x: int" ++ NL ++ "x: str")%string.

Definition two_classes : string :=
  ("class C:" ++ NL ++ "  pass" ++ NL ++ "class C:" ++ NL ++ "  pass" ++ NL)%string.

Definition two_functions : string :=
  ("def f(x: int)" ++ NL ++ "def g()" ++ NL ++ "def f(x: int)")%string.

Definition two_defs_of_f : string :=
  ("def f(x: int)" ++ NL ++ "def f(y) -> int")%string.

Definition nested_blocks : string :=
  ("class A:" ++ NL ++ "  def f(x: int):" ++ NL ++ "    x := str" ++ NL
   ++ "y: int" ++ NL)%string.

(** ** pytd.py: Lookup *)

(** What [Lookup] returns: a [Constant], a [Function] or a [Class]. *)
Inductive Item : Type :=
| ConstantItem (c : Constant)
| FunctionItem (f : Function)
| ClassItem (c : Class).

(** [x.name] *)
Definition item_name (x : Item) : string :=
  match x with
  | ConstantItem c => c_name c
  | FunctionItem f => f_name f
  | ClassItem c => cls_name c
  end.

(** The dict [_name2item], as its items; an assignment to a key the dict
    already has replaces the value and keeps the place. *)
Definition Dict : Type := list (string * Item).

(** [d[key] = value] *)
Fixpoint dict_setitem (d : Dict) (key : string) (value : Item) : Dict :=
  match d with
  | [] => [(key, value)]
  | (k, v) :: r =>
      if String.eqb k key then (k, value) :: r
      else (k, v) :: dict_setitem r key value
  end.

(** [d[key]]; [None] is the [KeyError]. *)
Definition dict_getitem (d : Dict) (key : string) : option Item :=
  match find (fun kv => String.eqb (fst kv) key) d with
  | Some kv => Some (snd kv)
  | None => None
  end.

(** [for x in items: self._name2item[x.name] = x], from the empty dict. *)
Definition name2item (items : list Item) : Dict :=
  fold_left (fun d x => dict_setitem d (item_name x) x) items [].

(** [TypeDeclUnit.Lookup]: the dict is built on the first call from
    [self.constants + self.functions + self.classes] and kept; the node is
    immutable, so every call reads the same dict. *)
Definition TypeDeclUnit_Lookup (self : TypeDeclUnit) (name : string)
  : option Item :=
  dict_getitem
    (name2item (map ConstantItem (u_constants self)
                ++ map FunctionItem (u_functions self)
                ++ map ClassItem (u_classes self)))
    name.

(** [Class.Lookup], over [self.methods + self.constants]. *)
Definition Class_Lookup (self : Class) (name : string) : option Item :=
  dict_getitem
    (name2item (map FunctionItem (cls_methods self)
                ++ map ConstantItem (cls_constants self)))
    name.

(** The last item of a list that has the name [n]. *)
Definition last_named (n : string) (items : list Item) : option Item :=
  find (fun x => String.eqb (item_name x) n) (rev items).

(** The tokens of a chain [n1 op n2 op ... op nk] of names; the parser
    does not read the positions. *)
Definition name_token (n : string) : LexToken := mkLexToken NAME (Text n) 1 0.

Definition op_token (op : TokenType) : LexToken := mkLexToken op (Text "") 1 0.

Fixpoint chain_rest (op : TokenType) (names : list string) : list LexToken :=
  match names with
  | [] => []
  | n :: r => op_token op :: name_token n :: chain_rest op r
  end.

Definition is_NamedType (t : Type_) : bool :=
  match t with
  | NamedType _ => true
  | _ => false
  end.

(** The shape of the type expressions that the grammar builds: a union or
    an intersection has two members or more, the base of a parameterized
    type is a name, a [GenericType] has a parameter or more, and there is
    no [ClassType]. *)
Fixpoint well_formed (t : Type_) : bool :=
  match t with
  | NamedType _ | UnknownType | NothingType | Scalar _ => true
  | ClassType _ => false
  | UnionType l => (2 <=? length l) && forallb well_formed l
  | IntersectionType l => (2 <=? length l) && forallb well_formed l
  | HomogeneousContainerType b e => is_NamedType b && well_formed e
  | GenericType b ps =>
      is_NamedType b && (1 <=? length ps) && forallb well_formed ps
  end.

(** [LBRACKET] and [LPAREN] open a bracket, [RBRACKET] and [RPAREN] close
    one. *)
Definition bracket_delta (ty : TokenType) : Z :=
  match ty with
  | LBRACKET | LPAREN => 1
  | RBRACKET | RPAREN => -1
  | _ => 0
  end.

(** Brackets opened and not closed by a token list. *)
Fixpoint net_brackets (ts : list LexToken) : Z :=
  match ts with
  | [] => 0
  | t :: r => bracket_delta (tok_type t) + net_brackets r
  end.

(** A stack whose levels grow strictly from the first pushed to the last
    (the head of the list). *)
Fixpoint descending (stack : list nat) : Prop :=
  match stack with
  | a :: r =>
      match r with
      | b :: _ => b < a
      | [] => True
      end /\ descending r
  | [] => True
  end.

(** A bound on the matches the lexer still makes: three for each character
    not yet read, and two more while no dedent is queued. *)
Definition steps_left (lx : PyLexer) (input : list ascii) : nat :=
  3 * length input + (if queued_dedents lx =? 0 then 2 else 0).

(** The lexer stands at offset [lexpos] of [data], with [input] still to
    read, and its stack grows strictly from level 0. *)
Definition lexer_at (data : list ascii) (lx : PyLexer) (input : list ascii)
  : Prop :=
  skipn (lexpos lx) data = input /\
  lexpos lx + length input = length data /\
  descending (indent_stack lx) /\
  last (indent_stack lx) 1 = 0 /\
  1 <= lineno lx.

(** The column of a [SyntaxError] lies in its line or just after it, and
    the diagnostic of a tab or of an illegal character points at that
    character. *)
Definition pointed (e : Exception) : Prop :=
  match e with
  | SyntaxError msg _ _ offset line =>
      (1 <= offset <= Z.of_nat (String.length line) + 1)%Z /\
      (msg = "Use spaces, not tabs" ->
       nth_error (list_ascii_of_string line) (Z.to_nat (offset - 1)) = Some TAB) /\
      (forall c, msg = ("Illegal character '" ++ String c "'")%string ->
                 nth_error (list_ascii_of_string line) (Z.to_nat (offset - 1))
                 = Some c)
  | _ => True
  end.

(** What one step of the lexer keeps: its place in the text, the shape of
    its stack, the count of the brackets, and a smaller bound on the
    matches to come. *)
Definition step_inv (data : list ascii) (lx : PyLexer) (input : list ascii)
    (s : Step) : Prop :=
  match s with
  | Emit t lx' rest =>
      lexer_at data lx' rest /\
      steps_left lx' rest < steps_left lx input /\
      open_brackets lx' = (open_brackets lx + bracket_delta (tok_type t))%Z /\
      tok_lexpos t < length data
  | Discard lx' rest =>
      lexer_at data lx' rest /\
      steps_left lx' rest < steps_left lx input /\
      open_brackets lx' = open_brackets lx
  | Raise e => pointed e
  | Eof => input = []
  end.

(** Tokens in the order of the text: offsets and line numbers never go
    back. *)
Fixpoint in_text_order (ts : list LexToken) : Prop :=
  match ts with
  | a :: r =>
      match r with
      | b :: _ => tok_lexpos a <= tok_lexpos b /\ tok_lineno a <= tok_lineno b
      | [] => True
      end /\ in_text_order r
  | [] => True
  end.

(** The methods that [p_classdef] stores are merged signatures. *)
Definition merged_methods (c : Class) : Prop :=
  exists body : list Def, cls_methods c = MergeSignatures (funcdefs_of body).

(** A class whose body defines [f] twice, and the class that [Parse] makes
    of it. *)
Definition class_with_overloads : string :=
  ("class A:" ++ NL ++ "  def f(x: int)" ++ NL ++ "  def f(y) -> int" ++ NL
   ++ "  z: str" ++ NL)%string.

Definition class_with_overloads_parsed : Class :=
  {| cls_name := "A"; cls_parents := [];
     cls_methods :=
       [ {| f_name := "f";
            signatures :=
              [ {| params := [Parameter_ "x" (NamedType "int")];
                   return_type := UnknownType; exceptions := [];
                   template := []; has_optional := false |};
                {| params := [Parameter_ "y" (NamedType "object")];
                   return_type := NamedType "int"; exceptions := [];
                   template := []; has_optional := false |} ] |} ];
     cls_constants := [ {| c_name := "z"; c_type := NamedType "str" |} ];
     cls_template := [] |}.

(** A member of a parameter list after the first: a name without a type,
    or the ellipsis. *)
Inductive ListedParam : Type :=
| PName (n : string)
| PDots.

(** The tokens of [, n] and of [, ...]. *)
Definition listed_tokens (i : ListedParam) : list LexToken :=
  match i with
  | PName n => [op_token COMMA; name_token n]
  | PDots => [op_token COMMA; op_token DOT; op_token DOT; op_token DOT]
  end.

Definition listed_names (items : list ListedParam) : list string :=
  flat_map (fun i => match i with PName n => [n] | PDots => [] end) items.

(** The last member of the list is the ellipsis. *)
Definition ends_with_dots (items : list ListedParam) : bool :=
  match last items (PName EmptyString) with
  | PDots => true
  | PName _ => false
  end.

(** What a run of a parser leaves of the brackets: on success, the tokens
    not yet read still satisfy [Q] and open as many brackets as [z]. *)
Definition outcome_closed (Q : LexToken -> Prop) (z : Z) {A : Type}
    (r : Parsed A) : Prop :=
  match r with
  | inr (_, rest) => Forall Q rest /\ z = net_brackets rest
  | inl (ErrorToken t) => Q t
  | inl (ActionRaised e) => action_failure e
  | inl _ => True
  end.

(** A parser that closes every bracket it opens. *)
Definition closes (Q : LexToken -> Prop) {A : Type}
    (p : list LexToken -> Parsed A) : Prop :=
  forall ts, Forall Q ts -> outcome_closed Q (net_brackets ts) (p ts).

(** A text whose second line holds a token that no rule expects. *)
Definition unexpected_paren : string := ("x: int" ++ NL ++ "y: )")%string.

(** * Properties *)

(** ** Type expressions *)

(** C4 (as stated, refuted): a [UnionType] combined with the single,
    non-aggregate type [?] is not flattened: the result is a union of two
    members, the first of which is the union itself. *)
Lemma C4_single_type_not_flattened :
  is_aggregate UnknownType = false /\
  p_type_or (UnionType [NamedType "a"; NamedType "b"]) UnknownType
    = UnionType [UnionType [NamedType "a"; NamedType "b"]; UnknownType] /\
  p_type_or (UnionType [NamedType "a"; NamedType "b"]) UnknownType
    <> UnionType [NamedType "a"; NamedType "b"; UnknownType] /\
  parse_type_text eval_no_escapes "a or b or ?"
    = Some (UnionType [UnionType [NamedType "a"; NamedType "b"]; UnknownType]).
Proof.
  repeat split; try reflexivity.
  simpl. intros H. discriminate H.
Qed.

(** C4 (amended): a [UnionType] (resp. [IntersectionType]) combined on
    either side with a single [NamedType] through [or] (resp. [and]) gives
    one flattened [UnionType] (resp. [IntersectionType]); combined on
    either side with a single type of any other kind ([?], [nothing], a
    scalar, a parameterized type, or another aggregate), it is not
    flattened but paired with it.  In particular the text [a or b or c]
    parses to one union of the three named types, and a chain that ends
    with [?], [nothing], a number or a parameterized type, or that starts
    with [?] before a parenthesized aggregate, parses to a pair. *)
Theorem C4_flattening_with_named_type :
  forall (py_eval : string -> option string) (l : list Type_) (n : string),
    p_type_or (UnionType l) (NamedType n) = UnionType (l ++ [NamedType n]) /\
    p_type_or (NamedType n) (UnionType l) = UnionType (NamedType n :: l) /\
    p_type_and (IntersectionType l) (NamedType n)
      = IntersectionType (l ++ [NamedType n]) /\
    p_type_and (NamedType n) (IntersectionType l)
      = IntersectionType (NamedType n :: l) /\
    parse_type_text py_eval "a or b or c"
      = Some (UnionType [NamedType "a"; NamedType "b"; NamedType "c"]) /\
    parse_type_text py_eval "a and b and c"
      = Some (IntersectionType [NamedType "a"; NamedType "b"; NamedType "c"]) /\
    (forall t : Type_,
        is_NamedType t = false ->
        p_type_or (UnionType l) t = UnionType [UnionType l; t] /\
        p_type_or t (UnionType l) = UnionType [t; UnionType l] /\
        p_type_and (IntersectionType l) t
          = IntersectionType [IntersectionType l; t] /\
        p_type_and t (IntersectionType l)
          = IntersectionType [t; IntersectionType l]) /\
    parse_type_text py_eval "a or b or ?"
      = Some (UnionType [UnionType [NamedType "a"; NamedType "b"]; UnknownType]) /\
    parse_type_text py_eval "a or b or nothing"
      = Some (UnionType [UnionType [NamedType "a"; NamedType "b"]; NothingType]) /\
    parse_type_text py_eval "a or b or 1"
      = Some (UnionType [UnionType [NamedType "a"; NamedType "b"];
                         Scalar (IntValue 1)]) /\
    parse_type_text py_eval "a or b or list<int>"
      = Some (UnionType [UnionType [NamedType "a"; NamedType "b"];
                         HomogeneousContainerType (NamedType "list")
                           (NamedType "int")]) /\
    parse_type_text py_eval "? or (a or b)"
      = Some (UnionType [UnknownType; UnionType [NamedType "a"; NamedType "b"]]) /\
    parse_type_text py_eval "a and b and ?"
      = Some (IntersectionType [IntersectionType [NamedType "a"; NamedType "b"];
                                UnknownType]) /\
    parse_type_text py_eval "a and b and nothing"
      = Some (IntersectionType [IntersectionType [NamedType "a"; NamedType "b"];
                                NothingType]) /\
    parse_type_text py_eval "a and b and 1"
      = Some (IntersectionType [IntersectionType [NamedType "a"; NamedType "b"];
                                Scalar (IntValue 1)]) /\
    parse_type_text py_eval "a and b and list<int>"
      = Some (IntersectionType [IntersectionType [NamedType "a"; NamedType "b"];
                                HomogeneousContainerType (NamedType "list")
                                  (NamedType "int")]) /\
    parse_type_text py_eval "? and (a and b)"
      = Some (IntersectionType [UnknownType;
                                IntersectionType [NamedType "a"; NamedType "b"]]).
Proof.
  intros py_eval l n.
  repeat match goal with
         | |- (forall t : Type_, _) /\ _ => split; [|repeat split; reflexivity]
         | |- _ /\ _ => split; [reflexivity|]
         end.
  intros t Ht.
  destruct t; try discriminate Ht; repeat split; reflexivity.
Qed.

Lemma C4_flattening_with_named_type_witness :
  p_type_or (UnionType [NamedType "a"; NamedType "b"]) (Scalar (StrValue "s"))
  = UnionType [UnionType [NamedType "a"; NamedType "b"]; Scalar (StrValue "s")] /\
  p_type_and (GenericType (NamedType "d") [NamedType "k"; NamedType "v"])
    (IntersectionType [NamedType "a"; NamedType "b"])
  = IntersectionType [GenericType (NamedType "d") [NamedType "k"; NamedType "v"];
                      IntersectionType [NamedType "a"; NamedType "b"]].
Proof.
  destruct (C4_flattening_with_named_type eval_no_escapes
              [NamedType "a"; NamedType "b"] "n")
    as (_ & _ & _ & _ & _ & _ & H & _).
  split.
  - exact (proj1 (H (Scalar (StrValue "s")) eq_refl)).
  - exact (proj2 (proj2 (proj2
             (H (GenericType (NamedType "d") [NamedType "k"; NamedType "v"])
                eq_refl)))).
Defined.

(** C8: in [NAME < parameters >], one parameter and no trailing comma gives
    a [HomogeneousContainerType]; any other number of parameters, or a
    trailing comma, gives a [GenericType]. *)
Theorem C8_parameterized_types :
  forall (py_eval : string -> option string) (n : string),
    (forall t, p_type_homogeneous n [t]
               = HomogeneousContainerType (NamedType n) t) /\
    (forall ps, length ps <> 1 ->
                p_type_homogeneous n ps = GenericType (NamedType n) ps) /\
    (forall ps, p_type_generic_1 n ps = GenericType (NamedType n) ps) /\
    parse_type_text py_eval "list<int>"
      = Some (HomogeneousContainerType (NamedType "list") (NamedType "int")) /\
    parse_type_text py_eval "dict<str, int>"
      = Some (GenericType (NamedType "dict") [NamedType "str"; NamedType "int"]) /\
    parse_type_text py_eval "list<int,>"
      = Some (GenericType (NamedType "list") [NamedType "int"]).
Proof.
  intros py_eval n. repeat split; try reflexivity.
  intros [|t [|u ps]] H; try reflexivity. simpl in H. congruence.
Qed.

Lemma C8_parameterized_types_witness :
  p_type_homogeneous "dict" [NamedType "str"; NamedType "int"]
  = GenericType (NamedType "dict") [NamedType "str"; NamedType "int"].
Proof.
  apply (proj1 (proj2 (C8_parameterized_types eval_no_escapes "dict"))).
  simpl. discriminate.
Defined.

(** ** The mutator rewriter *)

Lemma Visit_Param_other (m : Mutator) (p : Param) :
  param_name p <> mutator_name m -> Visit_Param m p = p.
Proof.
  destruct p as [n t|n t nt]; simpl; [|reflexivity].
  intros H. unfold VisitParameter.
  destruct (String.eqb_spec n (mutator_name m)); [contradiction|reflexivity].
Qed.

Lemma map_id_on {A : Type} (f : A -> A) (l : list A) :
  (forall x, In x l -> f x = x) -> map f l = l.
Proof.
  induction l as [|a l IH]; simpl; intros H; [reflexivity|].
  rewrite H by (left; reflexivity). rewrite IH; [reflexivity|].
  intros x Hx. apply H. right. exact Hx.
Qed.

(** C6: applying a mutator to a signature leaves every field but [params]
    as it is, keeps the number and order of the parameters, changes no
    parameter of another name, turns a plain parameter of its name into a
    [MutableParameter] with the same name and type and the mutator's new
    type, and returns the signature unchanged when no parameter has the
    mutator's name. *)
Theorem C6_mutator_frame :
  forall (sig : Signature) (m : Mutator),
    return_type (Visit sig m) = return_type sig /\
    exceptions (Visit sig m) = exceptions sig /\
    template (Visit sig m) = template sig /\
    has_optional (Visit sig m) = has_optional sig /\
    length (params (Visit sig m)) = length (params sig) /\
    (forall i p, nth_error (params sig) i = Some p ->
                 param_name p <> mutator_name m ->
                 nth_error (params (Visit sig m)) i = Some p) /\
    (forall i t, nth_error (params sig) i = Some (Parameter_ (mutator_name m) t) ->
                 nth_error (params (Visit sig m)) i
                 = Some (MutableParameter (mutator_name m) t (mutator_new_type m))) /\
    ((forall p, In p (params sig) -> param_name p <> mutator_name m) ->
     Visit sig m = sig).
Proof.
  intros sig m. unfold Visit; simpl.
  repeat split.
  - apply length_map.
  - intros i p Hi Hn. rewrite nth_error_map, Hi. simpl.
    rewrite Visit_Param_other by exact Hn. reflexivity.
  - intros i t Hi. rewrite nth_error_map, Hi. simpl.
    unfold VisitParameter. rewrite String.eqb_refl. reflexivity.
  - intros H. rewrite map_id_on.
    + destruct sig; reflexivity.
    + intros p Hp. apply Visit_Param_other. apply H. exact Hp.
Qed.

Lemma C6_mutator_frame_witness :
  Visit (mkSignature [Parameter_ "x" (NamedType "int")] UnknownType [] [] false)
        (mkMutator "y" (NamedType "str"))
  = mkSignature [Parameter_ "x" (NamedType "int")] UnknownType [] [] false.
Proof.
  apply (C6_mutator_frame
           (mkSignature [Parameter_ "x" (NamedType "int")] UnknownType [] [] false)
           (mkMutator "y" (NamedType "str"))).
  simpl. intros p [H|[]]. subst p. simpl. discriminate.
Defined.

Lemma fold_Visit_params (ms : list Mutator) :
  forall sig,
    params (fold_left Visit ms sig) = map (mutated ms) (params sig) /\
    return_type (fold_left Visit ms sig) = return_type sig /\
    exceptions (fold_left Visit ms sig) = exceptions sig /\
    template (fold_left Visit ms sig) = template sig /\
    has_optional (fold_left Visit ms sig) = has_optional sig.
Proof.
  induction ms as [|m ms IH]; intros sig; simpl.
  - repeat split. symmetry. apply map_id_on.
    intros [n t|n t nt] _; reflexivity.
  - destruct (IH (Visit sig m)) as (Hp & Hr & He & Ht & Ho).
    rewrite Hp, Hr, He, Ht, Ho. simpl. repeat split.
    rewrite map_map. apply map_ext.
    intros [n t|n t nt]; simpl; [|reflexivity].
    unfold VisitParameter.
    destruct (String.eqb n (mutator_name m)); reflexivity.
Qed.

(** C1 (as stated, refuted): the text [def f(x: int): x := str], on one
    line, is not parsed to a function: the grammar wants an [INDENT] after
    the colon, and [p_error] is called on the name [x] at column 16. *)
Lemma C1_one_line_body_is_rejected :
  Parse eval_no_escapes one_line_mutator None
  = Fails (SyntaxError "Parse error" "<string>" 1 16 "def f(x: int): x := str").
Proof. vm_compute. reflexivity. Qed.

(** C1 (amended): [p_funcdef] applies the mutators of the body it is given
    in their order: each plain parameter named by a mutator becomes a
    [MutableParameter] with its own type and the new type of the first
    mutator that names it, and nothing else of the signature changes; the
    text [def f(x: int):] followed by the indented line [x := str] parses
    to the function [f] with the one parameter
    [MutableParameter x (Named int) (Named str)]. *)
Theorem C1_mutators_applied_in_order :
  forall (py_eval : string -> option string),
    (forall p2 p3 p5 p7 p8 p10,
        p_funcdef p2 p3 p5 p7 p8 p10
        = {| name := p3;
             signature :=
               {| params := map (mutated p10) (required p5);
                  return_type := p7; exceptions := p8; template := p2;
                  has_optional := params_has_optional p5 |} |}) /\
    (forall p2 p3 p5 p7 p8 m rest,
        p_funcdef p2 p3 p5 p7 p8 (m :: rest)
        = p_funcdef p2 p3
            (mkParams (map (Visit_Param m) (required p5)) (params_has_optional p5))
            p7 p8 rest) /\
    Parse py_eval indented_mutator None
    = Returns
        {| u_constants := []; u_classes := [];
           u_functions :=
             [ {| f_name := "f";
                  signatures :=
                    [ {| params :=
                           [MutableParameter "x" (NamedType "int") (NamedType "str")];
                         return_type := UnknownType; exceptions := [];
                         template := []; has_optional := false |} ] |} ] |}.
Proof.
  intros py_eval. repeat split.
  - intros. unfold p_funcdef. f_equal.
    match goal with |- ?s = _ => destruct (fold_Visit_params p10
       {| params := required p5; return_type := p7; exceptions := p8;
          template := p2; has_optional := params_has_optional p5 |})
       as (Hp & Hr & He & Ht & Ho); destruct s as [a b c d e] eqn:E end.
    simpl in *. congruence.
Qed.

(** ** Duplicate identifiers *)

Lemma mem_In (x : string) (s : list string) : mem x s = true <-> In x s.
Proof.
  unfold mem. rewrite existsb_exists. split.
  - intros (y & Hy & E). apply String.eqb_eq in E. subst y. exact Hy.
  - intros H. exists x. split; [exact H|apply String.eqb_refl].
Qed.

Lemma subset_incl (a b : list string) : subset a b = true <-> incl a b.
Proof.
  unfold subset, incl. rewrite forallb_forall. split.
  - intros H x Hx. apply mem_In. apply H. exact Hx.
  - intros H x Hx. apply mem_In. apply H. exact Hx.
Qed.

Lemma intersects_false (a b : list string) :
  intersects a b = false <-> (forall x, In x a -> ~ In x b).
Proof.
  unfold intersects. split.
  - intros H x Ha Hb.
    assert (E : existsb (fun x => mem x b) a = true).
    { apply existsb_exists. exists x. split; [exact Ha|apply mem_In; exact Hb]. }
    congruence.
  - intros H. destruct (existsb (fun x => mem x b) a) eqn:E; [|reflexivity].
    apply existsb_exists in E. destruct E as (x & Ha & Hb).
    apply mem_In in Hb. exfalso. exact (H x Ha Hb).
Qed.

Lemma intersects_true (a b : list string) :
  intersects a b = true <-> (exists x, In x a /\ In x b).
Proof.
  unfold intersects. rewrite existsb_exists. split.
  - intros (x & Ha & Hb). exists x. split; [exact Ha|apply mem_In; exact Hb].
  - intros (x & Ha & Hb). exists x. split; [exact Ha|apply mem_In; exact Hb].
Qed.

(** In a class body there are only functions and constants, so the two
    sets [p_classdef] compares hold the same names. *)
Lemma class_body_names (p7 : list Def) :
  classes_of p7 = [] ->
  forall x, In x (map name (funcdefs_of p7) ++ map c_name (constants_of p7))
            <-> In x (map def_name p7).
Proof.
  induction p7 as [|d p7 IH]; simpl; intros Hc x; [tauto|].
  destruct d as [f|c|c]; simpl in *.
  - rewrite <- (IH Hc x). tauto.
  - rewrite <- (IH Hc x). rewrite !in_app_iff. simpl. tauto.
  - discriminate Hc.
Qed.

(** The check of [p_classdef] never fires on a class body. *)
Lemma p_classdef_never_raises (data : list ascii) (filename : string)
    (class_token : LexToken) (p2 : list TemplateItem) (p3 : string)
    (p4 : list Type_) (p7 : list Def) :
  classes_of p7 = [] ->
  p_classdef data filename class_token p2 p3 p4 p7
  = inr {| cls_name := p3; cls_parents := p4;
           cls_methods := MergeSignatures (funcdefs_of p7);
           cls_constants := constants_of p7; cls_template := p2 |}.
Proof.
  intros Hc. unfold p_classdef, set_neq.
  replace (subset (map name (funcdefs_of p7) ++ map c_name (constants_of p7))
             (map def_name p7)) with true.
  2:{ symmetry. apply subset_incl. intros x Hx.
      apply (class_body_names p7 Hc x). exact Hx. }
  replace (subset (map def_name p7)
             (map name (funcdefs_of p7) ++ map c_name (constants_of p7))) with true.
  2:{ symmetry. apply subset_incl. intros x Hx.
      apply (class_body_names p7 Hc x). exact Hx. }
  reflexivity.
Qed.

(** C2 (the code departs from it): a class whose body declares the constant
    [x] and the method [x] is parsed without any error, and the class holds
    both. *)
Theorem C2_class_duplicate_is_accepted :
  forall (py_eval : string -> option string),
    Parse py_eval class_method_and_constant None
    = Returns
        {| u_constants := [];
           u_classes :=
             [ {| cls_name := "A"; cls_parents := [];
                  cls_methods :=
                    [ {| f_name := "x";
                         signatures :=
                           [ {| params := []; return_type := UnknownType;
                                exceptions := []; template := [];
                                has_optional := false |} ] |} ];
                  cls_constants := [ {| c_name := "x"; c_type := NamedType "int" |} ];
                  cls_template := [] |} ];
           u_functions := [] |}.
Proof. intros py_eval. vm_compute. reflexivity. Qed.

(** C10: [p_unit] raises exactly when a name stands in two different kinds
    among functions, constants and classes; two constants named [x], two
    classes named [C] and two functions named [f] are all accepted. *)
Theorem C10_same_kind_duplicates_accepted :
  forall (py_eval : string -> option string),
    (forall data filename alldefs,
        (forall x, In x (map name (funcdefs_of alldefs)) ->
                   ~ In x (map c_name (constants_of alldefs))) ->
        (forall x, In x (map c_name (constants_of alldefs)) ->
                   ~ In x (map cls_name (classes_of alldefs))) ->
        (forall x, In x (map cls_name (classes_of alldefs)) ->
                   ~ In x (map name (funcdefs_of alldefs))) ->
        p_unit data filename alldefs
        = inr {| u_constants := constants_of alldefs;
                 u_functions := MergeSignatures (funcdefs_of alldefs);
                 u_classes := classes_of alldefs |}) /\
    (forall data filename alldefs x,
        (In x (map name (funcdefs_of alldefs)) /\
         In x (map c_name (constants_of alldefs))) \/
        (In x (map c_name (constants_of alldefs)) /\
         In x (map cls_name (classes_of alldefs))) \/
        (In x (map cls_name (classes_of alldefs)) /\
         In x (map name (funcdefs_of alldefs))) ->
        p_unit data filename alldefs
        = inl (SystemError "Duplicate identifier(s)" 0 0)) /\
    Parse py_eval two_constants None
    = Returns
        {| u_constants := [ {| c_name := "x"; c_type := NamedType "int" |};
                            {| c_name := "x"; c_type := NamedType "str" |} ];
           u_classes := []; u_functions := [] |} /\
    Parse py_eval two_classes None
    = Returns
        {| u_constants := [];
           u_classes := [ mkClass "C" [] [] [] []; mkClass "C" [] [] [] [] ];
           u_functions := [] |} /\
    (exists fs, Parse py_eval two_functions None
                = Returns {| u_constants := []; u_classes := [];
                             u_functions := fs |}).
Proof.
  intros py_eval. split; [|split; [|split; [|split]]].
  - intros data filename alldefs H1 H2 H3. unfold p_unit.
    apply intersects_false in H1, H2, H3. rewrite H1, H2, H3. reflexivity.
  - intros data filename alldefs x H. unfold p_unit.
    replace (intersects (map name (funcdefs_of alldefs))
               (map c_name (constants_of alldefs))
             || intersects (map c_name (constants_of alldefs))
                  (map cls_name (classes_of alldefs))
             || intersects (map cls_name (classes_of alldefs))
                  (map name (funcdefs_of alldefs))) with true; [reflexivity|].
    symmetry. rewrite !orb_true_iff, !intersects_true.
    destruct H as [H|[H|H]]; [left; left|left; right|right]; exists x; exact H.
  - vm_compute. reflexivity.
  - vm_compute. reflexivity.
  - eexists. vm_compute. reflexivity.
Qed.

Lemma C10_same_kind_duplicates_accepted_witness :
  p_unit [] "<string>"
         [ConstantDef (mkConstant "x" (NamedType "int"));
          ConstantDef (mkConstant "x" (NamedType "str"))]
  = inr {| u_constants := [mkConstant "x" (NamedType "int");
                           mkConstant "x" (NamedType "str")];
           u_functions := []; u_classes := [] |}.
Proof.
  apply (proj1 (C10_same_kind_duplicates_accepted eval_no_escapes) [] "<string>"
           [ConstantDef (mkConstant "x" (NamedType "int"));
            ConstantDef (mkConstant "x" (NamedType "str"))]).
  - simpl. intros x [].
  - simpl. intros x _ [].
  - simpl. intros x [].
Defined.

(** ** The overload merger *)

Lemma od_contains_In (d : OrderedDict) (k : string) :
  od_contains d k = true <-> In k (keys d).
Proof.
  unfold od_contains, keys. rewrite existsb_exists, in_map_iff. split.
  - intros (kv & H & E). apply String.eqb_eq in E. exists kv. split; assumption.
  - intros (kv & E & H). exists kv. split; [exact H|]. subst k. apply String.eqb_refl.
Qed.

Lemma od_append_keys (d : OrderedDict) (k : string) (s : Signature) :
  keys (od_append d k s) = keys d.
Proof.
  induction d as [|[k' v] d IH]; simpl; [reflexivity|].
  destruct (String.eqb k' k); simpl; [reflexivity|]. f_equal. exact IH.
Qed.

Lemma od_append_absent (d : OrderedDict) (k : string) (s : Signature) :
  ~ In k (keys d) -> od_append d k s = d.
Proof.
  induction d as [|[k' v] d IH]; simpl; intros H; [reflexivity|].
  destruct (String.eqb_spec k' k) as [E|E].
  - exfalso. apply H. left. exact E.
  - f_equal. apply IH. intros Hk. apply H. right. exact Hk.
Qed.

Lemma od_append_present (d : OrderedDict) (k : string) (s : Signature) :
  NoDup (keys d) ->
  od_append d k s
  = map (fun kv => (fst kv,
                    snd kv ++ (if String.eqb k (fst kv) then [s] else []))) d.
Proof.
  induction d as [|[k' v] d IH]; simpl; intros H; [reflexivity|].
  inversion H as [|? ? Hn Hd]; subst.
  rewrite (String.eqb_sym k k').
  destruct (String.eqb_spec k' k) as [E|E].
  - subst k'. f_equal.
    rewrite <- (od_append_absent d k s Hn) at 1. apply IH. exact Hd.
  - rewrite app_nil_r. f_equal. apply IH. exact Hd.
Qed.

Lemma signatures_under_cons (n : string) (x : NameAndSig) (l : list NameAndSig) :
  signatures_under n (x :: l)
  = (if String.eqb (name x) n then [signature x] else []) ++ signatures_under n l.
Proof.
  unfold signatures_under. simpl. destruct (String.eqb (name x) n); reflexivity.
Qed.

Lemma filter_filter {A : Type} (f g : A -> bool) (l : list A) :
  filter f (filter g l) = filter (fun x => g x && f x) l.
Proof.
  induction l as [|a l IH]; simpl; [reflexivity|].
  destruct (g a); simpl; [destruct (f a)|]; rewrite IH; reflexivity.
Qed.

Lemma merge_step_extended (d : OrderedDict) (x : NameAndSig) (l : list NameAndSig) :
  NoDup (keys d) ->
  extended (merge_step d x) l = extended d (x :: l).
Proof.
  intros Hd. unfold merge_step, extended.
  destruct (od_contains d (name x)) eqn:Hc.
  - (* the name is already a key *)
    rewrite (od_append_present d (name x) (signature x) Hd).
    rewrite map_map. simpl map at 3. simpl first_seen.
    f_equal.
    + apply map_ext. intros [k v]. simpl.
      rewrite signatures_under_cons, <- app_assoc. reflexivity.
    + simpl filter at 2. rewrite Hc. simpl.
      rewrite filter_filter.
      assert (E : forall n,
                 negb (od_contains
                         (map (fun kv : string * list Signature =>
                                 (fst kv, snd kv ++
                                    (if String.eqb (name x) (fst kv)
                                     then [signature x] else []))) d) n)
                 = negb (String.eqb n (name x)) && negb (od_contains d n)).
      { intros n.
        assert (K : od_contains
                      (map (fun kv : string * list Signature =>
                              (fst kv, snd kv ++
                                 (if String.eqb (name x) (fst kv)
                                  then [signature x] else []))) d) n
                    = od_contains d n).
        { unfold od_contains. clear. induction d as [|[k v] d IH]; simpl;
          [reflexivity|]. rewrite IH. reflexivity. }
        rewrite K. destruct (String.eqb_spec n (name x)) as [E|E]; simpl.
        - subst n. rewrite Hc. reflexivity.
        - reflexivity. }
      rewrite (filter_ext _ _ E).
      apply map_ext_in. intros n Hn. apply filter_In in Hn.
      destruct Hn as [_ Hn]. apply andb_prop in Hn. destruct Hn as [Hn _].
      rewrite signatures_under_cons.
      rewrite (String.eqb_sym (name x) n).
      destruct (String.eqb n (name x)); [discriminate Hn|reflexivity].
  - (* a new key, put last *)
    assert (Ha : ~ In (name x) (keys d)).
    { intros H. apply od_contains_In in H. congruence. }
    assert (Es : od_setitem d (name x) [] = d ++ [(name x, [])]).
    { clear Hc Hd. induction d as [|[k v] d IH]; simpl; [reflexivity|].
      destruct (String.eqb_spec k (name x)) as [E|E].
      - exfalso. apply Ha. left. exact E.
      - f_equal. apply IH. intros H. apply Ha. right. exact H. }
    rewrite Es.
    assert (Ea : od_append (d ++ [(name x, [])]) (name x) (signature x)
                 = d ++ [(name x, [signature x])]).
    { clear Hc Hd Es. induction d as [|[k v] d IH]; simpl.
      - rewrite String.eqb_refl. reflexivity.
      - destruct (String.eqb_spec k (name x)) as [E|E].
        + exfalso. apply Ha. left. exact E.
        + f_equal. apply IH. intros H. apply Ha. right. exact H. }
    rewrite Ea, map_app, <- app_assoc. simpl map at 2. simpl first_seen.
    f_equal.
    + apply map_ext_in. intros [k v] Hk. simpl.
      rewrite signatures_under_cons.
      destruct (String.eqb_spec (name x) k) as [E|E]; [|reflexivity].
      exfalso. apply Ha. subst k. apply in_map_iff. exists (name x, v).
      split; [reflexivity|exact Hk].
    + simpl filter at 2. rewrite Hc. simpl.
      rewrite signatures_under_cons, String.eqb_refl. simpl. f_equal.
      rewrite filter_filter.
      assert (E : forall n,
                 negb (od_contains (d ++ [(name x, [signature x])]) n)
                 = negb (String.eqb n (name x)) && negb (od_contains d n)).
      { intros n. unfold od_contains. rewrite existsb_app. simpl.
        rewrite orb_false_r, (String.eqb_sym (name x) n).
        destruct (String.eqb n (name x)), (existsb _ d); reflexivity. }
      rewrite (filter_ext _ _ E).
      apply map_ext_in. intros n Hn. apply filter_In in Hn.
      destruct Hn as [_ Hn]. apply andb_prop in Hn. destruct Hn as [Hn _].
      rewrite signatures_under_cons, (String.eqb_sym (name x) n).
      destruct (String.eqb n (name x)); [discriminate Hn|reflexivity].
Qed.

Lemma merge_step_keys (d : OrderedDict) (x : NameAndSig) :
  NoDup (keys d) -> NoDup (keys (merge_step d x)).
Proof.
  intros Hd. unfold merge_step. rewrite od_append_keys.
  destruct (od_contains d (name x)) eqn:Hc; [exact Hd|].
  assert (Ha : ~ In (name x) (keys d)).
  { intros H. apply od_contains_In in H. congruence. }
  clear Hc. induction d as [|[k v] d IH]; simpl.
  - constructor; [intros []|constructor].
  - inversion Hd as [|? ? Hn Hd']; subst.
    destruct (String.eqb_spec k (name x)) as [E|E].
    + exfalso. apply Ha. left. exact E.
    + simpl. constructor.
      * intros H. apply Hn.
        assert (K : forall d', In k (keys (od_setitem d' (name x) [])) ->
                               In k (keys d')).
        { clear - E. induction d' as [|[k' v'] d' IHd]; simpl.
          - intros [H|[]]. congruence.
          - destruct (String.eqb k' (name x)); simpl; tauto. }
        apply K. exact H.
      * apply IH; [exact Hd'|]. intros H. apply Ha. right. exact H.
Qed.

Lemma fold_merge_step (l : list NameAndSig) :
  forall d, NoDup (keys d) -> fold_left merge_step l d = extended d l.
Proof.
  induction l as [|x l IH]; intros d Hd; simpl.
  - unfold extended. simpl. rewrite app_nil_r.
    symmetry. apply map_id_on. intros [k v] _. simpl.
    rewrite app_nil_r. reflexivity.
  - rewrite IH by (apply merge_step_keys; exact Hd).
    apply merge_step_extended. exact Hd.
Qed.

Lemma MergeSignatures_closed_form (l : list NameAndSig) :
  MergeSignatures l
  = map (fun n => mkFunction n (signatures_under n l)) (first_seen (map name l)).
Proof.
  unfold MergeSignatures. rewrite fold_merge_step by constructor.
  unfold extended. simpl. rewrite map_map. simpl.
  f_equal. clear. induction (first_seen (map name l)) as [|n r IH]; simpl;
    [reflexivity|]. f_equal. exact IH.
Qed.

Lemma first_seen_In (l : list string) (n : string) :
  In n (first_seen l) <-> In n l.
Proof.
  induction l as [|m l IH]; simpl; [tauto|].
  rewrite filter_In, IH. destruct (String.eqb_spec n m) as [E|E]; simpl.
  - subst. tauto.
  - split; [tauto|]. intros [H|H]; [congruence|]. right. split; [exact H|reflexivity].
Qed.

Lemma first_seen_NoDup (l : list string) : NoDup (first_seen l).
Proof.
  induction l as [|m l IH]; simpl; constructor.
  - rewrite filter_In. intros [_ H]. rewrite String.eqb_refl in H. discriminate H.
  - apply NoDup_filter. exact IH.
Qed.

(** C7: [MergeSignatures] returns one [Function] for each distinct name, in
    the order in which the names are first seen; the signatures of a
    function are all those recorded under its name, in the order of the
    list, identical ones included; two [def f] blocks give one function [f]
    with the two signatures in the order of the text. *)
Theorem C7_overloads_grouped_by_name :
  forall (py_eval : string -> option string) (l : list NameAndSig),
    map f_name (MergeSignatures l) = first_seen (map name l) /\
    NoDup (map f_name (MergeSignatures l)) /\
    (forall n, In n (map f_name (MergeSignatures l)) <-> In n (map name l)) /\
    (forall f, In f (MergeSignatures l) ->
               signatures f = signatures_under (f_name f) l) /\
    (forall n (s1 s2 : Signature),
        MergeSignatures [mkNameAndSig n s1; mkNameAndSig n s2]
        = [mkFunction n [s1; s2]]) /\
    Parse py_eval two_defs_of_f None
    = Returns
        {| u_constants := []; u_classes := [];
           u_functions :=
             [ {| f_name := "f";
                  signatures :=
                    [ {| params := [Parameter_ "x" (NamedType "int")];
                         return_type := UnknownType; exceptions := [];
                         template := []; has_optional := false |};
                      {| params := [Parameter_ "y" (NamedType "object")];
                         return_type := NamedType "int"; exceptions := [];
                         template := []; has_optional := false |} ] |} ] |}.
Proof.
  intros py_eval l.
  assert (Hn : map f_name (MergeSignatures l) = first_seen (map name l)).
  { rewrite MergeSignatures_closed_form, map_map. simpl. apply map_id. }
  split; [exact Hn|]. split; [rewrite Hn; apply first_seen_NoDup|].
  split; [intros n; rewrite Hn; apply first_seen_In|].
  split; [|split].
  - intros f Hf. rewrite MergeSignatures_closed_form in Hf.
    apply in_map_iff in Hf. destruct Hf as (n & E & _). subst f. reflexivity.
  - intros n s1 s2. rewrite MergeSignatures_closed_form. simpl.
    unfold signatures_under. simpl. rewrite String.eqb_refl. reflexivity.
  - vm_compute. reflexivity.
Qed.

Lemma C7_overloads_grouped_by_name_witness :
  signatures (mkFunction "f" [mkSignature [] UnknownType [] [] false;
                              mkSignature [] UnknownType [] [] false])
  = signatures_under "f"
      [mkNameAndSig "f" (mkSignature [] UnknownType [] [] false);
       mkNameAndSig "g" (mkSignature [] NothingType [] [] true);
       mkNameAndSig "f" (mkSignature [] UnknownType [] [] false)].
Proof.
  apply (proj1 (proj2 (proj2 (proj2
           (C7_overloads_grouped_by_name eval_no_escapes
              [mkNameAndSig "f" (mkSignature [] UnknownType [] [] false);
               mkNameAndSig "g" (mkSignature [] NothingType [] [] true);
               mkNameAndSig "f" (mkSignature [] UnknownType [] [] false)]))))).
  vm_compute. left. reflexivity.
Defined.

(** ** Node comparison *)

Lemma Type_nested_ind (P : Type_ -> Prop) :
  (forall n, P (NamedType n)) ->
  (forall n, P (ClassType n)) ->
  P UnknownType ->
  P NothingType ->
  (forall v, P (Scalar v)) ->
  (forall l, Forall P l -> P (UnionType l)) ->
  (forall l, Forall P l -> P (IntersectionType l)) ->
  (forall b e, P b -> P e -> P (HomogeneousContainerType b e)) ->
  (forall b ps, P b -> Forall P ps -> P (GenericType b ps)) ->
  forall t, P t.
Proof.
  intros Hn Hc Hu Ho Hs HU HI HH HG.
  fix IH 1. intros t.
  assert (L : forall l, Forall P l).
  { fix IHl 1. intros [|x l]; constructor; [apply IH|apply IHl]. }
  destruct t.
  - apply Hn.
  - apply Hc.
  - apply Hu.
  - apply Ho.
  - apply Hs.
  - apply HU, L.
  - apply HI, L.
  - apply HH; apply IH.
  - apply HG; [apply IH|apply L].
Qed.

Lemma scalar_eqb_eq (x y : ScalarValue) : scalar_eqb x y = true <-> x = y.
Proof.
  destruct x, y; simpl; split; intros H; try discriminate H;
    try (apply Z.eqb_eq in H; congruence);
    try (apply String.eqb_eq in H; congruence);
    inversion H; subst;
    try apply Z.eqb_refl; try apply String.eqb_refl.
Qed.

(** The comparison of tuples that [node_eq] makes member by member. *)
Lemma tuple_eq_eq (l1 : list Type_) :
  Forall (fun a => plain a = true -> forall b, node_eq a b = true <-> a = b) l1 ->
  forallb plain l1 = true ->
  forall l2,
    (fix tuple_eq (l1 l2 : list Type_) {struct l1} : bool :=
       match l1, l2 with
       | [], [] => true
       | x :: r1, y :: r2 => node_eq x y && tuple_eq r1 r2
       | _, _ => false
       end) l1 l2 = true <-> l1 = l2.
Proof.
  induction 1 as [|a l1 Ha Hl IH]; intros Hp [|b l2]; simpl in *;
    try (split; intros H; [discriminate H|congruence]);
    try (split; reflexivity).
  apply andb_prop in Hp. destruct Hp as [Hpa Hpl].
  rewrite andb_true_iff, (Ha Hpa b), (IH Hpl l2).
  split; [intros [-> ->]; reflexivity|intros H; inversion H; auto].
Qed.

Lemma node_eq_plain (a : Type_) :
  plain a = true -> forall b, node_eq a b = true <-> a = b.
Proof.
  induction a as [n|n| | |v|l Hl|l Hl|b1 e1 Hb He|b1 ps Hb Hps]
    using Type_nested_ind; intros Hp b.
  - destruct b; simpl; try (split; intros H; [discriminate H|congruence]).
    rewrite String.eqb_eq. split; congruence.
  - destruct b; simpl; try (split; intros H; [discriminate H|congruence]).
    rewrite String.eqb_eq. split; congruence.
  - destruct b; simpl; try (split; intros H; [discriminate H|congruence]).
    split; reflexivity.
  - destruct b; simpl; try (split; intros H; [discriminate H|congruence]).
    split; reflexivity.
  - destruct b; simpl; try (split; intros H; [discriminate H|congruence]).
    rewrite scalar_eqb_eq. split; congruence.
  - discriminate Hp.
  - destruct b; try (simpl; split; intros H; [discriminate H|congruence]).
    simpl in Hp. cbn [node_eq].
    rewrite (tuple_eq_eq l Hl Hp). split; congruence.
  - destruct b; try (simpl; split; intros H; [discriminate H|congruence]).
    simpl in Hp. apply andb_prop in Hp. destruct Hp as [Hp1 Hp2].
    cbn [node_eq]. rewrite andb_true_iff, (Hb Hp1), (He Hp2).
    split; [intros [-> ->]; reflexivity|intros H; inversion H; auto].
  - destruct b; try (simpl; split; intros H; [discriminate H|congruence]).
    simpl in Hp. apply andb_prop in Hp. destruct Hp as [Hp1 Hp2].
    cbn [node_eq]. rewrite andb_true_iff, (Hb Hp1), (tuple_eq_eq ps Hps Hp2).
    split; [intros [-> ->]; reflexivity|intros H; inversion H; auto].
Qed.

(** C9 (as stated, refuted): two [UnionType] nodes whose [type_list] fields
    differ, in the order of the members or in their multiplicity, compare
    equal. *)
Lemma C9_union_comparison_ignores_order :
  node_eq (UnionType [NamedType "a"; NamedType "b"])
          (UnionType [NamedType "b"; NamedType "a"]) = true /\
  [NamedType "a"; NamedType "b"] <> [NamedType "b"; NamedType "a"] /\
  node_eq (UnionType [NamedType "a"; NamedType "a"])
          (UnionType [NamedType "a"]) = true /\
  [NamedType "a"; NamedType "a"] <> [NamedType "a"].
Proof.
  repeat split; try reflexivity; intros H; discriminate H.
Qed.

Lemma tuple_eqb_plain {A : Type} (eqb : A -> A -> bool) (pl : A -> bool) :
  (forall a, pl a = true -> forall b, eqb a b = true <-> a = b) ->
  forall l1, forallb pl l1 = true ->
  forall l2, tuple_eqb eqb l1 l2 = true <-> l1 = l2.
Proof.
  intros H l1. induction l1 as [|a l1 IH]; intros Hp [|b l2]; simpl in *;
    try (split; intros K; [discriminate K|congruence]);
    try (split; reflexivity).
  apply andb_prop in Hp. destruct Hp as [Ha Hl].
  rewrite andb_true_iff, (H a Ha b), (IH Hl l2).
  split; [intros [-> ->]; reflexivity|intros K; inversion K; auto].
Qed.

Lemma param_eq_plain (p : Param) :
  param_plain p = true -> forall q, param_eq p q = true <-> p = q.
Proof.
  intros Hp q. destruct p as [n t|n t v], q as [m u|m u w]; simpl in *;
    try (split; intros K; [discriminate K|congruence]).
  - rewrite andb_true_iff, String.eqb_eq, (node_eq_plain t Hp u).
    split; [intros [-> ->]; reflexivity|intros K; inversion K; auto].
  - apply andb_prop in Hp. destruct Hp as [Ht Hv].
    rewrite !andb_true_iff, String.eqb_eq, (node_eq_plain t Ht u),
      (node_eq_plain v Hv w).
    split; [intros [[-> ->] ->]; reflexivity|intros K; inversion K; auto].
Qed.

Lemma template_item_eq_plain (a : TemplateItem) :
  template_item_plain a = true ->
  forall b, template_item_eq a b = true <-> a = b.
Proof.
  intros Hp b. destruct a as [n t k], b as [m u j].
  unfold template_item_eq, template_item_plain in *. simpl in *.
  rewrite !andb_true_iff, String.eqb_eq, Nat.eqb_eq, (node_eq_plain t Hp u).
  split; [intros [[-> ->] ->]; reflexivity|intros K; inversion K; auto].
Qed.

Lemma signature_eq_plain (a : Signature) :
  signature_plain a = true -> forall b, signature_eq a b = true <-> a = b.
Proof.
  intros Hp b. destruct a as [ps r ex tp ho], b as [ps' r' ex' tp' ho'].
  unfold signature_eq, signature_plain in *. simpl in *.
  apply andb_prop in Hp. destruct Hp as [Hp Htp].
  apply andb_prop in Hp. destruct Hp as [Hp Hex].
  apply andb_prop in Hp. destruct Hp as [Hps Hr].
  rewrite !andb_true_iff, Bool.eqb_true_iff, (node_eq_plain r Hr r'),
    (tuple_eqb_plain param_eq param_plain param_eq_plain ps Hps ps'),
    (tuple_eqb_plain node_eq plain node_eq_plain ex Hex ex'),
    (tuple_eqb_plain template_item_eq template_item_plain
       template_item_eq_plain tp Htp tp').
  split; [intros [[[[-> ->] ->] ->] ->]; reflexivity
         |intros K; inversion K; auto 6].
Qed.

Lemma function_eq_plain (a : Function) :
  function_plain a = true -> forall b, function_eq a b = true <-> a = b.
Proof.
  intros Hp b. destruct a as [n sg], b as [m sg'].
  unfold function_eq, function_plain in *. simpl in *.
  rewrite andb_true_iff, String.eqb_eq,
    (tuple_eqb_plain signature_eq signature_plain signature_eq_plain sg Hp sg').
  split; [intros [-> ->]; reflexivity|intros K; inversion K; auto].
Qed.

Lemma constant_eq_plain (a : Constant) :
  constant_plain a = true -> forall b, constant_eq a b = true <-> a = b.
Proof.
  intros Hp b. destruct a as [n t], b as [m u].
  unfold constant_eq, constant_plain in *. simpl in *.
  rewrite andb_true_iff, String.eqb_eq, (node_eq_plain t Hp u).
  split; [intros [-> ->]; reflexivity|intros K; inversion K; auto].
Qed.

Lemma class_eq_plain (a : Class) :
  class_plain a = true -> forall b, class_eq a b = true <-> a = b.
Proof.
  intros Hp b. destruct a as [n pa me co tp], b as [n' pa' me' co' tp'].
  unfold class_eq, class_plain in *. simpl in *.
  apply andb_prop in Hp. destruct Hp as [Hp Htp].
  apply andb_prop in Hp. destruct Hp as [Hp Hco].
  apply andb_prop in Hp. destruct Hp as [Hpa Hme].
  rewrite !andb_true_iff, String.eqb_eq,
    (tuple_eqb_plain node_eq plain node_eq_plain pa Hpa pa'),
    (tuple_eqb_plain function_eq function_plain function_eq_plain me Hme me'),
    (tuple_eqb_plain constant_eq constant_plain constant_eq_plain co Hco co'),
    (tuple_eqb_plain template_item_eq template_item_plain
       template_item_eq_plain tp Htp tp').
  split; [intros [[[[-> ->] ->] ->] ->]; reflexivity
         |intros K; inversion K; auto 6].
Qed.

Lemma unit_eq_plain (a : TypeDeclUnit) :
  unit_plain a = true -> forall b, unit_eq a b = true <-> a = b.
Proof.
  intros Hp b. destruct a as [co cl fu], b as [co' cl' fu'].
  unfold unit_eq, unit_plain in *. simpl in *.
  apply andb_prop in Hp. destruct Hp as [Hp Hfu].
  apply andb_prop in Hp. destruct Hp as [Hco Hcl].
  rewrite !andb_true_iff,
    (tuple_eqb_plain constant_eq constant_plain constant_eq_plain co Hco co'),
    (tuple_eqb_plain class_eq class_plain class_eq_plain cl Hcl cl'),
    (tuple_eqb_plain function_eq function_plain function_eq_plain fu Hfu fu').
  split; [intros [[-> ->] ->]; reflexivity|intros K; inversion K; auto].
Qed.

Lemma ast_eq_plain (a : Node) :
  ast_plain a = true -> forall b, ast_eq a b = true <-> a = b.
Proof.
  intros Hp b.
  destruct a as [x|x|x|x|x|x|x|x], b as [y|y|y|y|y|y|y|y]; simpl in *;
    try (split; intros K; [discriminate K|congruence]).
  - rewrite (node_eq_plain x Hp y). split; congruence.
  - rewrite (param_eq_plain x Hp y). split; congruence.
  - rewrite (template_item_eq_plain x Hp y). split; congruence.
  - rewrite (signature_eq_plain x Hp y). split; congruence.
  - rewrite (function_eq_plain x Hp y). split; congruence.
  - rewrite (constant_eq_plain x Hp y). split; congruence.
  - rewrite (class_eq_plain x Hp y). split; congruence.
  - rewrite (unit_eq_plain x Hp y). split; congruence.
Qed.

(** C9 (amended): a node of any kind (a type, a parameter, a template
    item, a signature, a function, a constant, a class, a unit) with no
    [UnionType] (and no [float] scalar) inside compares equal to another
    node exactly when the two are of one kind with equal fields, and then
    any function of the fields, such as a hash, gives the same value on
    both; two [UnionType] nodes over such members compare equal exactly
    when they have the same members, whatever the order and the
    multiplicity. *)
Theorem C9_structural_comparison :
  forall (a b : Node) (l1 l2 : list Type_),
    ast_plain a = true ->
    forallb plain l1 = true ->
    forallb plain l2 = true ->
    (ast_eq a b = true <-> a = b) /\
    (forall hash : Node -> Z, ast_eq a b = true -> hash a = hash b) /\
    (ast_eq (TypeNode (UnionType l1)) (TypeNode (UnionType l2)) = true
     <-> (forall t, In t l1 <-> In t l2)).
Proof.
  intros a b l1 l2 Hp H1 H2.
  split; [apply ast_eq_plain; exact Hp|].
  split.
  { intros hash H. apply (ast_eq_plain a Hp b) in H. subst b. reflexivity. }
  cbn [ast_eq node_eq]. rewrite andb_true_iff, !forallb_forall.
  rewrite forallb_forall in H1, H2.
  split.
  - intros [Ha Hb] t. split; intros Ht.
    + pose proof (Ha t Ht) as Hex. apply existsb_exists in Hex.
      destruct Hex as (y & Hy & E).
      apply (node_eq_plain t (H1 t Ht)) in E. subst y. exact Hy.
    + apply Hb in Ht. apply existsb_exists in Ht. destruct Ht as (x & Hx & E).
      apply (node_eq_plain x (H1 x Hx)) in E. subst x. exact Hx.
  - intros H. split.
    + intros x Hx. apply existsb_exists. exists x. split; [apply H; exact Hx|].
      apply node_eq_plain; [apply H1; exact Hx|reflexivity].
    + intros y Hy. apply existsb_exists. exists y. split; [apply H; exact Hy|].
      apply node_eq_plain; [apply H1, H; exact Hy|reflexivity].
Qed.

Lemma C9_structural_comparison_witness :
  (ast_eq
     (SignatureNode
        {| params := [Parameter_ "x" (IntersectionType [NamedType "a"; NothingType])];
           return_type := NamedType "int"; exceptions := [];
           template := [mkTemplateItem "T" (NamedType "object") 0];
           has_optional := false |})
     (SignatureNode
        {| params := [MutableParameter "x" (NamedType "a") (NamedType "b")];
           return_type := NamedType "int"; exceptions := [];
           template := [mkTemplateItem "T" (NamedType "object") 0];
           has_optional := false |}) = true
   <-> SignatureNode
         {| params := [Parameter_ "x" (IntersectionType [NamedType "a"; NothingType])];
            return_type := NamedType "int"; exceptions := [];
            template := [mkTemplateItem "T" (NamedType "object") 0];
            has_optional := false |}
       = SignatureNode
           {| params := [MutableParameter "x" (NamedType "a") (NamedType "b")];
              return_type := NamedType "int"; exceptions := [];
              template := [mkTemplateItem "T" (NamedType "object") 0];
              has_optional := false |}) /\
  (ast_eq (TypeNode (UnionType [NamedType "a"; NamedType "b"]))
          (TypeNode (UnionType [NamedType "b"; NamedType "a"; NamedType "b"]))
   = true
   <-> (forall t, In t [NamedType "a"; NamedType "b"]
                  <-> In t [NamedType "b"; NamedType "a"; NamedType "b"])).
Proof.
  destruct (C9_structural_comparison
              (SignatureNode
                 {| params := [Parameter_ "x"
                                 (IntersectionType [NamedType "a"; NothingType])];
                    return_type := NamedType "int"; exceptions := [];
                    template := [mkTemplateItem "T" (NamedType "object") 0];
                    has_optional := false |})
              (SignatureNode
                 {| params := [MutableParameter "x" (NamedType "a") (NamedType "b")];
                    return_type := NamedType "int"; exceptions := [];
                    template := [mkTemplateItem "T" (NamedType "object") 0];
                    has_optional := false |})
              [NamedType "a"; NamedType "b"]
              [NamedType "b"; NamedType "a"; NamedType "b"]
              eq_refl eq_refl eq_refl) as (H1 & _ & H3).
  split; [exact H1|exact H3].
Defined.

(** ** The parser reads whole blocks *)

Lemma TokenType_eqb_eq (a b : TokenType) : TokenType_eqb a b = true <-> a = b.
Proof.
  split.
  - destruct a, b; simpl; intros H; try reflexivity; discriminate H.
  - intros ->. destruct b; reflexivity.
Qed.

Lemma next_is_true (ty : TokenType) (ts : list LexToken) :
  next_is ty ts = true -> exists t r, ts = t :: r /\ tok_type t = ty.
Proof.
  destruct ts as [|t r]; simpl; intros H; [discriminate H|].
  exists t, r. split; [reflexivity|]. apply TokenType_eqb_eq. exact H.
Qed.

Lemma expect_result (Q : LexToken -> Prop) (ty : TokenType) (ts : list LexToken) :
  Forall Q ts ->
  match expect ty ts with
  | inr (t, rest) => ts = t :: rest /\ tok_type t = ty /\ Forall Q rest
  | inl (ErrorToken t) => Q t
  | inl (ActionRaised _) => False
  | inl _ => True
  end.
Proof.
  intros H. destruct ts as [|t r]; simpl; [exact I|].
  inversion H; subst.
  destruct (TokenType_eqb (tok_type t) ty) eqn:E; [|assumption].
  apply TokenType_eqb_eq in E. auto.
Qed.

Section Keeps.

Variable Q : LexToken -> Prop.

(** One step of a proof that a parser keeps to whole blocks: the next
    sub-parser, lookahead test or token match of the goal is resolved. *)
Ltac parser_step :=
  match goal with
  | |- outcome_ok _ _ (inl _) => simpl; try exact I; try assumption
  | |- Forall Q _ /\ _ = _ =>
      split;
      [assumption
      |cbn [open_blocks] in *;
       repeat match goal with
              | H : tok_type _ = _ |- _ => rewrite H in *; clear H
              end;
       cbn [indent_delta] in *; lia]
  | |- outcome_ok _ _ (inr _) =>
      simpl; split;
      [assumption
      |cbn [open_blocks] in *;
       repeat match goal with
              | H : tok_type _ = _ |- _ => rewrite H in *; clear H
              end;
       cbn [indent_delta] in *; lia]
  | |- context [expect ?ty ?ts] =>
      let R := fresh "R" in
      let F := fresh "F" in
      assert (F : Forall Q ts) by assumption;
      pose proof (expect_result Q ty ts F) as R; clear F;
      destruct (expect ty ts) as [[?t| |?e|]|[?t ?ts]];
      [| |contradiction| |destruct R as (-> & ? & ?)]
  | |- context [next_is ?ty ?ts] =>
      let E := fresh "E" in
      destruct (next_is ty ts) eqn:E;
      [apply next_is_true in E; destruct E as (?t & ?r & -> & ?);
       match goal with H : Forall Q (_ :: _) |- _ => inversion H; subst end;
       simpl tl|]
  | |- context [match ?ts with [] => _ | _ :: _ => _ end] =>
      is_var ts; destruct ts as [|?t ?r];
      [|match goal with H : Forall Q (_ :: _) |- _ => inversion H; subst end]
  | |- context [if snd ?ps then _ else _] =>
      destruct ps as [? [|]]; cbn [fst snd]
  | |- context [match tok_type ?t with ARROW => _ | _ => _ end] =>
      destruct (tok_type t) eqn:?
  | K : forall a, keeps Q (?p a) |- context [?p ?a0 ?x] =>
      let R := fresh "R" in
      let F := fresh "F" in
      assert (F : Forall Q x) by assumption;
      pose proof (K a0 x F) as R; clear F;
      destruct (p a0 x) as [[?t| |?e|]|[?v ?ts]]; simpl in R;
      [| | | |destruct R as (? & ?)]
  | K : keeps Q ?p |- context [?p ?x] =>
      let R := fresh "R" in
      let F := fresh "F" in
      assert (F : Forall Q x) by assumption;
      pose proof (K x F) as R; clear F;
      destruct (p x) as [[?t| |?e|]|[?v ?ts]]; simpl in R;
      [| | | |destruct R as (? & ?)]
  end.

Ltac parser_steps := repeat parser_step.

Lemma keeps_binary_rest (op : TokenType) (action : Type_ -> Type_ -> Type_)
    (operand : list LexToken -> Parsed Type_) :
  indent_delta op = 0%Z ->
  keeps Q operand ->
  forall fuel lhs, keeps Q (binary_rest op action operand fuel lhs).
Proof.
  intros Hop Ho fuel.
  induction fuel as [|fuel IH]; intros lhs ts Hts; simpl; [exact I|].
  parser_steps.
Qed.

Lemma keeps_and_level (atom : list LexToken -> Parsed Type_) (fuel : nat) :
  keeps Q atom -> keeps Q (and_level atom fuel).
Proof.
  intros Ha ts Hts. unfold and_level.
  pose proof (keeps_binary_rest AND p_type_and atom eq_refl Ha fuel) as Hr.
  parser_steps.
Qed.

Lemma keeps_or_level (atom : list LexToken -> Parsed Type_) (fuel : nat) :
  keeps Q atom -> keeps Q (or_level atom fuel).
Proof.
  intros Ha ts Hts. unfold or_level.
  pose proof (keeps_and_level atom fuel Ha) as Hand.
  pose proof (keeps_binary_rest OR p_type_or (and_level atom fuel) eq_refl Hand fuel)
    as Hr.
  parser_steps.
Qed.

Lemma keeps_comma_list {A : Type} (item : list LexToken -> Parsed A) :
  keeps Q item -> forall fuel acc, keeps Q (comma_list item fuel acc).
Proof.
  intros Hi fuel.
  induction fuel as [|fuel IH]; intros acc ts Hts; simpl; [exact I|].
  parser_steps.
Qed.

Lemma keeps_parameters_rest (item : list LexToken -> Parsed Type_) :
  keeps Q item -> forall fuel acc, keeps Q (parameters_rest item fuel acc).
Proof.
  intros Hi fuel.
  induction fuel as [|fuel IH]; intros acc ts Hts; simpl; [exact I|].
  parser_steps.
Qed.

Lemma keeps_parse_atom (fuel : nat) : keeps Q (parse_atom fuel).
Proof.
  induction fuel as [|fuel IH]; intros ts Hts; simpl; [exact I|].
  pose proof (keeps_or_level (parse_atom fuel) fuel IH) as Htype.
  pose proof (keeps_parameters_rest _ Htype fuel) as Hps.
  parser_steps.
Qed.

Lemma keeps_parse_type (fuel : nat) : keeps Q (parse_type fuel).
Proof. apply keeps_or_level, keeps_parse_atom. Qed.

Lemma keeps_parse_param (fuel : nat) : keeps Q (parse_param fuel).
Proof.
  intros ts Hts. unfold parse_param.
  pose proof (keeps_parse_type fuel) as Htype.
  parser_steps.
Qed.

Lemma keeps_three_dots : keeps Q three_dots.
Proof. intros ts Hts. unfold three_dots. parser_steps. Qed.

Lemma keeps_params_rest (fuel : nat) : forall acc, keeps Q (params_rest fuel acc).
Proof.
  induction fuel as [|fuel IH]; intros acc ts Hts; simpl; [exact I|].
  pose proof (keeps_parse_param fuel) as Hparam.
  pose proof keeps_three_dots as Hdots.
  parser_steps.
Qed.

Lemma keeps_parse_params (fuel : nat) : keeps Q (parse_params fuel).
Proof.
  intros ts Hts. unfold parse_params.
  pose proof (keeps_parse_param fuel) as Hparam.
  pose proof keeps_three_dots as Hdots.
  pose proof (keeps_params_rest fuel) as Hrest.
  parser_steps.
Qed.

Lemma keeps_parse_template_item (fuel : nat) : keeps Q (parse_template_item fuel).
Proof.
  intros ts Hts. unfold parse_template_item.
  pose proof (keeps_parse_type fuel) as Htype.
  parser_steps.
Qed.

Lemma keeps_parse_template (fuel : nat) : keeps Q (parse_template fuel).
Proof.
  intros ts Hts. unfold parse_template.
  pose proof (keeps_parse_template_item fuel) as Hitem.
  pose proof (keeps_comma_list _ Hitem fuel) as Hlist.
  parser_steps.
Qed.

Lemma keeps_parse_parents (fuel : nat) : keeps Q (parse_parents fuel).
Proof.
  intros ts Hts. unfold parse_parents.
  pose proof (keeps_parse_type fuel) as Htype.
  pose proof (keeps_comma_list _ Htype fuel) as Hlist.
  parser_steps.
Qed.

Lemma keeps_parse_return (fuel : nat) : keeps Q (parse_return fuel).
Proof.
  intros ts Hts. unfold parse_return.
  pose proof (keeps_parse_type fuel) as Htype.
  parser_steps.
Qed.

Lemma keeps_parse_raises (fuel : nat) : keeps Q (parse_raises fuel).
Proof.
  intros ts Hts. unfold parse_raises.
  pose proof (keeps_parse_type fuel) as Htype.
  pose proof (keeps_comma_list _ Htype fuel) as Hlist.
  parser_steps.
Qed.

Lemma keeps_parse_signature : keeps Q parse_signature.
Proof. intros ts Hts. unfold parse_signature. parser_steps. Qed.

Lemma keeps_parse_mutator (fuel : nat) : keeps Q (parse_mutator fuel).
Proof.
  intros ts Hts. unfold parse_mutator.
  pose proof (keeps_parse_type fuel) as Htype.
  parser_steps.
Qed.

Lemma keeps_parse_body (fuel : nat) : keeps Q (parse_body fuel).
Proof.
  induction fuel as [|fuel IH]; intros ts Hts; simpl; [exact I|].
  pose proof (keeps_parse_mutator fuel) as Hm.
  parser_steps.
  left. reflexivity.
Qed.

Lemma keeps_parse_maybe_body (fuel : nat) : keeps Q (parse_maybe_body fuel).
Proof.
  intros ts Hts. unfold parse_maybe_body.
  pose proof (keeps_parse_body fuel) as Hbody.
  parser_steps.
Qed.

Lemma keeps_parse_funcdef (fuel : nat) : keeps Q (parse_funcdef fuel).
Proof.
  intros ts Hts. unfold parse_funcdef.
  pose proof (keeps_parse_template fuel) as H2.
  pose proof (keeps_parse_params fuel) as H5.
  pose proof (keeps_parse_return fuel) as H7.
  pose proof (keeps_parse_raises fuel) as H8.
  pose proof keeps_parse_signature as H9.
  pose proof (keeps_parse_maybe_body fuel) as H10.
  parser_steps.
Qed.

Lemma keeps_parse_constantdef (fuel : nat) : keeps Q (parse_constantdef fuel).
Proof.
  intros ts Hts. unfold parse_constantdef.
  pose proof (keeps_parse_type fuel) as Htype.
  parser_steps.
Qed.

Lemma keeps_parse_funcdefs (fuel : nat) :
  forall acc, keeps Q (parse_funcdefs fuel acc).
Proof.
  induction fuel as [|fuel IH]; intros acc ts Hts; simpl; [exact I|].
  pose proof (keeps_parse_funcdef fuel) as Hf.
  pose proof (keeps_parse_constantdef fuel) as Hc.
  parser_steps.
Qed.

Lemma keeps_parse_class_funcs (fuel : nat) : keeps Q (parse_class_funcs fuel).
Proof.
  intros ts Hts. unfold parse_class_funcs.
  pose proof (keeps_parse_funcdefs fuel) as Hf.
  parser_steps.
Qed.

Lemma keeps_parse_classdef (data : list ascii) (filename : string) (fuel : nat) :
  keeps Q (parse_classdef data filename fuel).
Proof.
  intros ts Hts. unfold parse_classdef.
  pose proof (keeps_parse_template fuel) as H2.
  pose proof (keeps_parse_parents fuel) as H4.
  pose proof (keeps_parse_class_funcs fuel) as H7.
  parser_steps.
  unfold p_classdef. destruct (set_neq _ _); [|parser_steps].
  right. eexists. eexists. reflexivity.
Qed.

Lemma keeps_parse_alldefs (data : list ascii) (filename : string) (fuel : nat) :
  forall acc, keeps Q (parse_alldefs data filename fuel acc).
Proof.
  induction fuel as [|fuel IH]; intros acc ts Hts; simpl; [exact I|].
  pose proof (keeps_parse_funcdef fuel) as Hf.
  pose proof (keeps_parse_constantdef fuel) as Hc.
  pose proof (keeps_parse_classdef data filename fuel) as Hk.
  destruct ts as [|t r]; [simpl; auto|].
  destruct (tok_type t) eqn:Et; try (simpl; inversion Hts; assumption);
    parser_steps.
Qed.

End Keeps.

(** ** The diagnostics of [make_syntax_error] *)

Lemma rfind_newline_plus1_spec (p : list ascii) :
  forall i acc,
    acc <= i ->
    let r := rfind_newline_plus1 p i acc in
    r <= i + length p /\
    (r = acc \/ (i < r /\ nth_error p (r - 1 - i) = Some LF)) /\
    (forall j, r <= j < i + length p -> i <= j -> nth_error p (j - i) <> Some LF).
Proof.
  induction p as [|c p IH]; intros i acc Hacc; simpl.
  - split; [lia|]. split; [left; reflexivity|]. intros j Hj. lia.
  - destruct (Ascii.eqb_spec c LF) as [E|E].
    + specialize (IH (S i) (S i) (le_n _)). simpl in IH.
      destruct IH as (H1 & H2 & H3).
      split; [lia|]. split.
      * right. destruct H2 as [H2|[H2 H2']].
        -- rewrite H2. split; [lia|]. replace (S i - 1 - i) with 0 by lia.
           simpl. congruence.
        -- split; [lia|].
           replace (rfind_newline_plus1 p (S i) (S i) - 1 - i)
             with (S (rfind_newline_plus1 p (S i) (S i) - 1 - S i)) by lia.
           simpl. exact H2'.
      * intros j Hj Hij.
        assert (Hr : S i <= rfind_newline_plus1 p (S i) (S i)).
        { destruct H2 as [H2|[H2 _]]; lia. }
        replace (j - i) with (S (j - S i)) by lia. simpl.
        apply H3; lia.
    + specialize (IH (S i) acc (Nat.le_trans _ _ _ Hacc (Nat.le_succ_diag_r i))).
      simpl in IH. destruct IH as (H1 & H2 & H3).
      split; [lia|]. split.
      * destruct H2 as [H2|[H2 H2']]; [left; exact H2|right].
        split; [lia|].
        replace (rfind_newline_plus1 p (S i) acc - 1 - i)
          with (S (rfind_newline_plus1 p (S i) acc - 1 - S i)) by lia.
        simpl. exact H2'.
      * intros j Hj Hij.
        destruct (Nat.eq_dec j i) as [->|Hne].
        -- rewrite Nat.sub_diag. simpl. congruence.
        -- replace (j - i) with (S (j - S i)) by lia. simpl.
           apply H3; lia.
Qed.

Lemma last_line_offset_spec (data : list ascii) (lexpos : nat) :
  let start := last_line_offset data lexpos in
  start <= lexpos /\
  (start = 0 \/ nth_error data (start - 1) = Some LF) /\
  (forall j, start <= j < lexpos -> nth_error data j <> Some LF).
Proof.
  unfold last_line_offset.
  pose proof (rfind_newline_plus1_spec (firstn lexpos data) 0 0 (le_n _)) as H.
  simpl in H. destruct H as (H1 & H2 & H3).
  pose proof (length_firstn lexpos data) as Hl.
  split; [lia|]. split.
  - destruct H2 as [H2|[H2 H2']]; [left; exact H2|right].
    rewrite Nat.sub_0_r in H2'.
    rewrite nth_error_firstn in H2'.
    destruct (Nat.ltb (rfind_newline_plus1 (firstn lexpos data) 0 0 - 1) lexpos);
      [exact H2'|discriminate H2'].
  - intros j Hj.
    destruct (Nat.lt_ge_cases j (length data)) as [Hjd|Hjd].
    + specialize (H3 j). rewrite Nat.sub_0_r in H3.
      rewrite nth_error_firstn in H3.
      destruct (Nat.ltb_spec j lexpos); [|lia].
      apply H3; lia.
    + apply nth_error_None in Hjd. rewrite Hjd. discriminate.
Qed.

Lemma span_not_LF (l : list ascii) :
  ~ In LF (fst (span (fun c => negb (Ascii.eqb c LF)) l)).
Proof.
  induction l as [|c l IH]; simpl; [tauto|].
  destruct (Ascii.eqb_spec c LF) as [E|E]; simpl; [tauto|].
  destruct (span _ l) as [a b]. simpl in *. intros [H|H]; [congruence|tauto].
Qed.

Lemma make_syntax_error_ok (data : list ascii) (fname msg : string)
    (p_lineno p_lexpos : nat) :
  diagnostic_message msg -> 1 <= p_lineno ->
  failure_ok data fname
    (make_syntax_error data fname msg (AtToken p_lineno p_lexpos)).
Proof.
  intros Hm Hl. simpl.
  destruct (last_line_offset_spec data p_lexpos) as (H1 & H2 & H3).
  repeat split; try assumption; try lia.
  exists p_lexpos, (last_line_offset data p_lexpos).
  repeat split; try assumption.
  apply span_not_LF.
Qed.

Lemma make_syntax_error_lexer (data : list ascii) (fname msg : string)
    (p_lineno p_lexpos : nat) :
  diagnostic_message msg -> 1 <= p_lineno ->
  lexer_failure data fname
    (make_syntax_error data fname msg (AtToken p_lineno p_lexpos)).
Proof.
  intros Hm Hl. split; [apply make_syntax_error_ok; assumption|].
  left. reflexivity.
Qed.

(** ** The lexer keeps count of the blocks *)

Lemma pop_queued_spec (indent : nat) (stack : list nat) :
  forall queued,
    last stack 1 = 0 ->
    exists top below queued',
      pop_queued indent stack queued = Some (top :: below, queued') /\
      last (top :: below) 1 = 0 /\
      length (top :: below) + queued' = length stack + queued.
Proof.
  induction stack as [|top below IH]; intros queued Hl.
  - simpl in Hl. discriminate Hl.
  - simpl pop_queued. destruct (Nat.ltb_spec indent top) as [Hlt|Hge].
    + destruct below as [|b below'].
      * simpl in Hl. lia.
      * destruct (IH (S queued)) as (t' & b' & q' & E & Hl' & Hlen);
          [exact Hl|].
        exists t', b', q'. split; [exact E|]. split; [exact Hl'|].
        simpl in *. lia.
    + exists top, below, queued. auto.
Qed.

Lemma keyword_type_delta (s : string) (kw : TokenType) :
  keyword_type s = Some kw -> indent_delta kw = 0%Z.
Proof.
  unfold keyword_type.
  repeat match goal with
         | |- context [if ?b then _ else _] => destruct b
         end; intros H; inversion H; reflexivity.
Qed.

Section LexerInvariant.

Variable py_eval : string -> option string.
Variable data : list ascii.
Variable filename : string.

Ltac lexer_arith :=
  unfold step_ok, lexer_ok, depth, token_at in *;
  cbn [indent_stack open_brackets queued_dedents lineno lexpos
       tok_lineno tok_type indent_delta length last] in *;
  repeat split; try assumption; try lia.

Lemma t_WHITESPACE_ok (lx : PyLexer) (value rest : list ascii) :
  lexer_ok lx ->
  step_ok data filename lx (t_WHITESPACE data filename lx value rest).
Proof.
  intros [Hlast Hline]. unfold t_WHITESPACE.
  destruct lx as [stack brackets queued line pos].
  cbn [indent_stack open_brackets queued_dedents lineno lexpos] in *.
  destruct queued as [|q].
  - destruct (negb (brackets =? 0)%Z); [lexer_arith|].
    destruct (indent_after_last_newline value) as [indent|]; [|lexer_arith].
    destruct stack as [|top below]; [simpl in Hlast; discriminate Hlast|].
    destruct (Nat.ltb_spec indent top) as [Hlt|Hge].
    + assert (Hb : last below 1 = 0).
      { destruct below as [|b below']; [simpl in Hlast; lia|exact Hlast]. }
      destruct (pop_queued_spec indent below 0 Hb) as (t' & b' & q' & E & Hl' & Hlen).
      rewrite E.
      destruct (negb (indent =? t')).
      * apply make_syntax_error_lexer; [|exact Hline].
        right. right. left. reflexivity.
      * destruct q' as [|q']; lexer_arith.
    + destruct (Nat.ltb_spec top indent) as [Hlt'|Hge']; lexer_arith.
  - lexer_arith.
Qed.

Lemma advance_ok (lx : PyLexer) (n : nat) :
  lexer_ok lx -> lexer_ok (advance lx n) /\ depth (advance lx n) = depth lx.
Proof. intros H. split; [exact H|reflexivity]. Qed.

Lemma bracket_ok (lx : PyLexer) (delta : Z) :
  lexer_ok lx -> lexer_ok (bracket lx delta) /\ depth (bracket lx delta) = depth lx.
Proof. intros H. split; [exact H|reflexivity]. Qed.

Lemma emit_plain_ok (lx lx' : PyLexer) (ty : TokenType) (v : TokenValue)
    (rest : list ascii) :
  lexer_ok lx -> lexer_ok lx' /\ depth lx' = depth lx ->
  indent_delta ty = 0%Z ->
  step_ok data filename lx (Emit (token_at lx ty v) lx' rest).
Proof.
  intros [H1 H2] [H3 H4] Hd. simpl. rewrite Hd.
  split; [exact H3|]. split; [exact H2|lia].
Qed.

Lemma string_rules_ok (lx : PyLexer) (input : list ascii) :
  lexer_ok lx -> step_ok data filename lx (string_rules data filename lx input).
Proof.
  intros Hok. unfold string_rules.
  assert (Hill : forall c,
             lexer_failure data filename
               (make_syntax_error data filename
                  ("Illegal character '" ++ String c "'")%string
                  (AtToken (lineno lx) (lexpos lx)))).
  { intros c. apply make_syntax_error_lexer; [|apply Hok].
    right. right. right. exists c. reflexivity. }
  destruct input as [|c r]; [exact I|].
  repeat match goal with
         | |- context [if ?b then _ else _] => destruct b
         | |- context [match ?l with [] => _ | _ :: _ => _ end] => destruct l
         | |- step_ok _ _ _ (Emit _ _ _) =>
             apply emit_plain_ok;
             [exact Hok|apply advance_ok; exact Hok|reflexivity]
         | |- step_ok _ _ _ (Raise _) => apply Hill
         end.
Qed.

Lemma token_step_ok (lx : PyLexer) (input : list ascii) :
  lexer_ok lx ->
  step_ok data filename lx (token_step py_eval data filename lx input).
Proof.
  intros Hok. unfold token_step.
  destruct input as [|c r]; [exact I|].
  destruct (Ascii.eqb c "<").
  { apply emit_plain_ok; [exact Hok|apply bracket_ok; exact Hok|reflexivity]. }
  destruct (Ascii.eqb c ">").
  { apply emit_plain_ok; [exact Hok|apply bracket_ok; exact Hok|reflexivity]. }
  destruct (Ascii.eqb c "(").
  { apply emit_plain_ok; [exact Hok|apply bracket_ok; exact Hok|reflexivity]. }
  destruct (Ascii.eqb c ")").
  { apply emit_plain_ok; [exact Hok|apply bracket_ok; exact Hok|reflexivity]. }
  destruct (Ascii.eqb c TAB).
  { apply make_syntax_error_lexer; [|apply Hok]. right. left. reflexivity. }
  destruct (is_whitespace c).
  { destruct (span is_whitespace (c :: r)) as [value rest].
    apply t_WHITESPACE_ok. exact Hok. }
  destruct (match_NAME (c :: r)) as [[value rest]|].
  { unfold t_NAME. destruct value as [|c0 v0].
    - apply emit_plain_ok; [exact Hok|apply advance_ok; exact Hok|reflexivity].
    - destruct (Ascii.eqb c0 BACKTICK).
      + apply emit_plain_ok; [exact Hok|apply advance_ok; exact Hok|reflexivity].
      + destruct (keyword_type (str (c0 :: v0))) as [kw|] eqn:Ek.
        * apply emit_plain_ok; [exact Hok|apply advance_ok; exact Hok|].
          exact (keyword_type_delta _ _ Ek).
        * apply emit_plain_ok; [exact Hok|apply advance_ok; exact Hok|reflexivity]. }
  destruct (match_STRING (c :: r)) as [[value rest]|].
  { unfold t_STRING. destruct (py_eval (str value)).
    - apply emit_plain_ok; [exact Hok|apply advance_ok; exact Hok|reflexivity].
    - split; [exact I|]. right. eexists. reflexivity. }
  destruct (match_NUMBER (c :: r)) as [[value rest]|].
  { unfold t_NUMBER.
    apply emit_plain_ok; [exact Hok|apply advance_ok; exact Hok|reflexivity]. }
  destruct (Ascii.eqb c "#").
  { destruct (span _ r) as [value rest]. simpl.
    apply advance_ok. exact Hok. }
  apply string_rules_ok. exact Hok.
Qed.

(** The run of the lexer over a text: every token has a line number
    counted from 1, the depth at the end of the input is the depth at the
    start plus the blocks the tokens open, and an exception of the lexer is
    a diagnostic. *)
Lemma tokens_of_ok (fuel : nat) :
  forall lx input tokens lex_end,
    lexer_ok lx ->
    tokens_of py_eval data filename fuel lx input = (tokens, lex_end) ->
    Forall (fun t => 1 <= tok_lineno t) tokens /\
    match lex_end with
    | AtEof lx' =>
        lexer_ok lx' /\ depth lx' = (depth lx + open_blocks tokens)%Z
    | Raised e => lexer_failure data filename e
    | LexFuel => True
    end.
Proof.
  induction fuel as [|fuel IH]; intros lx input tokens lex_end Hok E; simpl in E.
  - inversion E; subst. split; [constructor|exact I].
  - pose proof (token_step_ok lx input Hok) as Hs.
    destruct (token_step py_eval data filename lx input) as [t lx' rest|lx' rest|e|].
    + destruct (tokens_of py_eval data filename fuel lx' rest) as [ts e] eqn:Er.
      inversion E; subst. simpl in Hs. destruct Hs as (Hok' & Hl & Hd).
      destruct (IH lx' rest ts lex_end Hok' Er) as [Hf He].
      split; [constructor; assumption|].
      destruct lex_end as [lx''| |]; try assumption.
      destruct He as [Hok'' Hd']. split; [exact Hok''|].
      cbn [open_blocks]. lia.
    + simpl in Hs. destruct Hs as [Hok' Hd].
      destruct (IH lx' rest tokens lex_end Hok' E) as [Hf He].
      split; [exact Hf|].
      destruct lex_end as [lx''| |]; try assumption.
      destruct He as [Hok'' Hd']. split; [exact Hok''|lia].
    + inversion E; subst. split; [constructor|exact Hs].
    + inversion E; subst. split; [constructor|]. split; [exact Hok|].
      unfold depth. cbn [advance indent_stack queued_dedents open_blocks]. lia.
Qed.

End LexerInvariant.

(** ** Parse *)

Lemma parse_alldefs_reads_all (data : list ascii) (filename : string) (fuel : nat) :
  forall acc ts v rest,
    parse_alldefs data filename fuel acc ts = inr (v, rest) -> rest = [].
Proof.
  induction fuel as [|fuel IH]; intros acc ts v rest E; simpl in E;
    [discriminate E|].
  destruct ts as [|t r]; [inversion E; reflexivity|].
  destruct (tok_type t); try discriminate E.
  - destruct (parse_constantdef fuel (t :: r)) as [s|[c ts1]];
      [discriminate E|]. exact (IH _ _ _ _ E).
  - destruct (parse_classdef data filename fuel (t :: r)) as [s|[c ts1]];
      [discriminate E|]. exact (IH _ _ _ _ E).
  - destruct (parse_funcdef fuel (t :: r)) as [s|[c ts1]];
      [discriminate E|]. exact (IH _ _ _ _ E).
Qed.

Lemma open_blocks_count (ts : list LexToken) :
  open_blocks ts
  = (Z.of_nat (count_type INDENT ts) - Z.of_nat (count_type DEDENT ts))%Z.
Proof.
  unfold count_type. induction ts as [|t r IH]; [reflexivity|].
  cbn [open_blocks filter]. rewrite IH.
  destruct (tok_type t); cbn [TokenType_eqb indent_delta length]; lia.
Qed.

Lemma set_parse_info_ok : lexer_ok set_parse_info /\ depth set_parse_info = 0%Z.
Proof. split; [split; [reflexivity|apply le_n]|reflexivity]. Qed.

(** C5: when [Parse] returns, the lexer has reached the end of the text,
    it has produced as many [INDENT] as [DEDENT] tokens, its indentation
    stack is back to [[0]] and no dedent is left in its queue. *)
Theorem C5_indentation_balanced :
  forall (py_eval : string -> option string) (fuel : nat) (text : string)
         (filename : option string) (u : TypeDeclUnit),
    Parse_fuel py_eval fuel text filename = Returns u ->
    exists tokens lx,
      tokens_of py_eval (list_ascii_of_string text)
        (filename_or_placeholder filename) fuel set_parse_info
        (list_ascii_of_string text)
      = (tokens, AtEof lx) /\
      count_type INDENT tokens = count_type DEDENT tokens /\
      indent_stack lx = [0] /\
      queued_dedents lx = 0.
Proof.
  intros py_eval fuel text filename u H. unfold Parse_fuel in H.
  set (data := list_ascii_of_string text) in *.
  set (fname := filename_or_placeholder filename) in *.
  destruct (tokens_of py_eval data fname fuel set_parse_info data)
    as [tokens lex_end] eqn:El.
  destruct (tokens_of_ok py_eval data fname fuel _ _ _ _
              (proj1 set_parse_info_ok) El) as [_ Hend].
  pose proof (keeps_parse_alldefs (fun _ => True) data fname fuel [] tokens) as Hk.
  assert (Hall : Forall (fun _ : LexToken => True) tokens).
  { apply Forall_forall. intros; exact I. }
  specialize (Hk Hall).
  destruct (parse_alldefs data fname fuel [] tokens) as [s|[alldefs rest]] eqn:Ep.
  { destruct s; try discriminate H; destruct lex_end; discriminate H. }
  destruct lex_end as [lx| |]; try discriminate H.
  exists tokens, lx. split; [reflexivity|].
  pose proof (parse_alldefs_reads_all _ _ _ _ _ _ _ Ep) as Hr. subst rest.
  simpl in Hk. destruct Hk as [_ Hk].
  destruct Hend as [[Hlast _] Hd].
  rewrite (proj2 set_parse_info_ok), Hk in Hd.
  rewrite open_blocks_count in Hk.
  unfold depth in Hd.
  destruct (indent_stack lx) as [|top [|second below]].
  - simpl in Hlast. discriminate Hlast.
  - simpl in Hlast, Hd. subst top. repeat split; lia.
  - cbn [length] in Hd. lia.
Qed.

Lemma C5_indentation_balanced_witness :
  exists tokens lx,
    tokens_of eval_no_escapes (list_ascii_of_string nested_blocks)
      (filename_or_placeholder None) 200 set_parse_info
      (list_ascii_of_string nested_blocks)
    = (tokens, AtEof lx) /\
    count_type INDENT tokens = count_type DEDENT tokens /\
    indent_stack lx = [0] /\
    queued_dedents lx = 0.
Proof.
  apply (C5_indentation_balanced eval_no_escapes 200 nested_blocks None
           {| u_constants := [ {| c_name := "y"; c_type := NamedType "int" |} ];
              u_classes :=
                [ {| cls_name := "A"; cls_parents := [];
                     cls_methods :=
                       [ {| f_name := "f";
                            signatures :=
                              [ {| params :=
                                     [MutableParameter "x" (NamedType "int")
                                        (NamedType "str")];
                                   return_type := UnknownType; exceptions := [];
                                   template := []; has_optional := false |} ] |} ];
                     cls_constants := []; cls_template := [] |} ];
              u_functions := [] |}).
  vm_compute. reflexivity.
Defined.


(** A body of two mutator statements: [p_body_multiple] adds a [Mutator]
    to a list, and the [TypeError] escapes from [Parse]. *)
Lemma two_mutators_raise :
  forall (py_eval : string -> option string),
    Parse py_eval two_mutators None
    = Fails (TypeError "unsupported operand type(s) for +: 'Mutator' and 'list'").
Proof. intros py_eval. vm_compute. reflexivity. Qed.

(** * Further properties *)

(** ** Lookup *)

Lemma dict_get_set (d : Dict) (k k' : string) (v : Item) :
  dict_getitem (dict_setitem d k v) k'
  = if String.eqb k k' then Some v else dict_getitem d k'.
Proof.
  unfold dict_getitem.
  induction d as [|[k0 v0] d IH]; simpl.
  - destruct (String.eqb k k'); reflexivity.
  - destruct (String.eqb_spec k0 k) as [E|E]; simpl.
    + subst k0. destruct (String.eqb k k'); reflexivity.
    + destruct (String.eqb_spec k0 k') as [E'|E']; simpl.
      * subst k0. destruct (String.eqb_spec k k'); [congruence|reflexivity].
      * exact IH.
Qed.

Lemma find_over_app {A : Type} (f : A -> bool) (l1 l2 : list A) :
  find f (l1 ++ l2)
  = match find f l1 with
    | Some x => Some x
    | None => find f l2
    end.
Proof.
  induction l1 as [|a l1 IH]; simpl; [reflexivity|].
  destruct (f a); [reflexivity|exact IH].
Qed.

Lemma name2item_get (items : list Item) (n : string) :
  forall d,
    dict_getitem (fold_left (fun d x => dict_setitem d (item_name x) x) items d) n
    = match last_named n items with
      | Some x => Some x
      | None => dict_getitem d n
      end.
Proof.
  unfold last_named.
  induction items as [|x items IH]; intros d; simpl; [reflexivity|].
  rewrite IH, find_over_app.
  destruct (find (fun x0 => String.eqb (item_name x0) n) (rev items));
    [reflexivity|].
  simpl. rewrite dict_get_set.
  destruct (String.eqb (item_name x) n); reflexivity.
Qed.

(** [Lookup] returns the last item of the name, in the order in which the
    dict is filled, and raises [KeyError] exactly when no item has the
    name. *)
Lemma Lookup_last_named (items : list Item) (n : string) :
  dict_getitem (name2item items) n = last_named n items /\
  (dict_getitem (name2item items) n = None
   <-> forall x, In x items -> item_name x <> n) /\
  (forall x, dict_getitem (name2item items) n = Some x ->
             In x items /\ item_name x = n).
Proof.
  assert (E : dict_getitem (name2item items) n = last_named n items).
  { unfold name2item. rewrite name2item_get.
    destruct (last_named n items); reflexivity. }
  split; [exact E|]. rewrite E. unfold last_named. split.
  - split.
    + intros H x Hx Hn.
      assert (K : In x (rev items)) by (apply in_rev in Hx; exact Hx).
      pose proof (find_none _ _ H x K) as F. simpl in F.
      apply String.eqb_neq in F. exact (F Hn).
    + intros H. destruct (find _ (rev items)) as [x|] eqn:F; [|reflexivity].
      apply find_some in F. destruct F as [Hx Hn].
      apply in_rev in Hx. apply String.eqb_eq in Hn.
      exfalso. exact (H x Hx Hn).
  - intros x F. apply find_some in F. destruct F as [Hx Hn].
    split; [apply in_rev; exact Hx|apply String.eqb_eq; exact Hn].
Qed.

(** X1: [TypeDeclUnit.Lookup] returns the last item of the given name in
    the order constants, functions, classes; it raises [KeyError] exactly
    when the unit has no item of that name, and what it returns is an item
    of the unit with that name. *)
Theorem TypeDeclUnit_Lookup_spec :
  forall (self : TypeDeclUnit) (n : string),
    let items := map ConstantItem (u_constants self)
                 ++ map FunctionItem (u_functions self)
                 ++ map ClassItem (u_classes self) in
    TypeDeclUnit_Lookup self n = last_named n items /\
    (TypeDeclUnit_Lookup self n = None
     <-> forall x, In x items -> item_name x <> n) /\
    (forall x, TypeDeclUnit_Lookup self n = Some x ->
               In x items /\ item_name x = n).
Proof. intros self n items. apply Lookup_last_named. Qed.

Lemma TypeDeclUnit_Lookup_spec_witness :
  In (ConstantItem (mkConstant "x" (NamedType "str")))
     (map ConstantItem [mkConstant "x" (NamedType "int");
                        mkConstant "x" (NamedType "str")]
      ++ map FunctionItem [] ++ map ClassItem []) /\
  item_name (ConstantItem (mkConstant "x" (NamedType "str"))) = "x".
Proof.
  apply (proj2 (proj2 (TypeDeclUnit_Lookup_spec
                         (mkTypeDeclUnit [mkConstant "x" (NamedType "int");
                                          mkConstant "x" (NamedType "str")] [] [])
                         "x"))).
  reflexivity.
Defined.

Lemma last_named_app (n : string) (l1 l2 : list Item) :
  last_named n (l1 ++ l2)
  = match last_named n l2 with
    | Some x => Some x
    | None => last_named n l1
    end.
Proof. unfold last_named. rewrite rev_app_distr. apply find_over_app. Qed.

Lemma last_named_none (n : string) (l : list Item) :
  last_named n l = None <-> (forall x, In x l -> item_name x <> n).
Proof.
  unfold last_named. split.
  - intros H x Hx Hn.
    assert (K : In x (rev l)) by (apply in_rev in Hx; exact Hx).
    pose proof (find_none _ _ H x K) as F. simpl in F.
    apply String.eqb_neq in F. exact (F Hn).
  - intros H. destruct (find _ (rev l)) as [x|] eqn:F; [|reflexivity].
    apply find_some in F. destruct F as [Hx Hn].
    apply in_rev in Hx. apply String.eqb_eq in Hn.
    exfalso. exact (H x Hx Hn).
Qed.

Lemma last_named_some (n : string) (l : list Item) (x : Item) :
  last_named n l = Some x -> In x l /\ item_name x = n.
Proof.
  unfold last_named. intros F. apply find_some in F. destruct F as [Hx Hn].
  split; [apply in_rev; exact Hx|apply String.eqb_eq; exact Hn].
Qed.

(** X2: in [Class.Lookup] a constant hides every method of its name: when
    the class has a constant named [n], the lookup returns a constant of
    the class named [n]; when it has none, the lookup is the lookup among
    the methods. *)
Theorem Class_Lookup_constant_hides_method :
  forall (self : Class) (n : string),
    ((exists c, In c (cls_constants self) /\ c_name c = n) ->
     exists c, Class_Lookup self n = Some (ConstantItem c) /\
               In c (cls_constants self) /\ c_name c = n) /\
    ((forall c, In c (cls_constants self) -> c_name c <> n) ->
     Class_Lookup self n = last_named n (map FunctionItem (cls_methods self))).
Proof.
  intros self n. unfold Class_Lookup.
  rewrite (proj1 (Lookup_last_named _ n)), last_named_app.
  split.
  - intros (c & Hc & Hn).
    destruct (last_named n (map ConstantItem (cls_constants self))) as [x|] eqn:F.
    + apply last_named_some in F. destruct F as [Hx Hxn].
      apply in_map_iff in Hx. destruct Hx as (c' & <- & Hc').
      exists c'. auto.
    + exfalso. rewrite last_named_none in F.
      apply (F (ConstantItem c)); [apply in_map; exact Hc|exact Hn].
  - intros H.
    replace (last_named n (map ConstantItem (cls_constants self))) with (@None Item);
      [reflexivity|].
    symmetry. apply last_named_none. intros x Hx.
    apply in_map_iff in Hx. destruct Hx as (c & <- & Hc). apply H. exact Hc.
Qed.

Lemma Class_Lookup_constant_hides_method_witness :
  exists c,
    Class_Lookup
      (mkClass "A" []
         [mkFunction "x" [mkSignature [] UnknownType [] [] false]]
         [mkConstant "x" (NamedType "int")] [])
      "x" = Some (ConstantItem c) /\
    In c [mkConstant "x" (NamedType "int")] /\ c_name c = "x".
Proof.
  apply (proj1 (Class_Lookup_constant_hides_method
                  (mkClass "A" []
                     [mkFunction "x" [mkSignature [] UnknownType [] [] false]]
                     [mkConstant "x" (NamedType "int")] [])
                  "x")).
  exists (mkConstant "x" (NamedType "int")). split; [left; reflexivity|reflexivity].
Defined.

(** ** The unit built by [p_unit] *)

Lemma signatures_under_nonempty (n : string) (l : list NameAndSig) :
  In n (map name l) -> signatures_under n l <> [].
Proof.
  unfold signatures_under. intros H. apply in_map_iff in H.
  destruct H as (x & Hn & Hx).
  assert (K : In x (filter (fun ns => String.eqb (name ns) n) l)).
  { apply filter_In. split; [exact Hx|apply String.eqb_eq; exact Hn]. }
  destruct (filter _ l); [destruct K|discriminate].
Qed.

Lemma count_one (a : string) (ks : list string) :
  NoDup ks -> In a ks ->
  list_sum (map (fun k => if String.eqb a k then 1 else 0) ks) = 1.
Proof.
  induction 1 as [|k ks Hn Hd IH]; simpl; intros Hin; [destruct Hin|].
  destruct (String.eqb_spec a k) as [E|E].
  - subst k. replace (list_sum _) with 0; [reflexivity|].
    symmetry. clear IH Hd Hin. induction ks as [|k ks IH]; [reflexivity|].
    simpl. destruct (String.eqb_spec a k) as [E|E].
    + exfalso. apply Hn. left. symmetry. exact E.
    + apply IH. intros H. apply Hn. right. exact H.
  - apply IH. destruct Hin as [H|H]; [congruence|exact H].
Qed.

Lemma grouped_count (ks : list string) (l : list NameAndSig) :
  NoDup ks -> (forall x, In x l -> In (name x) ks) ->
  list_sum (map (fun k => length (signatures_under k l)) ks) = length l.
Proof.
  intros Hd. induction l as [|x l IH]; intros Hl.
  - simpl. clear. induction ks; [reflexivity|exact IHks].
  - assert (E : list_sum (map (fun k => length (signatures_under k (x :: l))) ks)
                = list_sum (map (fun k => if String.eqb (name x) k then 1 else 0) ks)
                  + list_sum (map (fun k => length (signatures_under k l)) ks)).
    { clear. induction ks as [|k ks IHk]; [reflexivity|].
      simpl map. simpl list_sum. rewrite IHk, signatures_under_cons, length_app.
      destruct (String.eqb (name x) k); simpl; lia. }
    rewrite E, (count_one (name x) ks Hd (Hl x (or_introl eq_refl))).
    rewrite IH by (intros y Hy; apply Hl; right; exact Hy). reflexivity.
Qed.

(** X3: [MergeSignatures] loses and adds no signature: every function it
    returns has at least one signature, and the functions together hold as
    many signatures as the list has pairs. *)
Theorem MergeSignatures_partition :
  forall (l : list NameAndSig),
    (forall f, In f (MergeSignatures l) -> signatures f <> []) /\
    list_sum (map (fun f => length (signatures f)) (MergeSignatures l))
    = length l.
Proof.
  intros l. rewrite MergeSignatures_closed_form. split.
  - intros f Hf. apply in_map_iff in Hf. destruct Hf as (n & <- & Hn).
    simpl. apply signatures_under_nonempty. apply first_seen_In. exact Hn.
  - rewrite map_map. simpl.
    apply grouped_count; [apply first_seen_NoDup|].
    intros x Hx. apply first_seen_In. apply in_map. exact Hx.
Qed.

Lemma MergeSignatures_partition_witness :
  signatures (mkFunction "f" [mkSignature [] UnknownType [] [] false]) <> [].
Proof.
  apply (proj1 (MergeSignatures_partition
                  [mkNameAndSig "f" (mkSignature [] UnknownType [] [] false)])).
  left. reflexivity.
Defined.

Lemma Parse_returns_p_unit (py_eval : string -> option string) (fuel : nat)
    (text : string) (filename : option string) (u : TypeDeclUnit) :
  Parse_fuel py_eval fuel text filename = Returns u ->
  exists alldefs,
    p_unit (list_ascii_of_string text) (filename_or_placeholder filename) alldefs
    = inr u.
Proof.
  unfold Parse_fuel. intros H.
  destruct (tokens_of _ _ _ _ _ _) as [tokens lex_end].
  destruct (parse_alldefs _ _ _ _ _) as [s|[alldefs rest]].
  - destruct s; try discriminate H; destruct lex_end; discriminate H.
  - exists alldefs. destruct lex_end; try discriminate H.
    destruct (p_unit _ _ alldefs); [discriminate H|]. congruence.
Qed.

Lemma p_unit_returns (data : list ascii) (filename : string) (alldefs : list Def)
    (u : TypeDeclUnit) :
  p_unit data filename alldefs = inr u ->
  u = {| u_constants := constants_of alldefs;
         u_functions := MergeSignatures (funcdefs_of alldefs);
         u_classes := classes_of alldefs |} /\
  intersects (map name (funcdefs_of alldefs)) (map c_name (constants_of alldefs))
  = false /\
  intersects (map c_name (constants_of alldefs)) (map cls_name (classes_of alldefs))
  = false /\
  intersects (map cls_name (classes_of alldefs)) (map name (funcdefs_of alldefs))
  = false.
Proof.
  unfold p_unit.
  destruct (intersects (map name _) (map c_name _)); [discriminate|].
  destruct (intersects (map c_name _) (map cls_name _)); [discriminate|].
  destruct (intersects (map cls_name _) (map name _)); [discriminate|].
  simpl. intros H. inversion H. auto.
Qed.

Lemma MergeSignatures_names (l : list NameAndSig) (n : string) :
  In n (map f_name (MergeSignatures l)) <-> In n (map name l).
Proof.
  rewrite MergeSignatures_closed_form, map_map. simpl. rewrite map_id.
  apply first_seen_In.
Qed.

Lemma MergeSignatures_NoDup (l : list NameAndSig) :
  NoDup (map f_name (MergeSignatures l)).
Proof.
  rewrite MergeSignatures_closed_form, map_map. simpl. rewrite map_id.
  apply first_seen_NoDup.
Qed.

Lemma parsed_unit_invariant (py_eval : string -> option string) (fuel : nat)
    (text : string) (filename : option string) (u : TypeDeclUnit) :
  Parse_fuel py_eval fuel text filename = Returns u ->
  (forall n, In n (map f_name (u_functions u)) ->
             ~ In n (map c_name (u_constants u))) /\
  (forall n, In n (map c_name (u_constants u)) ->
             ~ In n (map cls_name (u_classes u))) /\
  (forall n, In n (map cls_name (u_classes u)) ->
             ~ In n (map f_name (u_functions u))) /\
  NoDup (map f_name (u_functions u)) /\
  (forall f, In f (u_functions u) -> signatures f <> []).
Proof.
  intros H.
  destruct (Parse_returns_p_unit _ _ _ _ _ H) as (alldefs & Hu).
  apply p_unit_returns in Hu. destruct Hu as (-> & H1 & H2 & H3). simpl.
  rewrite intersects_false in H1, H2, H3.
  split; [|split; [|split; [|split]]].
  - intros n Hn. apply H1. apply MergeSignatures_names. exact Hn.
  - exact H2.
  - intros n Hn Hf. apply (H3 n Hn). apply MergeSignatures_names. exact Hf.
  - apply MergeSignatures_NoDup.
  - intros f Hf. rewrite MergeSignatures_closed_form in Hf.
    apply in_map_iff in Hf. destruct Hf as (n & <- & Hn). simpl.
    apply signatures_under_nonempty. apply first_seen_In. exact Hn.
Qed.

(** X4: in the unit that [Parse] returns, no name is shared between two of
    the three kinds constants, functions and classes, no two functions have
    the same name, and every function has at least one signature. *)
Theorem Parse_unit_invariant :
  forall (py_eval : string -> option string) (fuel : nat) (text : string)
         (filename : option string) (u : TypeDeclUnit),
    Parse_fuel py_eval fuel text filename = Returns u ->
    (forall n, In n (map f_name (u_functions u)) ->
               ~ In n (map c_name (u_constants u))) /\
    (forall n, In n (map c_name (u_constants u)) ->
               ~ In n (map cls_name (u_classes u))) /\
    (forall n, In n (map cls_name (u_classes u)) ->
               ~ In n (map f_name (u_functions u))) /\
    NoDup (map f_name (u_functions u)) /\
    (forall f, In f (u_functions u) -> signatures f <> []).
Proof. intros. eapply parsed_unit_invariant. eassumption. Qed.

Lemma Parse_unit_invariant_witness :
  NoDup (map f_name
           [ {| f_name := "f";
                signatures :=
                  [ {| params := [Parameter_ "x" (NamedType "int")];
                       return_type := UnknownType; exceptions := [];
                       template := []; has_optional := false |};
                    {| params := [Parameter_ "y" (NamedType "object")];
                       return_type := NamedType "int"; exceptions := [];
                       template := []; has_optional := false |} ] |} ]).
Proof.
  apply (Parse_unit_invariant eval_no_escapes 100 two_defs_of_f None
           {| u_constants := []; u_classes := [];
              u_functions :=
                [ {| f_name := "f";
                     signatures :=
                       [ {| params := [Parameter_ "x" (NamedType "int")];
                            return_type := UnknownType; exceptions := [];
                            template := []; has_optional := false |};
                         {| params := [Parameter_ "y" (NamedType "object")];
                            return_type := NamedType "int"; exceptions := [];
                            template := []; has_optional := false |} ] |} ] |}).
  vm_compute. reflexivity.
Defined.

Lemma unique_by_name (fs : list Function) (f g : Function) :
  NoDup (map f_name fs) -> In f fs -> In g fs -> f_name f = f_name g -> f = g.
Proof.
  induction fs as [|h fs IH]; simpl; intros Hd Hf Hg E; [destruct Hf|].
  inversion Hd as [|? ? Hn Hd']; subst.
  destruct Hf as [Hf|Hf], Hg as [Hg|Hg]; subst.
  - reflexivity.
  - exfalso. apply Hn. rewrite E. apply in_map. exact Hg.
  - exfalso. apply Hn. rewrite <- E. apply in_map. exact Hf.
  - apply IH; assumption.
Qed.

(** X5: every function of the unit that [Parse] returns is found by
    [Lookup] under its name. *)
Theorem Lookup_finds_parsed_function :
  forall (py_eval : string -> option string) (fuel : nat) (text : string)
         (filename : option string) (u : TypeDeclUnit) (f : Function),
    Parse_fuel py_eval fuel text filename = Returns u ->
    In f (u_functions u) ->
    TypeDeclUnit_Lookup u (f_name f) = Some (FunctionItem f).
Proof.
  intros py_eval fuel text filename u f H Hf.
  destruct (parsed_unit_invariant _ _ _ _ _ H) as (_ & _ & H3 & Hd & _).
  unfold TypeDeclUnit_Lookup.
  rewrite (proj1 (Lookup_last_named _ _)), !last_named_app.
  replace (last_named (f_name f) (map ClassItem (u_classes u))) with (@None Item).
  2:{ symmetry. apply last_named_none. intros x Hx Hn.
      apply in_map_iff in Hx. destruct Hx as (c & <- & Hc). simpl in Hn.
      apply (H3 (f_name f)); [rewrite <- Hn; apply in_map; exact Hc|].
      apply in_map. exact Hf. }
  destruct (last_named (f_name f) (map FunctionItem (u_functions u)))
    as [x|] eqn:F.
  - apply last_named_some in F. destruct F as [Hx Hn].
    apply in_map_iff in Hx. destruct Hx as (g & <- & Hg). simpl in Hn.
    f_equal. f_equal. apply (unique_by_name (u_functions u)); assumption.
  - exfalso. rewrite last_named_none in F.
    apply (F (FunctionItem f)); [apply in_map; exact Hf|reflexivity].
Qed.

Lemma Lookup_finds_parsed_function_witness :
  TypeDeclUnit_Lookup
    {| u_constants := []; u_classes := [];
       u_functions :=
         [ {| f_name := "f";
              signatures :=
                [ {| params := [Parameter_ "x" (NamedType "int")];
                     return_type := UnknownType; exceptions := [];
                     template := []; has_optional := false |};
                  {| params := [Parameter_ "y" (NamedType "object")];
                     return_type := NamedType "int"; exceptions := [];
                     template := []; has_optional := false |} ] |} ] |}
    "f"
  = Some (FunctionItem
            {| f_name := "f";
               signatures :=
                 [ {| params := [Parameter_ "x" (NamedType "int")];
                      return_type := UnknownType; exceptions := [];
                      template := []; has_optional := false |};
                   {| params := [Parameter_ "y" (NamedType "object")];
                      return_type := NamedType "int"; exceptions := [];
                      template := []; has_optional := false |} ] |}).
Proof.
  apply (Lookup_finds_parsed_function eval_no_escapes 100 two_defs_of_f None
           {| u_constants := []; u_classes := [];
              u_functions :=
                [ {| f_name := "f";
                     signatures :=
                       [ {| params := [Parameter_ "x" (NamedType "int")];
                            return_type := UnknownType; exceptions := [];
                            template := []; has_optional := false |};
                         {| params := [Parameter_ "y" (NamedType "object")];
                            return_type := NamedType "int"; exceptions := [];
                            template := []; has_optional := false |} ] |} ] |}
           {| f_name := "f";
              signatures :=
                [ {| params := [Parameter_ "x" (NamedType "int")];
                     return_type := UnknownType; exceptions := [];
                     template := []; has_optional := false |};
                  {| params := [Parameter_ "y" (NamedType "object")];
                     return_type := NamedType "int"; exceptions := [];
                     template := []; has_optional := false |} ] |}).
  - vm_compute. reflexivity.
  - left. reflexivity.
Defined.

(** ** Chains of names *)

Lemma atom_name (f : nat) (n : string) (op : TokenType) (names : list string) :
  op = OR \/ op = AND ->
  parse_atom (S f) (name_token n :: chain_rest op names)
  = inr (NamedType n, chain_rest op names).
Proof.
  intros Hop. simpl.
  destruct names as [|m names]; [reflexivity|].
  destruct Hop as [-> | ->]; reflexivity.
Qed.

Lemma binary_rest_op (op : TokenType) (action : Type_ -> Type_ -> Type_)
    (operand : list LexToken -> Parsed Type_) (fuel : nat) (lhs : Type_)
    (ts : list LexToken) :
  binary_rest op action operand (S fuel) lhs (op_token op :: ts)
  = match operand ts with
    | inr (rhs, ts1) => binary_rest op action operand fuel (action lhs rhs) ts1
    | inl stop => inl stop
    end.
Proof.
  simpl. replace (TokenType_eqb op op) with true; [reflexivity|].
  symmetry. apply TokenType_eqb_eq. reflexivity.
Qed.

Lemma and_rest_names (f : nat) (names : list string) :
  forall fuel l,
    length names < fuel ->
    binary_rest AND p_type_and (parse_atom (S f)) fuel (IntersectionType l)
      (chain_rest AND names)
    = inr (IntersectionType (l ++ map NamedType names), []).
Proof.
  induction names as [|n names IH]; intros fuel l Hf.
  - destruct fuel; [inversion Hf|]. simpl. rewrite app_nil_r. reflexivity.
  - destruct fuel; [inversion Hf|]. simpl in Hf.
    cbn [chain_rest]. rewrite binary_rest_op.
    rewrite (atom_name f n AND names (or_intror eq_refl)).
    cbn [p_type_and]. rewrite IH by lia. rewrite <- app_assoc. reflexivity.
Qed.

Lemma and_level_name (f fuel : nat) (n : string) (names : list string) :
  and_level (parse_atom (S f)) (S fuel) (name_token n :: chain_rest OR names)
  = inr (NamedType n, chain_rest OR names).
Proof.
  unfold and_level. rewrite (atom_name f n OR names (or_introl eq_refl)).
  destruct names; reflexivity.
Qed.

Lemma or_rest_names (f g : nat) (names : list string) :
  forall fuel l,
    length names < fuel ->
    binary_rest OR p_type_or (and_level (parse_atom (S f)) (S g)) fuel
      (UnionType l) (chain_rest OR names)
    = inr (UnionType (l ++ map NamedType names), []).
Proof.
  induction names as [|n names IH]; intros fuel l Hf.
  - destruct fuel; [inversion Hf|]. simpl. rewrite app_nil_r. reflexivity.
  - destruct fuel; [inversion Hf|]. simpl in Hf.
    cbn [chain_rest]. rewrite binary_rest_op.
    rewrite and_level_name.
    cbn [p_type_or]. rewrite IH by lia. rewrite <- app_assoc. reflexivity.
Qed.

(** X6: a chain [n1 or n2 or ... or nk] of two or more names parses to one
    [UnionType] whose members are the names in their order, and a chain
    with [and] to one [IntersectionType], whatever the length of the chain,
    as soon as the fuel exceeds the number of names. *)
Theorem chain_of_names_flattens :
  forall (fuel : nat) (a b : string) (names : list string),
    length names + 2 < fuel ->
    parse_type fuel (name_token a :: chain_rest OR (b :: names))
    = inr (UnionType (map NamedType (a :: b :: names)), []) /\
    parse_type fuel (name_token a :: chain_rest AND (b :: names))
    = inr (IntersectionType (map NamedType (a :: b :: names)), []).
Proof.
  intros fuel a b names Hf.
  destruct fuel as [|[|fuel]]; try lia.
  split.
  - unfold parse_type, or_level. rewrite and_level_name.
    cbn [chain_rest]. rewrite binary_rest_op, and_level_name. cbn [p_type_or].
    rewrite or_rest_names by lia. reflexivity.
  - unfold parse_type, or_level, and_level.
    rewrite (atom_name (S fuel) a AND (b :: names) (or_intror eq_refl)).
    cbn [chain_rest]. rewrite binary_rest_op.
    rewrite (atom_name (S fuel) b AND names (or_intror eq_refl)).
    cbn [p_type_and]. rewrite and_rest_names by lia. reflexivity.
Qed.

Lemma chain_of_names_flattens_witness :
  parse_type 5 (name_token "a" :: chain_rest OR ["b"; "c"])
  = inr (UnionType (map NamedType ["a"; "b"; "c"]), []).
Proof.
  apply (proj1 (chain_of_names_flattens 5 "a" "b" ["c"] ltac:(simpl; lia))).
Defined.

(** ** The shape of parsed type expressions *)

Lemma aggregate_wf (l : list Type_) (t : Type_) :
  (2 <=? length l) && forallb well_formed l = true ->
  well_formed t = true ->
  (2 <=? length (l ++ [t])) && forallb well_formed (l ++ [t]) = true /\
  (2 <=? length (t :: l)) && forallb well_formed (t :: l) = true.
Proof.
  intros H Ht. apply andb_prop in H. destruct H as [Hl Hw].
  apply Nat.leb_le in Hl. split; apply andb_true_intro; split.
  - apply Nat.leb_le. rewrite length_app. simpl. lia.
  - rewrite forallb_app, Hw. simpl. rewrite Ht. reflexivity.
  - apply Nat.leb_le. simpl. lia.
  - simpl. rewrite Ht, Hw. reflexivity.
Qed.

Lemma aggregate_wf_1 (l : list Type_) (t : Type_) :
  (1 <=? length l) && forallb well_formed l = true ->
  well_formed t = true ->
  (2 <=? length (l ++ [t])) && forallb well_formed (l ++ [t]) = true /\
  (1 <=? length (l ++ [t])) && forallb well_formed (l ++ [t]) = true.
Proof.
  intros H Ht. apply andb_prop in H. destruct H as [Hl Hw].
  apply Nat.leb_le in Hl. split; apply andb_true_intro; split.
  - apply Nat.leb_le. rewrite length_app. simpl. lia.
  - rewrite forallb_app, Hw. simpl. rewrite Ht. reflexivity.
  - apply Nat.leb_le. rewrite length_app. simpl. lia.
  - rewrite forallb_app, Hw. simpl. rewrite Ht. reflexivity.
Qed.

Lemma p_type_or_wf (a b : Type_) :
  well_formed a = true -> well_formed b = true ->
  well_formed (p_type_or a b) = true.
Proof.
  intros Ha Hb.
  assert (Hpair : well_formed (UnionType [a; b]) = true).
  { simpl. rewrite Ha, Hb. reflexivity. }
  destruct a; destruct b; try exact Hpair; cbn [p_type_or].
  - cbn [well_formed]. apply (aggregate_wf _ _ Hb Ha).
  - cbn [well_formed]. apply (aggregate_wf _ _ Ha Hb).
Qed.

Lemma p_type_and_wf (a b : Type_) :
  well_formed a = true -> well_formed b = true ->
  well_formed (p_type_and a b) = true.
Proof.
  intros Ha Hb.
  assert (Hpair : well_formed (IntersectionType [a; b]) = true).
  { simpl. rewrite Ha, Hb. reflexivity. }
  destruct a; destruct b; try exact Hpair; cbn [p_type_and].
  - cbn [well_formed]. apply (aggregate_wf _ _ Hb Ha).
  - cbn [well_formed]. apply (aggregate_wf _ _ Ha Hb).
Qed.

Lemma binary_rest_wf (op : TokenType) (action : Type_ -> Type_ -> Type_)
    (operand : list LexToken -> Parsed Type_) :
  (forall a b, well_formed a = true -> well_formed b = true ->
               well_formed (action a b) = true) ->
  (forall ts v rest, operand ts = inr (v, rest) -> well_formed v = true) ->
  forall fuel lhs ts v rest,
    well_formed lhs = true ->
    binary_rest op action operand fuel lhs ts = inr (v, rest) ->
    well_formed v = true.
Proof.
  intros Hact Hop fuel.
  induction fuel as [|fuel IH]; intros lhs ts v rest Hl E; simpl in E;
    [discriminate E|].
  destruct (next_is op ts).
  - destruct (operand (tl ts)) as [s|[rhs ts1]] eqn:Eo; [discriminate E|].
    apply (IH _ _ _ _ (Hact _ _ Hl (Hop _ _ _ Eo)) E).
  - inversion E; subst. exact Hl.
Qed.

Lemma or_level_wf (atom : list LexToken -> Parsed Type_) (fuel : nat) :
  (forall ts v rest, atom ts = inr (v, rest) -> well_formed v = true) ->
  forall ts v rest, or_level atom fuel ts = inr (v, rest) -> well_formed v = true.
Proof.
  intros Ha.
  assert (Hand : forall ts v rest,
             and_level atom fuel ts = inr (v, rest) -> well_formed v = true).
  { intros ts v rest E. unfold and_level in E.
    destruct (atom ts) as [s|[lhs ts1]] eqn:Ea; [discriminate E|].
    apply (binary_rest_wf AND p_type_and atom p_type_and_wf Ha _ _ _ _ _
             (Ha _ _ _ Ea) E). }
  intros ts v rest E. unfold or_level in E.
  destruct (and_level atom fuel ts) as [s|[lhs ts1]] eqn:Ea; [discriminate E|].
  apply (binary_rest_wf OR p_type_or (and_level atom fuel) p_type_or_wf Hand
           _ _ _ _ _ (Hand _ _ _ Ea) E).
Qed.

Lemma parameters_rest_wf (item : list LexToken -> Parsed Type_) :
  (forall ts v rest, item ts = inr (v, rest) -> well_formed v = true) ->
  forall fuel acc ts ps rest,
    (1 <=? length acc) && forallb well_formed acc = true ->
    parameters_rest item fuel acc ts = inr (ps, rest) ->
    (1 <=? length (fst ps)) && forallb well_formed (fst ps) = true.
Proof.
  intros Hi fuel.
  induction fuel as [|fuel IH]; intros acc ts ps rest Hacc E; simpl in E;
    [discriminate E|].
  destruct ts as [|t r]; [discriminate E|].
  destruct (tok_type t); try discriminate E.
  - destruct (next_is RBRACKET r).
    + inversion E; subst. exact Hacc.
    + destruct (item r) as [s|[x ts1]] eqn:Ei; [discriminate E|].
      apply (IH _ _ _ _ (proj2 (aggregate_wf_1 _ _ Hacc (Hi _ _ _ Ei))) E).
  - inversion E; subst. exact Hacc.
Qed.

Lemma p_type_homogeneous_wf (n : string) (ps : list Type_) :
  (1 <=? length ps) && forallb well_formed ps = true ->
  well_formed (p_type_homogeneous n ps) = true.
Proof.
  intros H. destruct ps as [|t [|u ps]]; [discriminate H| |].
  - simpl in *. rewrite andb_true_r in H. exact H.
  - cbn [p_type_homogeneous well_formed is_NamedType]. exact H.
Qed.

Lemma parse_atom_wf (fuel : nat) :
  forall ts v rest, parse_atom fuel ts = inr (v, rest) -> well_formed v = true.
Proof.
  induction fuel as [|fuel IH]; intros ts v rest E; simpl in E;
    [discriminate E|].
  pose proof (or_level_wf (parse_atom fuel) fuel IH) as Htype.
  destruct ts as [|t r]; [discriminate E|].
  destruct (tok_type t); try discriminate E.
  - (* LPAREN *)
    destruct (or_level (parse_atom fuel) fuel r) as [s|[inner ts1]] eqn:Ei;
      [discriminate E|].
    destruct (expect RPAREN ts1) as [s|[tk ts2]]; [discriminate E|].
    inversion E; subst. exact (Htype _ _ _ Ei).
  - (* NAME *)
    destruct (next_is LBRACKET r).
    + destruct (or_level (parse_atom fuel) fuel (tl r)) as [s|[first ts1]] eqn:Ef;
        [discriminate E|].
      destruct (parameters_rest _ fuel [first] ts1) as [s|[ps ts2]] eqn:Ep;
        [discriminate E|].
      assert (Hps : (1 <=? length (fst ps)) && forallb well_formed (fst ps) = true).
      { refine (parameters_rest_wf _ Htype _ _ _ _ _ _ Ep).
        cbn [length forallb Nat.leb]. rewrite (Htype _ _ _ Ef). reflexivity. }
      destruct (snd ps); inversion E; subst.
      * cbn [p_type_generic_1 well_formed is_NamedType]. exact Hps.
      * apply p_type_homogeneous_wf. exact Hps.
    + inversion E; subst. reflexivity.
  - inversion E; subst. destruct (tok_value t); reflexivity.
  - inversion E; subst. reflexivity.
  - inversion E; subst. destruct (tok_value t); reflexivity.
  - inversion E; subst. reflexivity.
Qed.

(** X7: every type expression that the parser returns has the shape of the
    grammar: its unions and intersections have two members or more, the
    base of every parameterized type is a name, every [GenericType] has a
    parameter or more, and no [ClassType] occurs in it. *)
Theorem parsed_types_are_well_formed :
  forall (fuel : nat) (ts : list LexToken) (t : Type_) (rest : list LexToken),
    parse_type fuel ts = inr (t, rest) -> well_formed t = true.
Proof.
  intros fuel ts t rest E.
  exact (or_level_wf (parse_atom fuel) fuel (parse_atom_wf fuel) _ _ _ E).
Qed.

Lemma parsed_types_are_well_formed_witness :
  well_formed (UnionType (map NamedType ["a"; "b"; "c"])) = true.
Proof.
  apply (parsed_types_are_well_formed 5
           (name_token "a" :: chain_rest OR ["b"; "c"])
           (UnionType (map NamedType ["a"; "b"; "c"])) []).
  vm_compute. reflexivity.
Defined.

(** ** The lexer's place in the text *)

Lemma span_decompose (p : ascii -> bool) (l : list ascii) :
  l = fst (span p l) ++ snd (span p l).
Proof.
  induction l as [|c l IH]; simpl; [reflexivity|].
  destruct (p c); [|reflexivity].
  destruct (span p l) as [a b]. simpl in *. f_equal. exact IH.
Qed.

Lemma break_at_decompose (q : ascii) (l a b : list ascii) :
  break_at q l = Some (a, b) -> l = a ++ q :: b.
Proof.
  revert a b. induction l as [|c l IH]; simpl; intros a b E; [discriminate E|].
  destruct (Ascii.eqb_spec c q) as [Hq|Hq].
  - inversion E; subst. reflexivity.
  - destruct (break_at q l) as [[a' b']|]; [|discriminate E].
    inversion E; subst. simpl. f_equal. apply IH. reflexivity.
Qed.

Lemma match_NAME_decompose (input value rest : list ascii) :
  match_NAME input = Some (value, rest) -> input = value ++ rest /\ value <> [].
Proof.
  unfold match_NAME. destruct input as [|c r]; [discriminate|].
  destruct (is_name_start c).
  - pose proof (span_decompose is_name_char r) as H.
    destruct (span is_name_char r) as [body rest']. simpl in H.
    intros E. inversion E; subst. split; [simpl; f_equal; exact H|discriminate].
  - destruct (Ascii.eqb_spec c BACKTICK) as [Hc|Hc]; [|discriminate].
    destruct (break_at BACKTICK r) as [[inner rest']|] eqn:Eb; [|discriminate].
    intros E. inversion E; subst. split; [|discriminate].
    apply break_at_decompose in Eb. subst r. simpl.
    rewrite <- app_assoc. reflexivity.
Qed.

Lemma match_STRING_decompose (input value rest : list ascii) :
  match_STRING input = Some (value, rest) -> input = value ++ rest /\ value <> [].
Proof.
  unfold match_STRING. destruct input as [|c r]; [discriminate|].
  destruct (Ascii.eqb c SQUOTE || Ascii.eqb c DQUOTE); [|discriminate].
  destruct (break_at c r) as [[inner rest']|] eqn:Eb; [|discriminate].
  intros E. inversion E; subst. split; [|discriminate].
  apply break_at_decompose in Eb. subst r. simpl.
  rewrite <- app_assoc. reflexivity.
Qed.

Lemma match_NUMBER_decompose (input value rest : list ascii) :
  match_NUMBER input = Some (value, rest) -> input = value ++ rest /\ value <> [].
Proof.
  unfold match_NUMBER.
  assert (K : forall (sign r1 : list ascii),
             input = sign ++ r1 ->
             (let (digits, r2) := span is_digit r1 in
              match digits with
              | [] => None
              | _ :: _ =>
                  match r2 with
                  | c :: r3 =>
                      if Ascii.eqb c "."
                      then let (frac, r4) := span is_digit r3 in
                           Some (sign ++ digits ++ c :: frac, r4)
                      else Some (sign ++ digits, r2)
                  | [] => Some (sign ++ digits, r2)
                  end
              end) = Some (value, rest) ->
             input = value ++ rest /\ value <> []).
  { intros sign r1 Hin.
    pose proof (span_decompose is_digit r1) as H1.
    destruct (span is_digit r1) as [digits r2]. simpl in H1.
    destruct digits as [|d ds]; [discriminate|].
    assert (Hne : forall (x : list ascii), sign ++ (d :: ds) ++ x <> []).
    { intros x. destruct sign; discriminate. }
    assert (Hne' : sign ++ d :: ds <> []).
    { destruct sign; discriminate. }
    subst r1. subst input.
    destruct r2 as [|c r3].
    - intros E. inversion E; subst. split; [|exact Hne'].
      rewrite !app_nil_r. reflexivity.
    - destruct (Ascii.eqb c ".").
      + pose proof (span_decompose is_digit r3) as H3.
        destruct (span is_digit r3) as [frac r4]. simpl in H3.
        intros E. inversion E; subst. split; [|apply Hne].
        repeat (rewrite <- app_assoc; simpl). reflexivity.
      + intros E. inversion E; subst. split; [|exact Hne'].
        rewrite <- app_assoc. reflexivity. }
  destruct input as [|c r].
  - apply (K [] []). reflexivity.
  - destruct (Ascii.eqb c "-" || Ascii.eqb c "+").
    + apply (K [c] r). reflexivity.
    + apply (K [] (c :: r)). reflexivity.
Qed.

Lemma skipn_all_app (value rest : list ascii) :
  skipn (length value) (value ++ rest) = rest.
Proof. induction value as [|c v IH]; simpl; [reflexivity|exact IH]. Qed.

Lemma skipn_but_last (value rest : list ascii) (d : ascii) :
  value <> [] ->
  skipn (length value - 1) (value ++ rest) = last value d :: rest.
Proof.
  induction value as [|c v IH]; intros H; [congruence|].
  destruct v as [|c' v']; [reflexivity|].
  specialize (IH ltac:(discriminate)).
  replace (length (c :: c' :: v') - 1) with (S (length (c' :: v') - 1))
    by (simpl; lia).
  change (skipn (length (c' :: v') - 1) ((c' :: v') ++ rest)
          = last (c' :: v') d :: rest).
  exact IH.
Qed.

Lemma span_covers (l : list ascii) :
  forall n,
    n <= length l ->
    (forall j, j < n -> nth_error l j <> Some LF) ->
    n <= length (fst (span (fun c => negb (Ascii.eqb c LF)) l)) /\
    (forall j, j < n ->
               nth_error (fst (span (fun c => negb (Ascii.eqb c LF)) l)) j
               = nth_error l j).
Proof.
  induction l as [|c l IH]; intros n Hn H.
  - simpl in Hn. split; [simpl; lia|intros j Hj; lia].
  - destruct n as [|n]; [split; [lia|intros j Hj; lia]|].
    simpl. destruct (Ascii.eqb_spec c LF) as [E|E].
    + exfalso. apply (H 0); [lia|]. simpl. congruence.
    + simpl. destruct (IH n) as [H1 H2].
      * simpl in Hn. lia.
      * intros j Hj. apply (H (S j)). lia.
      * destruct (span _ l) as [a b]. simpl in *. split; [lia|].
        intros [|j] Hj; [reflexivity|]. simpl. apply H2. lia.
Qed.

Lemma str_length (l : list ascii) : String.length (str l) = length l.
Proof.
  unfold str. induction l as [|c l IH]; simpl; [reflexivity|]. f_equal. exact IH.
Qed.

Lemma make_syntax_error_pointed (data : list ascii) (fname msg : string)
    (p_lineno p_lexpos : nat) :
  p_lexpos <= length data ->
  (msg = "Use spaces, not tabs" -> nth_error data p_lexpos = Some TAB) ->
  (forall c, msg = ("Illegal character '" ++ String c "'")%string ->
             nth_error data p_lexpos = Some c /\ c <> LF) ->
  pointed (make_syntax_error data fname msg (AtToken p_lineno p_lexpos)).
Proof.
  intros Hpos Htab Hill. simpl.
  destruct (last_line_offset_spec data p_lexpos) as (H1 & _ & H3).
  set (start := last_line_offset data p_lexpos) in *.
  assert (Hskip : forall j, nth_error (skipn start data) j
                            = nth_error data (start + j)).
  { intros j. apply nth_error_skipn. }
  assert (Hcover : forall n,
             start + n <= length data ->
             (forall j, j < n -> nth_error data (start + j) <> Some LF) ->
             n <= length (line_from data start) /\
             (forall j, j < n -> nth_error (line_from data start) j
                                 = nth_error data (start + j))).
  { intros n Hn Hj. unfold line_from.
    destruct (span_covers (skipn start data) n) as [A B].
    - rewrite length_skipn. lia.
    - intros j Hlt. rewrite Hskip. apply Hj. exact Hlt.
    - split; [exact A|]. intros j Hlt. rewrite B by exact Hlt. apply Hskip. }
  assert (Hchar : forall c, nth_error data p_lexpos = Some c -> c <> LF ->
                            nth_error (line_from data start) (p_lexpos - start)
                            = Some c).
  { intros c Hc Hne.
    destruct (Hcover (S (p_lexpos - start))) as [_ B].
    - assert (p_lexpos < length data) by (apply nth_error_Some; congruence). lia.
    - intros j Hj. destruct (Nat.eq_dec (start + j) p_lexpos) as [E|E].
      + rewrite E, Hc. congruence.
      + apply H3. lia.
    - rewrite B by lia. replace (start + (p_lexpos - start)) with p_lexpos by lia.
      exact Hc. }
  rewrite str_length. unfold str. rewrite list_ascii_of_string_of_list_ascii.
  replace (Z.to_nat (Z.of_nat p_lexpos - Z.of_nat start + 1 - 1))
    with (p_lexpos - start) by lia.
  split; [|split].
  - destruct (Hcover (p_lexpos - start)) as [A _]; [lia| |lia].
    intros j Hj. apply H3. lia.
  - intros Hm. apply Hchar; [apply Htab; exact Hm|].
    intros E. discriminate E.
  - intros c Hm. destruct (Hill c Hm) as [Hc Hne]. apply Hchar; assumption.
Qed.

Lemma pop_queued_descending (indent : nat) (stack : list nat) :
  forall queued s' q',
    pop_queued indent stack queued = Some (s', q') ->
    descending stack -> descending s'.
Proof.
  induction stack as [|top below IH]; intros queued s' q' E Hd; simpl in E;
    [discriminate E|].
  destruct (indent <? top).
  - apply (IH _ _ _ E). apply Hd.
  - inversion E; subst. exact Hd.
Qed.

Lemma skipn_head (l : list ascii) (n : nat) (c : ascii) (r : list ascii) :
  skipn n l = c :: r -> nth_error l n = Some c.
Proof.
  intros H. pose proof (nth_error_skipn n l 0) as K.
  rewrite H in K. simpl in K. rewrite Nat.add_0_r in K. symmetry. exact K.
Qed.

Lemma lexer_at_move (data : list ascii) (lx lx' : PyLexer)
    (input rest : list ascii) (consumed : nat) :
  lexer_at data lx input ->
  skipn consumed input = rest ->
  consumed <= length input ->
  lexpos lx' = lexpos lx + consumed ->
  descending (indent_stack lx') ->
  last (indent_stack lx') 1 = 0 ->
  1 <= lineno lx' ->
  lexer_at data lx' rest /\ length rest + consumed = length input.
Proof.
  intros (Hs & Hl & _) Hr Hc Hp Hd Hlast Hline.
  assert (Hlen : length rest + consumed = length input).
  { rewrite <- Hr, length_skipn. lia. }
  split; [|exact Hlen].
  split; [|split; [|split; [|split]]]; try assumption.
  - rewrite Hp, Nat.add_comm, <- skipn_skipn, Hs. exact Hr.
  - lia.
Qed.

Lemma steps_left_less (lx lx' : PyLexer) (input rest : list ascii)
    (consumed : nat) :
  length rest + consumed = length input ->
  1 <= consumed \/ (queued_dedents lx = 0 /\ queued_dedents lx' <> 0) ->
  steps_left lx' rest < steps_left lx input.
Proof.
  unfold steps_left. intros Hl H.
  destruct (Nat.eqb_spec (queued_dedents lx) 0),
           (Nat.eqb_spec (queued_dedents lx') 0); lia.
Qed.

Section LexerPlace.

Variable py_eval : string -> option string.
Variable data : list ascii.
Variable filename : string.

(** A step that reads [value] and leaves the stack and the line counter of
    [lx'] in order. *)
Lemma consumed_step (lx lx' : PyLexer) (input value rest : list ascii) :
  lexer_at data lx input ->
  input = value ++ rest ->
  value <> [] ->
  lexpos lx' = lexpos lx + length value ->
  descending (indent_stack lx') ->
  last (indent_stack lx') 1 = 0 ->
  1 <= lineno lx' ->
  lexer_at data lx' rest /\ steps_left lx' rest < steps_left lx input /\
  lexpos lx < length data.
Proof.
  intros Hat Hin Hne Hp Hd Hlast Hline.
  assert (Hv : 1 <= length value) by (destruct value; [congruence|simpl; lia]).
  destruct (lexer_at_move data lx lx' input rest (length value) Hat) as [H1 H2];
    try assumption.
  - subst input. apply skipn_all_app.
  - subst input. rewrite length_app. lia.
  - split; [exact H1|]. split.
    + apply (steps_left_less lx lx' input rest (length value) H2). left. exact Hv.
    + destruct Hat as (_ & Hl & _). lia.
Qed.

Lemma t_WHITESPACE_inv (lx : PyLexer) (input value rest : list ascii) :
  lexer_at data lx input ->
  input = value ++ rest ->
  value <> [] ->
  step_inv data lx input (t_WHITESPACE data filename lx value rest).
Proof.
  intros Hat Hin Hne.
  pose proof Hat as (Hs & Hl & Hd & Hlast & Hline).
  assert (Hplain : forall lx' : PyLexer,
             lexpos lx' = lexpos lx + length value ->
             descending (indent_stack lx') ->
             last (indent_stack lx') 1 = 0 ->
             1 <= lineno lx' ->
             lexer_at data lx' rest /\ steps_left lx' rest < steps_left lx input /\
             lexpos lx < length data).
  { intros lx' Hp Hd' Hl' Hn'.
    apply (consumed_step lx lx' input value rest); assumption. }
  unfold t_WHITESPACE.
  destruct (queued_dedents lx) as [|q] eqn:Eq.
  - destruct (negb (open_brackets lx =? 0)%Z).
    { destruct (Hplain {| indent_stack := indent_stack lx;
                          open_brackets := open_brackets lx;
                          queued_dedents := 0;
                          lineno := lineno lx + count_newlines value;
                          lexpos := lexpos lx + length value |})
        as (A & B & _); simpl; try assumption; try lia; try reflexivity.
      simpl. auto. }
    destruct (indent_after_last_newline value) as [indent|].
    2:{ destruct (Hplain {| indent_stack := indent_stack lx;
                            open_brackets := open_brackets lx;
                            queued_dedents := 0;
                            lineno := lineno lx + count_newlines value;
                            lexpos := lexpos lx + length value |})
          as (A & B & _); simpl; try assumption; try lia; try reflexivity.
        simpl. auto. }
    destruct (indent_stack lx) as [|top below] eqn:Es;
      [simpl in Hlast; discriminate Hlast|].
    destruct (Nat.ltb_spec indent top) as [Hlt|Hge].
    + assert (Hb : last below 1 = 0).
      { destruct below as [|b below']; [simpl in Hlast; lia|exact Hlast]. }
      destruct (pop_queued_spec indent below 0 Hb)
        as (t' & b' & q' & E & Hl' & Hlen).
      rewrite E.
      assert (Hd' : descending (t' :: b')).
      { apply (pop_queued_descending indent below 0 _ _ E). apply Hd. }
      destruct (negb (indent =? t')).
      * apply make_syntax_error_pointed.
        -- lia.
        -- intros Hm. discriminate Hm.
        -- intros c Hm. discriminate Hm.
      * destruct q' as [|q'].
        -- destruct (Hplain {| indent_stack := t' :: b';
                               open_brackets := open_brackets lx;
                               queued_dedents := 0;
                               lineno := lineno lx + count_newlines value;
                               lexpos := lexpos lx + length value |})
             as (A & B & C); simpl; try assumption; try lia; try reflexivity.
           simpl. split; [exact A|]. split; [exact B|]. split; [lia|exact C].
        -- assert (Hv : 1 <= length value)
             by (destruct value; [congruence|simpl; lia]).
           destruct (lexer_at_move data lx
                       {| indent_stack := t' :: b';
                          open_brackets := open_brackets lx;
                          queued_dedents := S q';
                          lineno := lineno lx + count_newlines value;
                          lexpos := lexpos lx + length value - 1 |}
                       input (last value SPACE :: rest) (length value - 1) Hat)
             as [A B]; simpl; try assumption; try lia.
           ++ subst input. apply skipn_but_last. exact Hne.
           ++ subst input. rewrite length_app. lia.
           ++ simpl. split; [exact A|]. split; [|split; [lia|]].
              ** apply (steps_left_less lx _ input _ (length value - 1) B).
                 right. simpl. split; [exact Eq|discriminate].
              ** subst input. rewrite length_app in Hl. lia.
    + destruct (Nat.ltb_spec top indent) as [Hlt'|Hge'].
      * destruct (Hplain {| indent_stack := indent :: top :: below;
                            open_brackets := open_brackets lx;
                            queued_dedents := 0;
                            lineno := lineno lx + count_newlines value;
                            lexpos := lexpos lx + length value |})
          as (A & B & C); simpl; try assumption; try lia; try reflexivity.
        -- split; [exact Hlt'|exact Hd].
        -- simpl. split; [exact A|]. split; [exact B|]. split; [lia|exact C].
      * destruct (Hplain {| indent_stack := top :: below;
                            open_brackets := open_brackets lx;
                            queued_dedents := 0;
                            lineno := lineno lx + count_newlines value;
                            lexpos := lexpos lx + length value |})
          as (A & B & _); simpl; try assumption; try lia; try reflexivity.
        simpl. auto.
  - destruct (Hplain {| indent_stack := indent_stack lx;
                        open_brackets := open_brackets lx;
                        queued_dedents := q;
                        lineno := lineno lx;
                        lexpos := lexpos lx + length value |})
      as (A & B & C); simpl; try assumption; try lia; try reflexivity.
    simpl. split; [exact A|]. split; [exact B|]. split; [lia|exact C].
Qed.

End LexerPlace.

Lemma keyword_type_bracket (s : string) (kw : TokenType) :
  keyword_type s = Some kw -> bracket_delta kw = 0%Z.
Proof.
  unfold keyword_type.
  repeat match goal with
         | |- context [if ?b then _ else _] => destruct b
         end; intros H; inversion H; reflexivity.
Qed.

Section LexerSteps.

Variable py_eval : string -> option string.
Variable data : list ascii.
Variable filename : string.

(** A rule that returns a token for the match [value] and moves the lexer
    past it. *)
Lemma emit_step (lx lx' : PyLexer) (input value rest : list ascii)
    (t : LexToken) :
  lexer_at data lx input ->
  input = value ++ rest ->
  value <> [] ->
  indent_stack lx' = indent_stack lx ->
  lineno lx' = lineno lx ->
  lexpos lx' = lexpos lx + length value ->
  open_brackets lx' = (open_brackets lx + bracket_delta (tok_type t))%Z ->
  tok_lexpos t = lexpos lx ->
  step_inv data lx input (Emit t lx' rest).
Proof.
  intros Hat Hin Hne Hs Hn Hp Hb Ht.
  pose proof Hat as (_ & _ & Hd & Hlast & Hline).
  destruct (consumed_step data lx lx' input value rest) as (A & B & C);
    try assumption; try (rewrite Hs; assumption); try lia.
  simpl. split; [exact A|]. split; [exact B|]. split; [exact Hb|].
  rewrite Ht. exact C.
Qed.

Lemma discard_step (lx : PyLexer) (input value rest : list ascii) :
  lexer_at data lx input ->
  input = value ++ rest ->
  value <> [] ->
  step_inv data lx input (Discard (advance lx (length value)) rest).
Proof.
  intros Hat Hin Hne.
  pose proof Hat as (_ & _ & Hd & Hlast & Hline).
  destruct (consumed_step data lx (advance lx (length value)) input value rest)
    as (A & B & C); try assumption; try reflexivity.
  simpl. split; [exact A|]. split; [exact B|reflexivity].
Qed.

Lemma t_NAME_inv (lx : PyLexer) (input value rest : list ascii) :
  lexer_at data lx input ->
  input = value ++ rest ->
  value <> [] ->
  step_inv data lx input (t_NAME lx value rest).
Proof.
  intros Hat Hin Hne. unfold t_NAME.
  destruct value as [|c v]; [congruence|].
  destruct (Ascii.eqb c BACKTICK).
  - apply (emit_step lx _ input (c :: v) rest); try assumption; try reflexivity.
    simpl. lia.
  - destruct (keyword_type (str (c :: v))) as [kw|] eqn:Ek.
    + apply (emit_step lx _ input (c :: v) rest); try assumption;
        try reflexivity.
      cbn [tok_type token_at advance open_brackets].
      rewrite (keyword_type_bracket _ _ Ek). lia.
    + apply (emit_step lx _ input (c :: v) rest); try assumption;
        try reflexivity.
      simpl. lia.
Qed.

Lemma t_STRING_inv (lx : PyLexer) (input value rest : list ascii) :
  lexer_at data lx input ->
  input = value ++ rest ->
  value <> [] ->
  step_inv data lx input (t_STRING py_eval lx value rest).
Proof.
  intros Hat Hin Hne. unfold t_STRING.
  destruct (py_eval (str value)); [|exact I].
  apply (emit_step lx _ input value rest); try assumption; try reflexivity.
  simpl. lia.
Qed.

Lemma t_NUMBER_inv (lx : PyLexer) (input value rest : list ascii) :
  lexer_at data lx input ->
  input = value ++ rest ->
  value <> [] ->
  step_inv data lx input (t_NUMBER lx value rest).
Proof.
  intros Hat Hin Hne. unfold t_NUMBER.
  apply (emit_step lx _ input value rest); try assumption; try reflexivity.
  simpl. lia.
Qed.

Lemma one_char_step (lx : PyLexer) (c : ascii) (r : list ascii)
    (ty : TokenType) (v : TokenValue) (lx' : PyLexer) :
  lexer_at data lx (c :: r) ->
  indent_stack lx' = indent_stack lx ->
  lineno lx' = lineno lx ->
  lexpos lx' = lexpos lx + 1 ->
  open_brackets lx' = (open_brackets lx + bracket_delta ty)%Z ->
  step_inv data lx (c :: r) (Emit (token_at lx ty v) lx' r).
Proof.
  intros Hat Hs Hn Hp Hb.
  apply (emit_step lx lx' (c :: r) [c] r); try assumption; try reflexivity.
  discriminate.
Qed.

Lemma illegal_character_pointed (lx : PyLexer) (c : ascii) (r : list ascii) :
  lexer_at data lx (c :: r) ->
  is_whitespace c = false ->
  pointed (make_syntax_error data filename
             ("Illegal character '" ++ String c "'")%string
             (AtToken (lineno lx) (lexpos lx))).
Proof.
  intros (Hs & Hl & _) Hw. apply make_syntax_error_pointed.
  - simpl in Hl. lia.
  - intros Hm. discriminate Hm.
  - intros c0 Hm. simpl in Hm. inversion Hm; subst c0. split.
    + apply (skipn_head _ _ _ _ Hs).
    + intros ->. vm_compute in Hw. discriminate Hw.
Qed.

Lemma string_rules_inv (lx : PyLexer) (c : ascii) (r : list ascii) :
  lexer_at data lx (c :: r) ->
  is_whitespace c = false ->
  step_inv data lx (c :: r) (string_rules data filename lx (c :: r)).
Proof.
  intros Hat Hw.
  assert (Hone : forall ty v,
             bracket_delta ty = 0%Z ->
             step_inv data lx (c :: r)
               (Emit (token_at lx ty v) (advance lx 1) r)).
  { intros ty v Hty. apply one_char_step; try assumption; try reflexivity.
    simpl. rewrite Hty. lia. }
  assert (Htwo : forall ty v d r',
             r = d :: r' -> bracket_delta ty = 0%Z ->
             step_inv data lx (c :: r)
               (Emit (token_at lx ty v) (advance lx 2) r')).
  { intros ty v d r' Hr Hty. subst r.
    apply (emit_step lx _ (c :: d :: r') [c; d] r'); try assumption;
      try reflexivity; [discriminate|].
    simpl. rewrite Hty. lia. }
  pose proof (illegal_character_pointed lx c r Hat Hw) as Hill.
  unfold string_rules.
  destruct (Ascii.eqb c "?"); [apply Hone; reflexivity|].
  destruct (Ascii.eqb c "."); [apply Hone; reflexivity|].
  destruct r as [|d r'].
  - destruct (Ascii.eqb c "@"); [apply Hone; reflexivity|].
    destruct (Ascii.eqb c ":"); [apply Hone; reflexivity|].
    destruct (Ascii.eqb c ","); [apply Hone; reflexivity|].
    exact Hill.
  - destruct (Ascii.eqb c "-" && Ascii.eqb d ">");
      [apply (Htwo _ _ d r'); reflexivity|].
    destruct (Ascii.eqb c ":" && Ascii.eqb d "=");
      [apply (Htwo _ _ d r'); reflexivity|].
    destruct (Ascii.eqb c "@"); [apply Hone; reflexivity|].
    destruct (Ascii.eqb c ":"); [apply Hone; reflexivity|].
    destruct (Ascii.eqb c ","); [apply Hone; reflexivity|].
    exact Hill.
Qed.

(** Every step of the lexer keeps [step_inv]. *)
Lemma token_step_inv (lx : PyLexer) (input : list ascii) :
  lexer_at data lx input ->
  step_inv data lx input (token_step py_eval data filename lx input).
Proof.
  intros Hat. unfold token_step.
  destruct input as [|c r]; [reflexivity|].
  destruct (Ascii.eqb c "<").
  { apply one_char_step; try assumption; reflexivity. }
  destruct (Ascii.eqb c ">").
  { apply one_char_step; try assumption; reflexivity. }
  destruct (Ascii.eqb c "(").
  { apply one_char_step; try assumption; reflexivity. }
  destruct (Ascii.eqb c ")").
  { apply one_char_step; try assumption; reflexivity. }
  destruct (Ascii.eqb_spec c TAB) as [Ht|Ht].
  { subst c. destruct Hat as (Hs & Hl & _). apply make_syntax_error_pointed.
    - simpl in Hl. lia.
    - intros _. apply (skipn_head _ _ _ _ Hs).
    - intros c0 Hm. discriminate Hm. }
  destruct (is_whitespace c) eqn:Hw.
  { pose proof (span_decompose is_whitespace (c :: r)) as Hd.
    destruct (span is_whitespace (c :: r)) as [value rest] eqn:Es.
    simpl in Hd. apply t_WHITESPACE_inv; [exact Hat|exact Hd|].
    simpl in Es. rewrite Hw in Es. destruct (span is_whitespace r).
    inversion Es. discriminate. }
  destruct (match_NAME (c :: r)) as [[value rest]|] eqn:En.
  { destruct (match_NAME_decompose _ _ _ En) as [A B].
    apply t_NAME_inv; assumption. }
  destruct (match_STRING (c :: r)) as [[value rest]|] eqn:Est.
  { destruct (match_STRING_decompose _ _ _ Est) as [A B].
    apply t_STRING_inv; assumption. }
  destruct (match_NUMBER (c :: r)) as [[value rest]|] eqn:Enu.
  { destruct (match_NUMBER_decompose _ _ _ Enu) as [A B].
    apply t_NUMBER_inv; assumption. }
  destruct (Ascii.eqb c "#").
  { pose proof (span_decompose (fun x => negb (Ascii.eqb x LF)) r) as Hd.
    destruct (span (fun x => negb (Ascii.eqb x LF)) r) as [value rest].
    simpl in Hd.
    apply (discard_step lx (c :: r) (c :: value) rest);
      [exact Hat|simpl; f_equal; exact Hd|discriminate]. }
  apply string_rules_inv; assumption.
Qed.

End LexerSteps.

Section LexerRuns.

Variable py_eval : string -> option string.
Variable data : list ascii.
Variable filename : string.

(** A run of the lexer from a state that stands in the text: the tokens lie
    in the text, the run ends at the end of the text with the brackets
    counted, or with a diagnostic that points into its line, and the fuel
    runs out only below [steps_left]. *)
Lemma tokens_of_inv (fuel : nat) :
  forall lx input tokens lex_end,
    lexer_at data lx input ->
    tokens_of py_eval data filename fuel lx input = (tokens, lex_end) ->
    Forall (fun t => tok_lexpos t < length data) tokens /\
    match lex_end with
    | AtEof lx' =>
        lexpos lx' = length data + 1 /\
        descending (indent_stack lx') /\
        last (indent_stack lx') 1 = 0 /\
        open_brackets lx' = (open_brackets lx + net_brackets tokens)%Z
    | Raised e => pointed e
    | LexFuel => fuel <= steps_left lx input
    end.
Proof.
  induction fuel as [|fuel IH]; intros lx input tokens lex_end Hat E.
  - simpl in E. inversion E; subst. split; [constructor|lia].
  - simpl in E. pose proof (token_step_inv py_eval data filename lx input Hat) as Hs.
    destruct (token_step py_eval data filename lx input) as [t lx' rest|lx' rest|e|].
    + destruct Hs as (A & B & C & D).
      destruct (tokens_of py_eval data filename fuel lx' rest) as [ts e'] eqn:Er.
      destruct (IH _ _ _ _ A Er) as [Hf He].
      inversion E; subst. split; [constructor; assumption|].
      destruct lex_end as [lx''|e''|].
      * destruct He as (He1 & He2 & He3 & He4).
        split; [exact He1|]. split; [exact He2|]. split; [exact He3|].
        rewrite He4, C. cbn [net_brackets]. lia.
      * exact He.
      * lia.
    + destruct Hs as (A & B & C).
      destruct (IH _ _ _ _ A E) as [Hf He]. split; [exact Hf|].
      destruct lex_end as [lx''|e''|].
      * destruct He as (He1 & He2 & He3 & He4).
        split; [exact He1|]. split; [exact He2|]. split; [exact He3|].
        rewrite He4, C. reflexivity.
      * exact He.
      * lia.
    + inversion E; subst. split; [constructor|exact Hs].
    + inversion E; subst. simpl in Hs. subst input.
      destruct Hat as (_ & Hlen & Hd & Hl & _).
      split; [constructor|]. cbn [advance lexpos indent_stack open_brackets].
      simpl in Hlen. split; [lia|]. split; [exact Hd|]. split; [exact Hl|].
      simpl. lia.
Qed.

(** With the fuel above [steps_left], more fuel changes nothing. *)
Lemma tokens_of_fuel (fuel : nat) :
  forall fuel' lx input,
    lexer_at data lx input ->
    steps_left lx input < fuel ->
    steps_left lx input < fuel' ->
    tokens_of py_eval data filename fuel lx input
    = tokens_of py_eval data filename fuel' lx input.
Proof.
  induction fuel as [|fuel IH]; intros fuel' lx input Hat H1 H2; [lia|].
  destruct fuel' as [|fuel']; [lia|].
  simpl. pose proof (token_step_inv py_eval data filename lx input Hat) as Hs.
  destruct (token_step py_eval data filename lx input) as [t lx' rest|lx' rest|e|];
    try reflexivity.
  - destruct Hs as (A & B & _). rewrite (IH fuel' lx' rest A); [reflexivity|lia|lia].
  - destruct Hs as (A & B & _). apply (IH fuel' lx' rest A); lia.
Qed.

End LexerRuns.

Lemma set_parse_info_at (data : list ascii) : lexer_at data set_parse_info data.
Proof.
  unfold lexer_at. simpl. repeat split; auto.
Qed.

Lemma token_step_places (py_eval : string -> option string) (data : list ascii)
    (filename : string) (lx : PyLexer) (input : list ascii) :
  match token_step py_eval data filename lx input with
  | Emit t lx' _ =>
      tok_lexpos t = lexpos lx /\ tok_lineno t = lineno lx /\
      lineno lx <= lineno lx'
  | Discard lx' _ => lineno lx <= lineno lx'
  | _ => True
  end.
Proof.
  unfold token_step, t_WHITESPACE, t_NAME, t_STRING, t_NUMBER, string_rules.
  repeat match goal with
         | |- context [match ?x with _ => _ end] =>
             lazymatch x with
             | context [match _ with _ => _ end] => fail
             | _ => destruct x
             end
         end;
    try exact I; cbn [tok_lexpos tok_lineno token_at lineno advance bracket];
    try (split; [reflexivity|split; [reflexivity|]]); lia.
Qed.

Lemma step_moves_on (data : list ascii) (lx lx' : PyLexer)
    (input rest : list ascii) :
  lexer_at data lx input ->
  lexer_at data lx' rest ->
  steps_left lx' rest < steps_left lx input ->
  lexpos lx <= lexpos lx'.
Proof.
  unfold steps_left. intros (_ & H1 & _) (_ & H2 & _) H.
  destruct (queued_dedents lx =? 0), (queued_dedents lx' =? 0); lia.
Qed.

(** The tokens of a run come in the order of the text, none before the
    place where the run starts. *)
Lemma tokens_of_order (py_eval : string -> option string) (data : list ascii)
    (filename : string) (fuel : nat) :
  forall lx input tokens lex_end,
    lexer_at data lx input ->
    tokens_of py_eval data filename fuel lx input = (tokens, lex_end) ->
    in_text_order tokens /\
    Forall (fun t => lexpos lx <= tok_lexpos t /\ lineno lx <= tok_lineno t)
      tokens.
Proof.
  induction fuel as [|fuel IH]; intros lx input tokens lex_end Hat E.
  - simpl in E. inversion E; subst. split; [exact I|constructor].
  - simpl in E.
    pose proof (token_step_inv py_eval data filename lx input Hat) as Hs.
    pose proof (token_step_places py_eval data filename lx input) as Hp.
    destruct (token_step py_eval data filename lx input) as [t lx' rest|lx' rest|e|].
    + destruct Hs as (A & B & _). destruct Hp as (P1 & P2 & P3).
      pose proof (step_moves_on data lx lx' input rest Hat A B) as Hm.
      destruct (tokens_of py_eval data filename fuel lx' rest) as [ts e'] eqn:Er.
      destruct (IH _ _ _ _ A Er) as [Ho Hf].
      inversion E; subst. split.
      * simpl. split; [|exact Ho].
        destruct ts as [|b ts']; [exact I|].
        inversion Hf as [|? ? [Hb1 Hb2] _]; subst. lia.
      * constructor; [lia|].
        apply (Forall_impl _ (P := fun t0 => lexpos lx' <= tok_lexpos t0 /\
                                             lineno lx' <= tok_lineno t0));
          [|exact Hf].
        intros a [Ha1 Ha2]. lia.
    + destruct Hs as (A & B & _).
      pose proof (step_moves_on data lx lx' input rest Hat A B) as Hm.
      destruct (IH _ _ _ _ A E) as [Ho Hf]. split; [exact Ho|].
      apply (Forall_impl _ (P := fun t0 => lexpos lx' <= tok_lexpos t0 /\
                                           lineno lx' <= tok_lineno t0));
        [|exact Hf].
      intros a [Ha1 Ha2]. lia.
    + inversion E; subst. split; [exact I|constructor].
    + inversion E; subst. split; [exact I|constructor].
Qed.

(** ** The lexer's runs *)

(** X8: the matching loop of the lexer ends.  [t_WHITESPACE] steps back
    one character ([skip(-1)]) only when it has queued a dedent, and the
    match that re-reads the character takes a dedent off the queue, so at
    most three matches are made for each character of the text and two
    more: with that much fuel the run ends at the end of the text or with
    an exception, and more fuel changes neither the tokens nor the end. *)
Theorem lexer_run_ends :
  forall (py_eval : string -> option string) (data : list ascii)
         (fname : string) (fuel fuel' : nat),
    3 * length data + 2 < fuel ->
    3 * length data + 2 < fuel' ->
    tokens_of py_eval data fname fuel set_parse_info data
    = tokens_of py_eval data fname fuel' set_parse_info data /\
    snd (tokens_of py_eval data fname fuel set_parse_info data) <> LexFuel.
Proof.
  intros py_eval data fname fuel fuel' H1 H2.
  pose proof (set_parse_info_at data) as Hat.
  assert (Hs : steps_left set_parse_info data = 3 * length data + 2)
    by reflexivity.
  split.
  - apply tokens_of_fuel; [exact Hat|lia|lia].
  - destruct (tokens_of py_eval data fname fuel set_parse_info data)
      as [tokens lex_end] eqn:E.
    destruct (tokens_of_inv py_eval data fname fuel _ _ _ _ Hat E) as [_ He].
    simpl. intros ->. lia.
Qed.

Lemma lexer_run_ends_witness :
  tokens_of eval_no_escapes (list_ascii_of_string nested_blocks) "<string>"
    200 set_parse_info (list_ascii_of_string nested_blocks)
  = tokens_of eval_no_escapes (list_ascii_of_string nested_blocks) "<string>"
      300 set_parse_info (list_ascii_of_string nested_blocks) /\
  snd (tokens_of eval_no_escapes (list_ascii_of_string nested_blocks) "<string>"
         200 set_parse_info (list_ascii_of_string nested_blocks)) <> LexFuel.
Proof.
  apply (lexer_run_ends eval_no_escapes (list_ascii_of_string nested_blocks)
           "<string>" 200 300); vm_compute; lia.
Defined.

(** X9: every token carries an offset inside the text, the tokens come in
    the order of the text (neither the offsets nor the line numbers go
    back, and no line number is below 1), and a run that reaches the end
    of the input has read the whole text: ply then leaves the lexer's
    offset one past the end of the text. *)
Theorem tokens_lie_in_the_text :
  forall (py_eval : string -> option string) (data : list ascii)
         (fname : string) (fuel : nat) (tokens : list LexToken)
         (lex_end : LexEnd),
    tokens_of py_eval data fname fuel set_parse_info data = (tokens, lex_end) ->
    Forall (fun t => tok_lexpos t < length data /\ 1 <= tok_lineno t) tokens /\
    in_text_order tokens /\
    (forall lx, lex_end = AtEof lx -> lexpos lx = length data + 1).
Proof.
  intros py_eval data fname fuel tokens lex_end E.
  pose proof (set_parse_info_at data) as Hat.
  destruct (tokens_of_inv py_eval data fname fuel _ _ _ _ Hat E) as [Hf He].
  destruct (tokens_of_order py_eval data fname fuel _ _ _ _ Hat E) as [Ho Hl].
  split; [|split].
  - apply Forall_forall. intros t Ht.
    rewrite Forall_forall in Hf, Hl.
    split; [apply Hf; exact Ht|]. destruct (Hl t Ht) as [_ Hn]. exact Hn.
  - exact Ho.
  - intros lx ->. destruct He as (Hlen & _). exact Hlen.
Qed.

Lemma tokens_lie_in_the_text_witness :
  exists tokens lex_end,
    tokens_of eval_no_escapes (list_ascii_of_string nested_blocks) "<string>"
      200 set_parse_info (list_ascii_of_string nested_blocks)
    = (tokens, lex_end) /\
    Forall (fun t => tok_lexpos t < length (list_ascii_of_string nested_blocks) /\
                     1 <= tok_lineno t) tokens /\
    in_text_order tokens /\
    (forall lx, lex_end = AtEof lx ->
                lexpos lx = length (list_ascii_of_string nested_blocks) + 1).
Proof.
  eexists. eexists. split; [vm_compute; reflexivity|].
  apply (tokens_lie_in_the_text eval_no_escapes
           (list_ascii_of_string nested_blocks) "<string>" 200).
  vm_compute. reflexivity.
Defined.

(** X11: [open_brackets] counts the brackets: when the lexer reaches the
    end of the input, it holds the number of [LBRACKET] and [LPAREN]
    tokens returned minus the number of [RBRACKET] and [RPAREN] tokens,
    which may be negative; no other rule changes it. *)
Theorem open_brackets_counts_the_brackets :
  forall (py_eval : string -> option string) (data : list ascii)
         (fname : string) (fuel : nat) (tokens : list LexToken) (lx : PyLexer),
    tokens_of py_eval data fname fuel set_parse_info data = (tokens, AtEof lx) ->
    open_brackets lx = net_brackets tokens.
Proof.
  intros py_eval data fname fuel tokens lx E.
  destruct (tokens_of_inv py_eval data fname fuel _ _ _ _
              (set_parse_info_at data) E) as (_ & _ & _ & _ & He).
  rewrite He. reflexivity.
Qed.

Lemma open_brackets_counts_the_brackets_witness :
  exists tokens lx,
    tokens_of eval_no_escapes (list_ascii_of_string "x: a<b") "<string>" 50
      set_parse_info (list_ascii_of_string "x: a<b")
    = (tokens, AtEof lx) /\
    open_brackets lx = net_brackets tokens /\ open_brackets lx = 1%Z.
Proof.
  eexists. eexists. split; [vm_compute; reflexivity|]. split.
  - apply (open_brackets_counts_the_brackets eval_no_escapes
             (list_ascii_of_string "x: a<b") "<string>" 50).
    vm_compute. reflexivity.
  - reflexivity.
Defined.

(** X12: the column of every [SyntaxError] that escapes from [Parse] lies
    in the line it carries or just after its end, and the diagnostic of a
    tab or of an illegal character points at that very character of its
    line. *)
Theorem diagnostics_point_into_their_line :
  forall (py_eval : string -> option string) (fuel : nat) (text : string)
         (filename : option string) (e : Exception),
    Parse_fuel py_eval fuel text filename = Fails e ->
    pointed e.
Proof.
  intros py_eval fuel text filename e H. unfold Parse_fuel in H.
  set (data := list_ascii_of_string text) in *.
  set (fname := filename_or_placeholder filename) in *.
  destruct (tokens_of py_eval data fname fuel set_parse_info data)
    as [tokens lex_end] eqn:El.
  destruct (tokens_of_inv py_eval data fname fuel _ _ _ _
              (set_parse_info_at data) El) as [Hf He].
  pose proof (keeps_parse_alldefs (fun t => tok_lexpos t < length data)
                data fname fuel [] tokens Hf) as Hk.
  destruct (parse_alldefs data fname fuel [] tokens) as [s|[alldefs rest]].
  - destruct s as [t| |e'|]; simpl in Hk.
    + inversion H; subst. apply make_syntax_error_pointed.
      * lia.
      * intros Hm. discriminate Hm.
      * intros c Hm. discriminate Hm.
    + destruct lex_end as [lx|e'|]; inversion H; subst; [exact I|exact He].
    + inversion H; subst. destruct Hk as [->|(lp & ln & ->)]; exact I.
    + discriminate H.
  - destruct lex_end as [lx|e'|];
      [|inversion H; subst; exact He|discriminate H].
    unfold p_unit in H.
    destruct (_ || _ || _); inversion H; subst. exact I.
Qed.

Lemma diagnostics_point_into_their_line_witness :
  pointed (SyntaxError "Illegal character '$'" "<string>" 2 4 "y: $int").
Proof.
  apply (diagnostics_point_into_their_line eval_no_escapes 100
           ("x: int" ++ NL ++ "y: $int" ++ NL)%string None).
  vm_compute. reflexivity.
Defined.

(** ** Dedents *)

Lemma descending_below (a : nat) (r : list nat) :
  descending (a :: r) -> Forall (fun b => b < a) r.
Proof.
  revert a. induction r as [|b r IH]; intros a [H1 H2]; constructor.
  - exact H1.
  - apply (Forall_impl _ (P := fun c => c < b)); [intros c Hc; lia|].
    apply IH. exact H2.
Qed.

Lemma filter_all (p : nat -> bool) (l : list nat) :
  Forall (fun x => p x = true) l -> filter p l = l.
Proof.
  induction 1 as [|x l Hx _ IH]; simpl; [reflexivity|].
  rewrite Hx, IH. reflexivity.
Qed.

Lemma filter_none (p : nat -> bool) (l : list nat) :
  Forall (fun x => p x = false) l -> filter p l = [].
Proof.
  induction 1 as [|x l Hx _ IH]; simpl; [reflexivity|].
  rewrite Hx, IH. reflexivity.
Qed.

(** On a stack that grows strictly from 0, the loop of [t_WHITESPACE] pops
    exactly the levels deeper than [indent]. *)
Lemma pop_queued_filter (indent : nat) (stack : list nat) :
  forall queued,
    descending stack ->
    last stack 1 = 0 ->
    pop_queued indent stack queued
    = Some (filter (fun l => l <=? indent) stack,
            queued + length (filter (fun l => indent <? l) stack)).
Proof.
  induction stack as [|top below IH]; intros queued Hd Hl.
  - simpl in Hl. discriminate Hl.
  - cbn [pop_queued filter]. destruct (Nat.ltb_spec indent top) as [Hlt|Hge].
    + destruct (Nat.leb_spec top indent) as [Hle|_]; [lia|].
      assert (Hb : last below 1 = 0).
      { destruct below as [|b below']; [simpl in Hl; lia|exact Hl]. }
      rewrite (IH (S queued) (proj2 Hd) Hb). cbn [length].
      f_equal. f_equal. lia.
    + destruct (Nat.leb_spec top indent) as [_|Hgt]; [|lia].
      pose proof (descending_below top below Hd) as Hall.
      rewrite (filter_all (fun l => l <=? indent) below).
      2:{ apply (Forall_impl _ (P := fun b => b < top)); [|exact Hall].
          intros b Hb. apply Nat.leb_le. lia. }
      rewrite (filter_none (fun l => indent <? l) below).
      2:{ apply (Forall_impl _ (P := fun b => b < top)); [|exact Hall].
          intros b Hb. apply Nat.ltb_ge. lia. }
      simpl. f_equal. f_equal. lia.
Qed.

Lemma level_on_stack (indent : nat) (stack : list nat) :
  forall top' below',
    descending stack ->
    filter (fun l => l <=? indent) stack = top' :: below' ->
    (In indent stack <-> top' = indent).
Proof.
  induction stack as [|top below IH]; intros top' below' Hd E;
    [discriminate E|].
  cbn [filter] in E. destruct (Nat.leb_spec top indent) as [Hle|Hgt].
  - inversion E; subst top'. pose proof (descending_below top below Hd) as Hall.
    rewrite Forall_forall in Hall. split.
    + intros [H|H]; [exact H|]. specialize (Hall indent H). lia.
    + intros H. left. exact H.
  - rewrite <- (IH top' below' (proj2 Hd) E). split.
    + intros [H|H]; [lia|exact H].
    + intros H. right. exact H.
Qed.

(** X10: a dedent goes back to a level that is on the indent stack.  With
    no bracket open and no dedent queued, whitespace that ends a line and
    indents the next one less than the current block makes [t_WHITESPACE]
    return a [DEDENT] when the new indent is one of the levels on the
    stack: the stack then keeps the levels up to the new indent, and the
    dedents returned and queued are as many as the levels deeper than it.
    When the new indent is not on the stack, the rule raises the
    [invalid dedent] diagnostic. *)
Theorem dedent_closes_the_deeper_levels :
  forall (data : list ascii) (fname : string) (lx : PyLexer)
         (value rest : list ascii) (indent : nat),
    descending (indent_stack lx) ->
    last (indent_stack lx) 1 = 0 ->
    queued_dedents lx = 0 ->
    open_brackets lx = 0%Z ->
    indent_after_last_newline value = Some indent ->
    indent < hd 0 (indent_stack lx) ->
    (In indent (indent_stack lx) ->
     exists t lx' rest',
       t_WHITESPACE data fname lx value rest = Emit t lx' rest' /\
       tok_type t = DEDENT /\
       indent_stack lx' = filter (fun l => l <=? indent) (indent_stack lx) /\
       S (queued_dedents lx')
       = length (filter (fun l => indent <? l) (indent_stack lx))) /\
    (~ In indent (indent_stack lx) ->
     t_WHITESPACE data fname lx value rest
     = Raise (make_syntax_error data fname "invalid dedent"
                (AtToken (lineno lx) (lexpos lx)))).
Proof.
  intros data fname lx value rest indent Hd Hl Hq Hb Hi Hlt.
  unfold t_WHITESPACE. rewrite Hq, Hb, Hi. cbn [Z.eqb negb].
  destruct (indent_stack lx) as [|top below] eqn:Es;
    [simpl in Hl; discriminate Hl|].
  cbn [hd] in Hlt.
  assert (Hbl : last below 1 = 0).
  { destruct below as [|b below']; [simpl in Hl; lia|exact Hl]. }
  pose proof (pop_queued_filter indent below 0 (proj2 Hd) Hbl) as Hp.
  cbn [Nat.add] in Hp.
  destruct (Nat.ltb_spec indent top) as [_|Hge]; [|lia].
  rewrite Hp.
  assert (Hf : filter (fun l => l <=? indent) (top :: below)
               = filter (fun l => l <=? indent) below).
  { cbn [filter]. destruct (Nat.leb_spec top indent); [lia|reflexivity]. }
  assert (Hg : length (filter (fun l => indent <? l) (top :: below))
               = S (length (filter (fun l => indent <? l) below))).
  { cbn [filter]. destruct (Nat.ltb_spec indent top); [reflexivity|lia]. }
  rewrite Hf, Hg.
  destruct (pop_queued_spec indent below 0 Hbl) as (t' & b' & q' & E & _ & _).
  rewrite Hp in E. inversion E as [[E1 E2]]. clear E E2 Hp. rewrite E1.
  assert (Hon : In indent (top :: below) <-> t' = indent).
  { apply (level_on_stack indent (top :: below) t' b' Hd).
    rewrite Hf. exact E1. }
  destruct (Nat.eqb_spec indent t') as [Heq|Hne]; cbn [negb].
  - split; [|intros Hn; exfalso; apply Hn; apply Hon; congruence].
    intros _.
    destruct (length (filter (fun l => indent <? l) below)) as [|n];
      eexists; eexists; eexists; (split; [reflexivity|]);
      cbn [tok_type token_at indent_stack queued_dedents];
      repeat split; reflexivity.
  - split; [intros Hin; exfalso; apply Hne; symmetry; apply Hon; exact Hin|].
    intros _. reflexivity.
Qed.

Lemma dedent_closes_the_deeper_levels_witness :
  exists t lx' rest',
    t_WHITESPACE [] "<string>"
      {| indent_stack := [4; 2; 0]; open_brackets := 0; queued_dedents := 0;
         lineno := 3; lexpos := 20 |}
      [LF] ["y"%char] = Emit t lx' rest' /\
    tok_type t = DEDENT /\
    indent_stack lx' = filter (fun l => l <=? 0) [4; 2; 0] /\
    S (queued_dedents lx') = length (filter (fun l => 0 <? l) [4; 2; 0]).
Proof.
  apply (dedent_closes_the_deeper_levels [] "<string>"
           {| indent_stack := [4; 2; 0]; open_brackets := 0; queued_dedents := 0;
              lineno := 3; lexpos := 20 |}
           [LF] ["y"%char] 0); simpl; try reflexivity; try lia; auto.
Defined.

(** ** Names, keywords and comments *)

Lemma span_exact (p : ascii -> bool) (body rest : list ascii) :
  forallb p body = true ->
  match rest with
  | [] => true
  | d :: _ => negb (p d)
  end = true ->
  span p (body ++ rest) = (body, rest).
Proof.
  intros Hb Hr. induction body as [|c body IH]; simpl in *.
  - destruct rest as [|d r]; [reflexivity|].
    simpl. destruct (p d); [discriminate Hr|reflexivity].
  - apply andb_prop in Hb. destruct Hb as [Hc Hb]. rewrite Hc, (IH Hb).
    reflexivity.
Qed.

Lemma break_at_exact (q : ascii) (inner rest : list ascii) :
  ~ In q inner -> break_at q (inner ++ q :: rest) = Some (inner, rest).
Proof.
  induction inner as [|c inner IH]; intros H; simpl.
  - rewrite Ascii.eqb_refl. reflexivity.
  - destruct (Ascii.eqb_spec c q) as [->|_]; [exfalso; apply H; left; reflexivity|].
    rewrite IH; [reflexivity|]. intros K. apply H. right. exact K.
Qed.

(** A character that starts an identifier is matched by no rule defined
    before [t_NAME]. *)
Lemma name_start_rules (c : ascii) :
  is_name_start c = true ->
  Ascii.eqb c "<" = false /\ Ascii.eqb c ">" = false /\
  Ascii.eqb c "(" = false /\ Ascii.eqb c ")" = false /\
  Ascii.eqb c TAB = false /\ is_whitespace c = false /\
  Ascii.eqb c BACKTICK = false.
Proof.
  destruct c as [[] [] [] [] [] [] [] []]; vm_compute; intros H;
    try discriminate H; repeat split.
Qed.

(** X13: an identifier is read whole.  Where the text has a letter or an
    underscore followed by letters, digits, underscores and dots, and then
    the end of the text or another character, the lexer returns one token
    for the whole word, dots included: the keyword when the word is
    reserved, a [NAME] otherwise. *)
Theorem identifier_is_read_whole :
  forall (py_eval : string -> option string) (data : list ascii)
         (fname : string) (lx : PyLexer) (c : ascii) (body rest : list ascii),
    is_name_start c = true ->
    forallb is_name_char body = true ->
    match rest with
    | [] => true
    | d :: _ => negb (is_name_char d)
    end = true ->
    token_step py_eval data fname lx (c :: body ++ rest)
    = Emit (token_at lx
              match keyword_type (str (c :: body)) with
              | Some kw => kw
              | None => NAME
              end
              (Text (str (c :: body))))
        (advance lx (S (length body))) rest.
Proof.
  intros py_eval data fname lx c body rest Hc Hb Hr.
  destruct (name_start_rules c Hc) as (H1 & H2 & H3 & H4 & H5 & H6 & H7).
  unfold token_step. rewrite H1, H2, H3, H4, H5, H6.
  unfold match_NAME. rewrite Hc, (span_exact is_name_char body rest Hb Hr).
  unfold t_NAME. rewrite H7.
  destruct (keyword_type (str (c :: body))); reflexivity.
Qed.

Lemma identifier_is_read_whole_witness :
  token_step eval_no_escapes [] "<string>" set_parse_info
    (list_ascii_of_string "classes.x: int")
  = Emit (token_at set_parse_info NAME (Text "classes.x")) (advance set_parse_info 9)
      (list_ascii_of_string ": int").
Proof.
  apply (identifier_is_read_whole eval_no_escapes [] "<string>" set_parse_info
           "c"%char (list_ascii_of_string "lasses.x")
           (list_ascii_of_string ": int")); reflexivity.
Defined.

(** X14: backticks quote a name.  A text between two backticks, without a
    backtick of its own, is returned as one [NAME] whose value is the text
    without the backticks, whatever it holds: a reserved word, spaces, line
    breaks, or nothing at all. *)
Theorem backticks_quote_a_name :
  forall (py_eval : string -> option string) (data : list ascii)
         (fname : string) (lx : PyLexer) (inner rest : list ascii),
    ~ In BACKTICK inner ->
    token_step py_eval data fname lx (BACKTICK :: inner ++ BACKTICK :: rest)
    = Emit (token_at lx NAME (Text (str inner)))
        (advance lx (length inner + 2)) rest.
Proof.
  intros py_eval data fname lx inner rest H.
  unfold token_step.
  change (Ascii.eqb BACKTICK "<") with false.
  change (Ascii.eqb BACKTICK ">") with false.
  change (Ascii.eqb BACKTICK "(") with false.
  change (Ascii.eqb BACKTICK ")") with false.
  change (Ascii.eqb BACKTICK TAB) with false.
  change (is_whitespace BACKTICK) with false.
  cbv iota. unfold match_NAME.
  change (is_name_start BACKTICK) with false.
  change (Ascii.eqb BACKTICK BACKTICK) with true.
  cbv iota. rewrite (break_at_exact BACKTICK inner rest H).
  unfold t_NAME.
  change (Ascii.eqb BACKTICK BACKTICK) with true. cbv iota.
  rewrite removelast_last. f_equal. unfold advance. f_equal.
  cbn [length]. rewrite length_app. simpl. lia.
Qed.

Lemma backticks_quote_a_name_witness :
  token_step eval_no_escapes [] "<string>" set_parse_info
    (BACKTICK :: list_ascii_of_string "class" ++ BACKTICK
       :: list_ascii_of_string ": int")
  = Emit (token_at set_parse_info NAME (Text "class")) (advance set_parse_info 7)
      (list_ascii_of_string ": int").
Proof.
  apply (backticks_quote_a_name eval_no_escapes [] "<string>" set_parse_info
           (list_ascii_of_string "class") (list_ascii_of_string ": int")).
  vm_compute. intros H. repeat (destruct H as [H|H]; [discriminate H|]). exact H.
Defined.

(** X15: a comment runs from [#] to the end of its line and gives no
    token: the lexer discards it and goes on at the line break, or at the
    end of the text, with its state otherwise unchanged. *)
Theorem comment_is_discarded :
  forall (py_eval : string -> option string) (data : list ascii)
         (fname : string) (lx : PyLexer) (text rest : list ascii),
    ~ In LF text ->
    match rest with
    | [] => true
    | d :: _ => Ascii.eqb d LF
    end = true ->
    token_step py_eval data fname lx ("#"%char :: text ++ rest)
    = Discard (advance lx (S (length text))) rest.
Proof.
  intros py_eval data fname lx text rest Ht Hr.
  assert (Hs : span (fun x => negb (Ascii.eqb x LF)) (text ++ rest) = (text, rest)).
  { apply span_exact.
    - apply forallb_forall. intros x Hx.
      destruct (Ascii.eqb_spec x LF) as [->|_]; [exfalso; exact (Ht Hx)|reflexivity].
    - destruct rest as [|d r]; [reflexivity|]. rewrite Hr. reflexivity. }
  unfold token_step.
  change (Ascii.eqb "#" "<") with false.
  change (Ascii.eqb "#" ">") with false.
  change (Ascii.eqb "#" "(") with false.
  change (Ascii.eqb "#" ")") with false.
  change (Ascii.eqb "#" TAB) with false.
  change (is_whitespace "#") with false.
  cbv iota. unfold match_NAME.
  change (is_name_start "#") with false.
  change (Ascii.eqb "#" BACKTICK) with false.
  cbv iota. unfold match_STRING.
  change (Ascii.eqb "#" SQUOTE || Ascii.eqb "#" DQUOTE) with false.
  cbv iota. unfold match_NUMBER.
  change (Ascii.eqb "#" "-" || Ascii.eqb "#" "+") with false.
  cbv iota. cbn [span]. change (is_digit "#") with false. cbv iota.
  change (Ascii.eqb "#" "#") with true. cbv iota.
  rewrite Hs. reflexivity.
Qed.

Lemma comment_is_discarded_witness :
  token_step eval_no_escapes [] "<string>" set_parse_info
    ("#"%char :: list_ascii_of_string " x: int" ++ [LF; "y"%char])
  = Discard (advance set_parse_info 8) [LF; "y"%char].
Proof.
  apply (comment_is_discarded eval_no_escapes [] "<string>" set_parse_info
           (list_ascii_of_string " x: int") [LF; "y"%char]).
  - vm_compute. intros H. repeat (destruct H as [H|H]; [discriminate H|]). exact H.
  - reflexivity.
Defined.

(** ** Classes of a parsed unit *)

Lemma classes_of_app (a b : list Def) :
  classes_of (a ++ b) = classes_of a ++ classes_of b.
Proof. unfold classes_of. apply flat_map_app. Qed.

Lemma parse_classdef_merged (data : list ascii) (filename : string)
    (fuel : nat) (ts rest : list LexToken) (c : Class) :
  parse_classdef data filename fuel ts = inr (c, rest) -> merged_methods c.
Proof.
  unfold parse_classdef. intros H.
  repeat match type of H with
         | context [match ?e with inl _ => _ | inr _ => _ end] =>
             lazymatch e with
             | context [match _ with inl _ => _ | inr _ => _ end] => fail
             | p_classdef _ _ _ _ _ _ _ => fail
             | _ => destruct e as [?|[? ?]]; [discriminate H|]
             end
         end.
  unfold p_classdef in H.
  destruct (set_neq _ _); [discriminate H|].
  inversion H; subst. eexists. reflexivity.
Qed.

Lemma parse_alldefs_merged (data : list ascii) (filename : string) (fuel : nat) :
  forall acc ts defs rest,
    parse_alldefs data filename fuel acc ts = inr (defs, rest) ->
    Forall merged_methods (classes_of acc) ->
    Forall merged_methods (classes_of defs).
Proof.
  induction fuel as [|fuel IH]; intros acc ts defs rest H Hacc;
    [discriminate H|].
  simpl in H. destruct ts as [|t r]; [inversion H; subst; exact Hacc|].
  destruct (tok_type t); try discriminate H.
  - destruct (parse_constantdef fuel (t :: r)) as [?|[c ts1]];
      [discriminate H|].
    apply (IH _ _ _ _ H). rewrite classes_of_app, app_nil_r. exact Hacc.
  - destruct (parse_classdef data filename fuel (t :: r)) as [?|[c ts1]] eqn:Ec;
      [discriminate H|].
    apply (IH _ _ _ _ H). rewrite classes_of_app. apply Forall_app.
    split; [exact Hacc|]. constructor; [|constructor].
    apply (parse_classdef_merged _ _ _ _ _ _ Ec).
  - destruct (parse_funcdef fuel (t :: r)) as [?|[f ts1]];
      [discriminate H|].
    apply (IH _ _ _ _ H). rewrite classes_of_app, app_nil_r. exact Hacc.
Qed.

Lemma Parse_returns_classes (py_eval : string -> option string) (fuel : nat)
    (text : string) (filename : option string) (u : TypeDeclUnit) :
  Parse_fuel py_eval fuel text filename = Returns u ->
  Forall merged_methods (u_classes u).
Proof.
  unfold Parse_fuel. intros H.
  destruct (tokens_of _ _ _ _ _ _) as [tokens lex_end].
  destruct (parse_alldefs _ _ _ _ _) as [s|[alldefs rest]] eqn:Ep.
  - destruct s; try discriminate H; destruct lex_end; discriminate H.
  - pose proof (parse_alldefs_merged _ _ _ _ _ _ _ Ep (Forall_nil _)) as Hm.
    destruct lex_end; try discriminate H.
    destruct (p_unit _ _ alldefs) as [e|u'] eqn:Eu; inversion H; subst.
    apply p_unit_returns in Eu. destruct Eu as (-> & _). exact Hm.
Qed.

(** X16: in every class of the unit that [Parse] returns, no two methods
    have the same name, and every method has at least one signature: the
    definitions of one name in a class body are merged into one
    [Function]. *)
Theorem class_methods_are_merged :
  forall (py_eval : string -> option string) (fuel : nat) (text : string)
         (filename : option string) (u : TypeDeclUnit) (c : Class),
    Parse_fuel py_eval fuel text filename = Returns u ->
    In c (u_classes u) ->
    NoDup (map f_name (cls_methods c)) /\
    (forall f, In f (cls_methods c) -> signatures f <> []).
Proof.
  intros py_eval fuel text filename u c H Hc.
  pose proof (Parse_returns_classes _ _ _ _ _ H) as Hm.
  rewrite Forall_forall in Hm. destruct (Hm c Hc) as [body ->]. split.
  - apply MergeSignatures_NoDup.
  - intros f Hf. rewrite MergeSignatures_closed_form in Hf.
    apply in_map_iff in Hf. destruct Hf as (n & <- & Hn). simpl.
    apply signatures_under_nonempty. apply first_seen_In. exact Hn.
Qed.

Lemma class_methods_are_merged_witness :
  NoDup (map f_name (cls_methods class_with_overloads_parsed)) /\
  (forall f, In f (cls_methods class_with_overloads_parsed) ->
             signatures f <> []).
Proof.
  apply (class_methods_are_merged eval_no_escapes 200 class_with_overloads None
           {| u_constants := []; u_classes := [class_with_overloads_parsed];
              u_functions := [] |} class_with_overloads_parsed);
    [vm_compute; reflexivity|left; reflexivity].
Defined.

(** ** Precedence *)

(** X17: [and] binds tighter than [or], on either side: [a or b and c] is
    the union of [a] and of the intersection of [b] and [c], and
    [a and b or c] is the union of the intersection of [a] and [b] and
    of [c]. *)
Theorem and_binds_tighter_than_or :
  forall (fuel : nat) (a b c : string),
    parse_type (4 + fuel)
      [name_token a; op_token OR; name_token b; op_token AND; name_token c]
    = inr (UnionType [NamedType a;
                      IntersectionType [NamedType b; NamedType c]], []) /\
    parse_type (4 + fuel)
      [name_token a; op_token AND; name_token b; op_token OR; name_token c]
    = inr (UnionType [IntersectionType [NamedType a; NamedType b];
                      NamedType c], []).
Proof. intros fuel a b c. split; reflexivity. Qed.

(** ** The lexer's state *)

(** X18: every match keeps the lexer in its place.  From a state whose
    offset is that of the unread text and whose indent stack grows strictly
    from level 0, a match that returns a token or is discarded leaves such
    a state again: the new offset is that of what is left to read, and the
    stack still grows strictly from 0, so it holds no level twice. *)
Theorem lexer_keeps_its_place :
  forall (py_eval : string -> option string) (data : list ascii)
         (fname : string) (lx : PyLexer) (input : list ascii),
    lexer_at data lx input ->
    match token_step py_eval data fname lx input with
    | Emit _ lx' rest | Discard lx' rest => lexer_at data lx' rest
    | Raise _ | Eof => True
    end.
Proof.
  intros py_eval data fname lx input Hat.
  pose proof (token_step_inv py_eval data fname lx input Hat) as Hs.
  destruct (token_step py_eval data fname lx input); try exact I; apply Hs.
Qed.

Lemma lexer_keeps_its_place_witness :
  lexer_at (list_ascii_of_string nested_blocks)
    {| indent_stack := [2; 0]; open_brackets := 0; queued_dedents := 0;
       lineno := 2; lexpos := 11 |}
    (skipn 11 (list_ascii_of_string nested_blocks)).
Proof.
  apply (lexer_keeps_its_place eval_no_escapes
           (list_ascii_of_string nested_blocks) "<string>"
           {| indent_stack := [0]; open_brackets := 0; queued_dedents := 0;
              lineno := 1; lexpos := 8 |}
           (skipn 8 (list_ascii_of_string nested_blocks))).
  unfold lexer_at. simpl. repeat split; auto.
Defined.

(** ** String literals and numbers *)

(** X19: a quoted literal ends at the first quote of the kind that opens
    it, also when a backslash stands before that quote.  The lexer hands
    the text from quote to quote to [eval]: it returns a [STRING] with the
    value that [eval] gives, and what [eval] raises escapes. *)
Theorem string_ends_at_the_first_quote :
  forall (py_eval : string -> option string) (data : list ascii)
         (fname : string) (lx : PyLexer) (q : ascii) (inner rest : list ascii),
    q = SQUOTE \/ q = DQUOTE ->
    ~ In q inner ->
    token_step py_eval data fname lx (q :: inner ++ q :: rest)
    = match py_eval (str (q :: inner ++ [q])) with
      | Some s =>
          Emit (token_at lx STRING (Text s)) (advance lx (length inner + 2)) rest
      | None => Raise (EvalError (str (q :: inner ++ [q])))
      end.
Proof.
  intros py_eval data fname lx q inner rest Hq Hin.
  assert (Hlen : advance lx (length (q :: inner ++ [q]))
                 = advance lx (length inner + 2)).
  { unfold advance. f_equal. cbn [length]. rewrite length_app. simpl. lia. }
  unfold token_step, match_NAME, match_STRING.
  destruct Hq as [-> | ->].
  - change (Ascii.eqb SQUOTE "<") with false.
    change (Ascii.eqb SQUOTE ">") with false.
    change (Ascii.eqb SQUOTE "(") with false.
    change (Ascii.eqb SQUOTE ")") with false.
    change (Ascii.eqb SQUOTE TAB) with false.
    change (is_whitespace SQUOTE) with false.
    change (is_name_start SQUOTE) with false.
    change (Ascii.eqb SQUOTE BACKTICK) with false.
    change (Ascii.eqb SQUOTE SQUOTE || Ascii.eqb SQUOTE DQUOTE) with true.
    cbv iota. rewrite (break_at_exact SQUOTE inner rest Hin).
    unfold t_STRING. rewrite Hlen. reflexivity.
  - change (Ascii.eqb DQUOTE "<") with false.
    change (Ascii.eqb DQUOTE ">") with false.
    change (Ascii.eqb DQUOTE "(") with false.
    change (Ascii.eqb DQUOTE ")") with false.
    change (Ascii.eqb DQUOTE TAB) with false.
    change (is_whitespace DQUOTE) with false.
    change (is_name_start DQUOTE) with false.
    change (Ascii.eqb DQUOTE BACKTICK) with false.
    change (Ascii.eqb DQUOTE SQUOTE || Ascii.eqb DQUOTE DQUOTE) with true.
    cbv iota. rewrite (break_at_exact DQUOTE inner rest Hin).
    unfold t_STRING. rewrite Hlen. reflexivity.
Qed.

Lemma string_ends_at_the_first_quote_witness :
  token_step eval_no_escapes [] "<string>" set_parse_info
    (SQUOTE :: list_ascii_of_string "ab" ++ SQUOTE :: list_ascii_of_string "c'")
  = Emit (token_at set_parse_info STRING (Text "ab")) (advance set_parse_info 4)
      (list_ascii_of_string "c'").
Proof.
  apply (string_ends_at_the_first_quote eval_no_escapes [] "<string>"
           set_parse_info SQUOTE (list_ascii_of_string "ab")
           (list_ascii_of_string "c'")).
  - left. reflexivity.
  - vm_compute. intros H. repeat (destruct H as [H|H]; [discriminate H|]). exact H.
Defined.

(** A digit is matched by no rule defined before [t_NUMBER], and is no
    sign. *)
Lemma digit_rules (c : ascii) :
  is_digit c = true ->
  Ascii.eqb c "<" = false /\ Ascii.eqb c ">" = false /\
  Ascii.eqb c "(" = false /\ Ascii.eqb c ")" = false /\
  Ascii.eqb c TAB = false /\ is_whitespace c = false /\
  is_name_start c = false /\ Ascii.eqb c BACKTICK = false /\
  Ascii.eqb c SQUOTE || Ascii.eqb c DQUOTE = false /\
  Ascii.eqb c "-" || Ascii.eqb c "+" = false /\
  Ascii.eqb c "." = false.
Proof.
  destruct c as [[] [] [] [] [] [] [] []]; vm_compute; intros H;
    try discriminate H; repeat split.
Qed.

Lemma no_dot_in_digits (ds : list ascii) :
  forallb is_digit ds = true -> existsb (fun c => Ascii.eqb c ".") ds = false.
Proof.
  induction ds as [|d ds IH]; simpl; [reflexivity|].
  intros H. apply andb_prop in H. destruct H as [Hd Hds].
  destruct (digit_rules d Hd) as (_ & _ & _ & _ & _ & _ & _ & _ & _ & _ & Hdot).
  rewrite Hdot, (IH Hds). reflexivity.
Qed.

(** X20: a run of digits without a sign is read whole, as one [NUMBER]
    whose value is the integer that the digits write in base ten, when
    neither a digit nor a dot follows. *)
Theorem integer_is_read_whole :
  forall (py_eval : string -> option string) (data : list ascii)
         (fname : string) (lx : PyLexer) (c : ascii) (ds rest : list ascii),
    is_digit c = true ->
    forallb is_digit ds = true ->
    match rest with
    | [] => true
    | d :: _ => negb (is_digit d) && negb (Ascii.eqb d ".")
    end = true ->
    token_step py_eval data fname lx (c :: ds ++ rest)
    = Emit (token_at lx NUMBER (IntNumber (int_of_digits (c :: ds))))
        (advance lx (S (length ds))) rest.
Proof.
  intros py_eval data fname lx c ds rest Hc Hds Hr.
  destruct (digit_rules c Hc)
    as (H1 & H2 & H3 & H4 & H5 & H6 & H7 & H8 & H9 & H10 & H11).
  assert (Hs : span is_digit ((c :: ds) ++ rest) = (c :: ds, rest)).
  { apply span_exact.
    - simpl. rewrite Hc, Hds. reflexivity.
    - destruct rest as [|d r]; [reflexivity|].
      apply andb_prop in Hr. exact (proj1 Hr). }
  unfold token_step. rewrite H1, H2, H3, H4, H5, H6.
  unfold match_NAME. rewrite H7, H8.
  unfold match_STRING. rewrite H9.
  unfold match_NUMBER. rewrite H10.
  change (c :: ds ++ rest) with ((c :: ds) ++ rest). rewrite Hs.
  assert (Hv : t_NUMBER lx (c :: ds) rest
               = Emit (token_at lx NUMBER (IntNumber (int_of_digits (c :: ds))))
                   (advance lx (S (length ds))) rest).
  { unfold t_NUMBER. cbn [existsb]. rewrite H11, (no_dot_in_digits ds Hds).
    cbn [orb]. unfold py_int.
    apply orb_false_elim in H10. destruct H10 as [Hm Hp]. rewrite Hm, Hp.
    reflexivity. }
  destruct rest as [|d r]; [exact Hv|].
  apply andb_prop in Hr. destruct Hr as [_ Hdot].
  destruct (Ascii.eqb d "."); [discriminate Hdot|exact Hv].
Qed.

Lemma integer_is_read_whole_witness :
  token_step eval_no_escapes [] "<string>" set_parse_info
    (list_ascii_of_string "042)")
  = Emit (token_at set_parse_info NUMBER (IntNumber 42)) (advance set_parse_info 3)
      [")"%char].
Proof.
  apply (integer_is_read_whole eval_no_escapes [] "<string>" set_parse_info
           "0"%char (list_ascii_of_string "42") [")"%char]); reflexivity.
Defined.

(** ** Parameter lists *)

Lemma next_after_listed (ty : TokenType) (items : list ListedParam)
    (rest : list LexToken) :
  ty = COLON \/ ty = DOT ->
  next_is ty (flat_map listed_tokens items ++ op_token RPAREN :: rest) = false.
Proof.
  intros [-> | ->]; destruct items as [|[n|] items]; reflexivity.
Qed.

Lemma parse_param_name (fuel : nat) (n : string) (more : list LexToken) :
  next_is COLON more = false ->
  parse_param fuel (name_token n :: more) = inr (p_param n, more).
Proof.
  intros H. unfold parse_param.
  change (expect NAME (name_token n :: more))
    with (@inr ParseStop _ (name_token n, more)).
  cbv beta iota. rewrite H. reflexivity.
Qed.

Lemma params_rest_name (fuel : nat) (acc : Params) (n : string)
    (more : list LexToken) :
  next_is COLON more = false ->
  params_rest (S fuel) acc (op_token COMMA :: name_token n :: more)
  = params_rest fuel (p_params_multi acc (p_param n)) more.
Proof.
  intros H.
  change (params_rest (S fuel) acc (op_token COMMA :: name_token n :: more))
    with (match parse_param fuel (name_token n :: more) with
          | inr (p, ts1) => params_rest fuel (p_params_multi acc p) ts1
          | inl stop => inl stop
          end).
  rewrite (parse_param_name fuel n more H). reflexivity.
Qed.

Lemma params_rest_dots (fuel : nat) (acc : Params) (more : list LexToken) :
  params_rest (S fuel) acc
    (op_token COMMA :: op_token DOT :: op_token DOT :: op_token DOT :: more)
  = params_rest fuel (p_params_ellipsis acc) more.
Proof. reflexivity. Qed.

Lemma params_rest_listed (rest : list LexToken) (items : list ListedParam) :
  forall fuel acc,
    length items < fuel ->
    params_rest fuel acc (flat_map listed_tokens items ++ op_token RPAREN :: rest)
    = inr ({| required := required acc ++ map p_param (listed_names items);
              params_has_optional :=
                match items with
                | [] => params_has_optional acc
                | _ :: _ => ends_with_dots items
                end |},
           op_token RPAREN :: rest).
Proof.
  induction items as [|i items IH]; intros fuel acc Hf.
  - destruct fuel; [inversion Hf|]. destruct acc as [req opt]. simpl.
    rewrite app_nil_r. reflexivity.
  - destruct fuel; [inversion Hf|]. simpl in Hf.
    assert (Hf' : length items < fuel) by lia.
    destruct i as [n|].
    + change (flat_map listed_tokens (PName n :: items) ++ op_token RPAREN :: rest)
        with (op_token COMMA :: name_token n
                :: (flat_map listed_tokens items ++ op_token RPAREN :: rest)).
      rewrite params_rest_name
        by (apply next_after_listed; left; reflexivity).
      rewrite (IH fuel _ Hf'). cbn [required p_params_multi params_has_optional].
      change (listed_names (PName n :: items)) with (n :: listed_names items).
      cbn [map]. rewrite <- app_assoc. f_equal. f_equal.
      destruct items as [|j items]; reflexivity.
    + change (flat_map listed_tokens (PDots :: items) ++ op_token RPAREN :: rest)
        with (op_token COMMA :: op_token DOT :: op_token DOT :: op_token DOT
                :: (flat_map listed_tokens items ++ op_token RPAREN :: rest)).
      rewrite params_rest_dots.
      rewrite (IH fuel _ Hf'). cbn [required p_params_ellipsis params_has_optional].
      f_equal. f_equal. destruct items as [|j items]; reflexivity.
Qed.

(** X21: a list of parameters without types gives the parameters in their
    order, each of type [object], and the ellipsis counts only when it
    comes last.  An ellipsis may stand anywhere in the list, also first and
    more than once; [has_optional] is set exactly when the last member of
    the list is an ellipsis, and an ellipsis followed by another parameter
    leaves no trace. *)
Theorem ellipsis_counts_only_when_last :
  forall (fuel : nat) (n : string) (items : list ListedParam)
         (rest : list LexToken),
    length items < fuel ->
    parse_params fuel
      (name_token n :: flat_map listed_tokens items ++ op_token RPAREN :: rest)
    = inr ({| required :=
                map (fun x => Parameter_ x (NamedType "object"))
                  (n :: listed_names items);
              params_has_optional := ends_with_dots items |},
           op_token RPAREN :: rest) /\
    parse_params fuel
      (op_token DOT :: op_token DOT :: op_token DOT
         :: flat_map listed_tokens items ++ op_token RPAREN :: rest)
    = inr ({| required :=
                map (fun x => Parameter_ x (NamedType "object"))
                  (listed_names items);
              params_has_optional := ends_with_dots (PDots :: items) |},
           op_token RPAREN :: rest).
Proof.
  intros fuel n items rest Hf. split.
  - unfold parse_params. cbn [next_is name_token tok_type TokenType_eqb].
    rewrite parse_param_name by (apply next_after_listed; left; reflexivity).
    rewrite (params_rest_listed rest items fuel _ Hf).
    f_equal. f_equal. destruct items as [|j items]; reflexivity.
  - unfold parse_params. cbn [next_is op_token tok_type TokenType_eqb].
    change (three_dots (op_token DOT :: op_token DOT :: op_token DOT
                          :: flat_map listed_tokens items
                          ++ op_token RPAREN :: rest))
      with (@inr ParseStop _
              (tt, flat_map listed_tokens items ++ op_token RPAREN :: rest)).
    cbv iota beta.
    rewrite (params_rest_listed rest items fuel _ Hf).
    f_equal. f_equal. destruct items as [|j items]; reflexivity.
Qed.

Lemma ellipsis_counts_only_when_last_witness :
  parse_params 3
    (name_token "x" :: flat_map listed_tokens [PDots; PName "y"]
       ++ op_token RPAREN :: [])
  = inr ({| required := [Parameter_ "x" (NamedType "object");
                         Parameter_ "y" (NamedType "object")];
            params_has_optional := false |},
         [op_token RPAREN]).
Proof.
  apply (proj1 (ellipsis_counts_only_when_last 3 "x" [PDots; PName "y"] []
                  ltac:(simpl; lia))).
Defined.

(** ** Brackets *)

Section Closes.

Variable Q : LexToken -> Prop.

(** One step of a proof that a parser closes the brackets it opens: the
    next sub-parser, lookahead test or token match of the goal is
    resolved. *)
Ltac bracket_step :=
  match goal with
  | |- outcome_closed _ _ (inl _) => simpl; try exact I; try assumption
  | |- Forall Q _ /\ _ = _ =>
      split;
      [assumption
      |cbn [net_brackets] in *;
       repeat match goal with
              | H : tok_type _ = _ |- _ => rewrite H in *; clear H
              end;
       cbn [bracket_delta] in *; lia]
  | |- outcome_closed _ _ (inr _) =>
      simpl; split;
      [assumption
      |cbn [net_brackets] in *;
       repeat match goal with
              | H : tok_type _ = _ |- _ => rewrite H in *; clear H
              end;
       cbn [bracket_delta] in *; lia]
  | |- context [expect ?ty ?ts] =>
      let R := fresh "R" in
      let F := fresh "F" in
      assert (F : Forall Q ts) by assumption;
      pose proof (expect_result Q ty ts F) as R; clear F;
      destruct (expect ty ts) as [[?t| |?e|]|[?t ?ts]];
      [| |contradiction| |destruct R as (-> & ? & ?)]
  | |- context [next_is ?ty ?ts] =>
      let E := fresh "E" in
      destruct (next_is ty ts) eqn:E;
      [apply next_is_true in E; destruct E as (?t & ?r & -> & ?);
       match goal with H : Forall Q (_ :: _) |- _ => inversion H; subst end;
       simpl tl|]
  | |- context [match ?ts with [] => _ | _ :: _ => _ end] =>
      is_var ts; destruct ts as [|?t ?r];
      [|match goal with H : Forall Q (_ :: _) |- _ => inversion H; subst end]
  | |- context [if snd ?ps then _ else _] =>
      destruct ps as [? [|]]; cbn [fst snd]
  | |- context [match tok_type ?t with ARROW => _ | _ => _ end] =>
      destruct (tok_type t) eqn:?
  | K : forall acc ts, Forall Q ts ->
                       outcome_closed Q _ (parameters_rest ?item ?f acc ts)
    |- context [parameters_rest ?item ?f ?a0 ?x] =>
      let R := fresh "R" in
      let F := fresh "F" in
      assert (F : Forall Q x) by assumption;
      pose proof (K a0 x F) as R; clear F;
      destruct (parameters_rest item f a0 x) as [[?t| |?e|]|[?v ?ts]];
      simpl in R; [| | | |destruct R as (? & ?)]
  | K : forall a, closes Q (?p a) |- context [?p ?a0 ?x] =>
      let R := fresh "R" in
      let F := fresh "F" in
      assert (F : Forall Q x) by assumption;
      pose proof (K a0 x F) as R; clear F;
      destruct (p a0 x) as [[?t| |?e|]|[?v ?ts]]; simpl in R;
      [| | | |destruct R as (? & ?)]
  | K : closes Q ?p |- context [?p ?x] =>
      let R := fresh "R" in
      let F := fresh "F" in
      assert (F : Forall Q x) by assumption;
      pose proof (K x F) as R; clear F;
      destruct (p x) as [[?t| |?e|]|[?v ?ts]]; simpl in R;
      [| | | |destruct R as (? & ?)]
  end.

Ltac bracket_steps := repeat bracket_step.

Lemma closes_binary_rest (op : TokenType) (action : Type_ -> Type_ -> Type_)
    (operand : list LexToken -> Parsed Type_) :
  bracket_delta op = 0%Z ->
  closes Q operand ->
  forall fuel lhs, closes Q (binary_rest op action operand fuel lhs).
Proof.
  intros Hop Ho fuel.
  induction fuel as [|fuel IH]; intros lhs ts Hts; simpl; [exact I|].
  bracket_steps.
Qed.

Lemma closes_and_level (atom : list LexToken -> Parsed Type_) (fuel : nat) :
  closes Q atom -> closes Q (and_level atom fuel).
Proof.
  intros Ha ts Hts. unfold and_level.
  pose proof (closes_binary_rest AND p_type_and atom eq_refl Ha fuel) as Hr.
  bracket_steps.
Qed.

Lemma closes_or_level (atom : list LexToken -> Parsed Type_) (fuel : nat) :
  closes Q atom -> closes Q (or_level atom fuel).
Proof.
  intros Ha ts Hts. unfold or_level.
  pose proof (closes_and_level atom fuel Ha) as Hand.
  pose proof (closes_binary_rest OR p_type_or (and_level atom fuel) eq_refl Hand fuel)
    as Hr.
  bracket_steps.
Qed.

Lemma closes_comma_list {A : Type} (item : list LexToken -> Parsed A) :
  closes Q item -> forall fuel acc, closes Q (comma_list item fuel acc).
Proof.
  intros Hi fuel.
  induction fuel as [|fuel IH]; intros acc ts Hts; simpl; [exact I|].
  bracket_steps.
Qed.

(** [parameters_rest] reads the bracket that closes the one its caller has
    read. *)
Lemma closes_parameters_rest (item : list LexToken -> Parsed Type_) :
  closes Q item ->
  forall fuel acc ts,
    Forall Q ts ->
    outcome_closed Q (net_brackets ts + 1) (parameters_rest item fuel acc ts).
Proof.
  intros Hi fuel.
  induction fuel as [|fuel IH]; intros acc ts Hts; simpl; [exact I|].
  destruct ts as [|t r]; [exact I|].
  inversion Hts as [|? ? Ht Hr]; subst.
  destruct (tok_type t) eqn:Et; try (simpl; assumption).
  - destruct (next_is RBRACKET r) eqn:E.
    + apply next_is_true in E. destruct E as (t' & r' & -> & Ht').
      inversion Hr; subst. simpl. split; [assumption|].
      cbn [net_brackets]. rewrite Et, Ht'. cbn [bracket_delta]. lia.
    + pose proof (Hi r Hr) as R.
      destruct (item r) as [[t'| |e|]|[x ts1]]; simpl in R; simpl;
        try assumption; try exact I.
      destruct R as [F Hz].
      specialize (IH (acc ++ [x]) ts1 F).
      destruct (parameters_rest item fuel (acc ++ [x]) ts1)
        as [[t'| |e|]|[v ts2]]; simpl in IH; simpl; try assumption.
      destruct IH as [F2 Hz2]. split; [exact F2|].
      rewrite Et. cbn [bracket_delta]. lia.
  - simpl. split; [assumption|].
    cbn [net_brackets]. rewrite Et. cbn [bracket_delta]. lia.
Qed.

Lemma closes_parse_atom (fuel : nat) : closes Q (parse_atom fuel).
Proof.
  induction fuel as [|fuel IH]; intros ts Hts; simpl; [exact I|].
  pose proof (closes_or_level (parse_atom fuel) fuel IH) as Htype.
  pose proof (closes_parameters_rest _ Htype fuel) as Hps.
  bracket_steps.
Qed.

Lemma closes_parse_type (fuel : nat) : closes Q (parse_type fuel).
Proof. apply closes_or_level, closes_parse_atom. Qed.

Lemma closes_parse_param (fuel : nat) : closes Q (parse_param fuel).
Proof.
  intros ts Hts. unfold parse_param.
  pose proof (closes_parse_type fuel) as Htype.
  bracket_steps.
Qed.

Lemma closes_three_dots : closes Q three_dots.
Proof. intros ts Hts. unfold three_dots. bracket_steps. Qed.

Lemma closes_params_rest (fuel : nat) : forall acc, closes Q (params_rest fuel acc).
Proof.
  induction fuel as [|fuel IH]; intros acc ts Hts; simpl; [exact I|].
  pose proof (closes_parse_param fuel) as Hparam.
  pose proof closes_three_dots as Hdots.
  bracket_steps.
Qed.

Lemma closes_parse_params (fuel : nat) : closes Q (parse_params fuel).
Proof.
  intros ts Hts. unfold parse_params.
  pose proof (closes_parse_param fuel) as Hparam.
  pose proof closes_three_dots as Hdots.
  pose proof (closes_params_rest fuel) as Hrest.
  bracket_steps.
Qed.

Lemma closes_parse_template_item (fuel : nat) : closes Q (parse_template_item fuel).
Proof.
  intros ts Hts. unfold parse_template_item.
  pose proof (closes_parse_type fuel) as Htype.
  bracket_steps.
Qed.

Lemma closes_parse_template (fuel : nat) : closes Q (parse_template fuel).
Proof.
  intros ts Hts. unfold parse_template.
  pose proof (closes_parse_template_item fuel) as Hitem.
  pose proof (closes_comma_list _ Hitem fuel) as Hlist.
  bracket_steps.
Qed.

Lemma closes_parse_parents (fuel : nat) : closes Q (parse_parents fuel).
Proof.
  intros ts Hts. unfold parse_parents.
  pose proof (closes_parse_type fuel) as Htype.
  pose proof (closes_comma_list _ Htype fuel) as Hlist.
  bracket_steps.
Qed.

Lemma closes_parse_return (fuel : nat) : closes Q (parse_return fuel).
Proof.
  intros ts Hts. unfold parse_return.
  pose proof (closes_parse_type fuel) as Htype.
  bracket_steps.
Qed.

Lemma closes_parse_raises (fuel : nat) : closes Q (parse_raises fuel).
Proof.
  intros ts Hts. unfold parse_raises.
  pose proof (closes_parse_type fuel) as Htype.
  pose proof (closes_comma_list _ Htype fuel) as Hlist.
  bracket_steps.
Qed.

Lemma closes_parse_signature : closes Q parse_signature.
Proof. intros ts Hts. unfold parse_signature. bracket_steps. Qed.

Lemma closes_parse_mutator (fuel : nat) : closes Q (parse_mutator fuel).
Proof.
  intros ts Hts. unfold parse_mutator.
  pose proof (closes_parse_type fuel) as Htype.
  bracket_steps.
Qed.

Lemma closes_parse_body (fuel : nat) : closes Q (parse_body fuel).
Proof.
  induction fuel as [|fuel IH]; intros ts Hts; simpl; [exact I|].
  pose proof (closes_parse_mutator fuel) as Hm.
  bracket_steps.
  left. reflexivity.
Qed.

Lemma closes_parse_maybe_body (fuel : nat) : closes Q (parse_maybe_body fuel).
Proof.
  intros ts Hts. unfold parse_maybe_body.
  pose proof (closes_parse_body fuel) as Hbody.
  bracket_steps.
Qed.

Lemma closes_parse_funcdef (fuel : nat) : closes Q (parse_funcdef fuel).
Proof.
  intros ts Hts. unfold parse_funcdef.
  pose proof (closes_parse_template fuel) as H2.
  pose proof (closes_parse_params fuel) as H5.
  pose proof (closes_parse_return fuel) as H7.
  pose proof (closes_parse_raises fuel) as H8.
  pose proof closes_parse_signature as H9.
  pose proof (closes_parse_maybe_body fuel) as H10.
  bracket_steps.
Qed.

Lemma closes_parse_constantdef (fuel : nat) : closes Q (parse_constantdef fuel).
Proof.
  intros ts Hts. unfold parse_constantdef.
  pose proof (closes_parse_type fuel) as Htype.
  bracket_steps.
Qed.

Lemma closes_parse_funcdefs (fuel : nat) :
  forall acc, closes Q (parse_funcdefs fuel acc).
Proof.
  induction fuel as [|fuel IH]; intros acc ts Hts; simpl; [exact I|].
  pose proof (closes_parse_funcdef fuel) as Hf.
  pose proof (closes_parse_constantdef fuel) as Hc.
  bracket_steps.
Qed.

Lemma closes_parse_class_funcs (fuel : nat) : closes Q (parse_class_funcs fuel).
Proof.
  intros ts Hts. unfold parse_class_funcs.
  pose proof (closes_parse_funcdefs fuel) as Hf.
  bracket_steps.
Qed.

Lemma closes_parse_classdef (data : list ascii) (filename : string) (fuel : nat) :
  closes Q (parse_classdef data filename fuel).
Proof.
  intros ts Hts. unfold parse_classdef.
  pose proof (closes_parse_template fuel) as H2.
  pose proof (closes_parse_parents fuel) as H4.
  pose proof (closes_parse_class_funcs fuel) as H7.
  bracket_steps.
  unfold p_classdef. destruct (set_neq _ _); [|bracket_steps].
  right. eexists. eexists. reflexivity.
Qed.

Lemma closes_parse_alldefs (data : list ascii) (filename : string) (fuel : nat) :
  forall acc, closes Q (parse_alldefs data filename fuel acc).
Proof.
  induction fuel as [|fuel IH]; intros acc ts Hts; simpl; [exact I|].
  pose proof (closes_parse_funcdef fuel) as Hf.
  pose proof (closes_parse_constantdef fuel) as Hc.
  pose proof (closes_parse_classdef data filename fuel) as Hk.
  destruct ts as [|t r]; [simpl; auto|].
  destruct (tok_type t) eqn:Et; try (simpl; inversion Hts; assumption);
    bracket_steps.
Qed.

End Closes.


Lemma net_brackets_count (ts : list LexToken) :
  net_brackets ts
  = (Z.of_nat (count_type LBRACKET ts) + Z.of_nat (count_type LPAREN ts)
     - Z.of_nat (count_type RBRACKET ts) - Z.of_nat (count_type RPAREN ts))%Z.
Proof.
  unfold count_type. induction ts as [|t r IH]; [reflexivity|].
  cbn [net_brackets filter]. rewrite IH.
  destruct (tok_type t); cbn [TokenType_eqb bracket_delta length]; lia.
Qed.

(** X22: in a text that parses, every bracket is closed: the tokens hold
    as many opening brackets and parentheses as closing ones, and the
    lexer's [open_brackets] is back at 0 when the end of the input is
    reached. *)
Theorem brackets_are_closed :
  forall (py_eval : string -> option string) (fuel : nat) (text : string)
         (filename : option string) (u : TypeDeclUnit),
    Parse_fuel py_eval fuel text filename = Returns u ->
    exists tokens lx,
      tokens_of py_eval (list_ascii_of_string text)
        (filename_or_placeholder filename) fuel set_parse_info
        (list_ascii_of_string text)
      = (tokens, AtEof lx) /\
      count_type LBRACKET tokens + count_type LPAREN tokens
      = count_type RBRACKET tokens + count_type RPAREN tokens /\
      open_brackets lx = 0%Z.
Proof.
  intros py_eval fuel text filename u H. unfold Parse_fuel in H.
  set (data := list_ascii_of_string text) in *.
  set (fname := filename_or_placeholder filename) in *.
  destruct (tokens_of py_eval data fname fuel set_parse_info data)
    as [tokens lex_end] eqn:El.
  destruct (tokens_of_inv py_eval data fname fuel _ _ _ _
              (set_parse_info_at data) El) as [_ Hend].
  pose proof (closes_parse_alldefs (fun _ => True) data fname fuel [] tokens) as Hk.
  assert (Hall : Forall (fun _ : LexToken => True) tokens).
  { apply Forall_forall. intros; exact I. }
  specialize (Hk Hall).
  destruct (parse_alldefs data fname fuel [] tokens) as [s|[alldefs rest]] eqn:Ep.
  { destruct s; try discriminate H; destruct lex_end; discriminate H. }
  destruct lex_end as [lx| |]; try discriminate H.
  exists tokens, lx. split; [reflexivity|].
  pose proof (parse_alldefs_reads_all _ _ _ _ _ _ _ Ep) as Hr. subst rest.
  simpl in Hk. destruct Hk as [_ Hk].
  destruct Hend as (_ & _ & _ & Hb). rewrite Hk in Hb. simpl in Hb.
  rewrite net_brackets_count in Hk. split; [lia|exact Hb].
Qed.

Lemma brackets_are_closed_witness :
  exists tokens lx,
    tokens_of eval_no_escapes (list_ascii_of_string class_with_overloads)
      (filename_or_placeholder None) 200 set_parse_info
      (list_ascii_of_string class_with_overloads)
    = (tokens, AtEof lx) /\
    count_type LBRACKET tokens + count_type LPAREN tokens
    = count_type RBRACKET tokens + count_type RPAREN tokens /\
    open_brackets lx = 0%Z.
Proof.
  apply (brackets_are_closed eval_no_escapes 200 class_with_overloads None
           {| u_constants := []; u_classes := [class_with_overloads_parsed];
              u_functions := [] |}).
  vm_compute. reflexivity.
Defined.

(** ** The position of a diagnostic *)







(** The diagnostic of the text whose second line is [y: )]: line 2,
    column 4, and the text of the second line. *)
Lemma parse_error_points_at_the_token :
  Parse eval_no_escapes unexpected_paren None
  = Fails (SyntaxError "Parse error" "<string>" 2 4 "y: )").
Proof. vm_compute. reflexivity. Qed.
